(** * Voxel back-projection of cryoDRGN: the trilinear splat and its driver

    Shallow embedding of [cryodrgn/commands/backproject_voxel.py].

    Number model.  The tensors of the program hold floating point numbers;
    the development reads them as real numbers, that is, it verifies the
    program under exact arithmetic (no rounding, no NaN, no overflow of the
    64-bit integer indices).

    Tensor model.  A [D x D x D] tensor is its side length together with the
    value at every index triple; only triples inside [0, D)^3 are ever read
    or written, every access going through [norm_index].

    Indexing model.  [V[(I0, I1, I2)] += X] with integer index tensors is
    Python's read-modify-write: the addressed entries are gathered into a
    fresh tensor, [X] is added to that copy, and the copy is scattered back
    ([index_put_] without accumulation).  Entries are written in index order,
    so among several rows that address one voxel the last one is kept (the
    CPU behaviour of torch, and numpy's documented rule).  A negative index
    [i >= -D] addresses [i + D]; any other index outside [0, D) raises
    [IndexError]. *)

From Stdlib Require Import Reals Lra Lia ZArith List Bool String.
From Stdlib Require Import Permutation FunctionalExtensionality.
Import ListNotations.

Open Scope R_scope.

(** ** Exceptions and the error monad *)

Inductive exn : Type :=
| IndexError
| AssertionError
| TypeError
| ValueError
| RuntimeError
| ZeroDivisionError
| NameError (name : string).

Inductive result (A : Type) : Type :=
| Ok (a : A)
| Raise (e : exn).

Arguments Ok {A} a.
Arguments Raise {A} e.

Definition bind {A B : Type} (m : result A) (k : A -> result B) : result B :=
  match m with
  | Ok a => k a
  | Raise e => Raise e
  end.

Notation "x <- m ;; k" := (bind m (fun x => k))
  (at level 61, m at next level, right associativity).
Notation "' pat <- m ;; k" := (bind m (fun x => match x with pat => k end))
  (at level 61, pat pattern, m at next level, right associativity).

(** [mapM f l] runs [f] on the elements of [l] from left to right and stops
    at the first exception. *)
Fixpoint mapM {A B : Type} (f : A -> result B) (l : list A) : result (list B) :=
  match l with
  | [] => Ok []
  | a :: l' => b <- f a ;; bs <- mapM f l' ;; Ok (b :: bs)
  end.

(** ** Tensors of shape (D, D, D) *)

Definition index3 : Type := (Z * Z * Z)%type.

Definition index3_eqb (i j : index3) : bool :=
  let '(a, b, c) := i in
  let '(a', b', c') := j in
  ((a =? a') && (b =? b') && (c =? c'))%Z.

Record tensor3 : Type := mkTensor3 {
  side : Z;
  at3 : index3 -> R
}.

(** [torch.zeros((D, D, D))] *)
Definition zeros (D : Z) : tensor3 := mkTensor3 D (fun _ => 0).

(** Store [x] at the (already normalized) position [k]. *)
Definition store (T : tensor3) (k : index3) (x : R) : tensor3 :=
  mkTensor3 (side T) (fun j => if index3_eqb j k then x else at3 T j).

(** Normalization of one integer index against an axis of size [n]. *)
Definition norm_index (n i : Z) : result Z :=
  if ((0 <=? i) && (i <? n))%Z then Ok i
  else if ((- n <=? i) && (i <? 0))%Z then Ok (i + n)%Z
  else Raise IndexError.

Definition norm_index3 (n : Z) (i : index3) : result index3 :=
  let '(a, b, c) := i in
  a' <- norm_index n a ;;
  b' <- norm_index n b ;;
  c' <- norm_index n c ;;
  Ok (a', b', c').

(** The three index tensors of an advanced index, row by row. *)
Fixpoint zip3 {A B C : Type} (la : list A) (lb : list B) (lc : list C)
  : list (A * B * C) :=
  match la, lb, lc with
  | a :: la', b :: lb', c :: lc' => (a, b, c) :: zip3 la' lb' lc'
  | _, _, _ => []
  end.

(** Element-wise binary operation on two vectors of the same length. *)
Fixpoint map2 {A B C : Type} (f : A -> B -> C) (la : list A) (lb : list B)
  : list C :=
  match la, lb with
  | a :: la', b :: lb' => f a b :: map2 f la' lb'
  | _, _ => []
  end.

(** [T[idx]]: gather into a fresh vector. *)
Definition getitem (T : tensor3) (idx : list index3) : result (list R) :=
  mapM (fun i => k <- norm_index3 (side T) i ;; Ok (at3 T k)) idx.

(** [T[idx] = vals]: scatter, later rows overwrite earlier ones. *)
Definition setitem (T : tensor3) (idx : list index3) (vals : list R)
  : result tensor3 :=
  ks <- mapM (norm_index3 (side T)) idx ;;
  Ok (fold_left (fun T' kv => store T' (fst kv) (snd kv)) (combine ks vals) T).

(** [T[idx] += vals] *)
Definition iadd_at (T : tensor3) (idx : list index3) (vals : list R)
  : result tensor3 :=
  tmp <- getitem T idx ;;
  setitem T idx (map2 Rplus tmp vals).

(** ** The splat: [add_slice] *)

(** A row of [ff_coord], in the order (x, y, z). *)
Definition coord : Type := (R * R * R)%type.

(** One sample of a slice: its row of [ff_coord] and its entry of [ff].  The
    two arguments [ff_coord] (M x 3) and [ff] (M) of [add_slice] are selected
    by the same mask and are kept together here as M rows. *)
Definition sample : Type := (coord * R)%type.

Definition cx (p : coord) : R := fst (fst p).
Definition cy (p : coord) : R := snd (fst p).
Definition cz (p : coord) : R := snd p.

(** [.floor().long()] and [.ceil().long()] *)
Definition floor (x : R) : Z := Int_part x.
Definition ceil (x : R) : Z := (- Int_part (- x))%Z.

(** [w = 1 - dist.pow(2).sum(0).pow(0.5); w[w < 0] = 0] for one column of
    [dist = torch.stack([xi, yi, zi]).float() - ff_coord]. *)
Definition corner_weight (c : Z * Z * Z) (p : coord) : R :=
  let '(xi, yi, zi) := c in
  let dx := IZR xi - cx p in
  let dy := IZR yi - cy p in
  let dz := IZR zi - cz p in
  let w := 1 - sqrt (dx * dx + dy * dy + dz * dz) in
  if Rlt_dec w 0 then 0 else w.

Definition add_for_corner (ff_coord : list coord) (ff : list R) (d2 : Z)
    (xi yi zi : list Z) (st : tensor3 * tensor3) : result (tensor3 * tensor3) :=
  let '(V, counts) := st in
  let w := map2 corner_weight (zip3 xi yi zi) ff_coord in
  let idx := zip3 (map (fun z => (z + d2)%Z) zi)
                  (map (fun y => (y + d2)%Z) yi)
                  (map (fun x => (x + d2)%Z) xi) in
  V' <- iadd_at V idx (map2 Rmult w ff) ;;
  counts' <- iadd_at counts idx w ;;
  Ok (V', counts').

Definition add_slice (V counts : tensor3) (samples : list sample) (D : Z)
  : result (tensor3 * tensor3) :=
  let d2 := Z.quot D 2 in
  let ff_coord := map fst samples in
  let ff := map snd samples in
  let xf := map (fun p => floor (cx p)) ff_coord in
  let yf := map (fun p => floor (cy p)) ff_coord in
  let zf := map (fun p => floor (cz p)) ff_coord in
  let xc := map (fun p => ceil (cx p)) ff_coord in
  let yc := map (fun p => ceil (cy p)) ff_coord in
  let zc := map (fun p => ceil (cz p)) ff_coord in
  let corner := add_for_corner ff_coord ff d2 in
  st <- corner xf yf zf (V, counts) ;;
  st <- corner xc yf zf st ;;
  st <- corner xf yc zf st ;;
  st <- corner xf yf zc st ;;
  st <- corner xc yc zf st ;;
  st <- corner xf yc zc st ;;
  st <- corner xc yf zc st ;;
  st <- corner xc yc zc st ;;
  Ok st.

(** ** Denotation of the splat

    What one call of [add_slice] does, read off sample by sample: which
    voxels it addresses, whether the call raises, and how much it adds. *)

Inductive rounding : Type := Floor | Ceil.

Definition round (r : rounding) (x : R) : Z :=
  match r with
  | Floor => floor x
  | Ceil => ceil x
  end.

(** A corner is one choice of floor or ceil per axis (x, y, z). *)
Definition choice : Type := (rounding * rounding * rounding)%type.

Definition corner_of (c : choice) (p : coord) : Z * Z * Z :=
  let '(rx, ry, rz) := c in
  (round rx (cx p), round ry (cy p), round rz (cz p)).

(** The eight calls of [add_for_corner], in the order of the source. *)
Definition corner_order : list choice :=
  [ (Floor, Floor, Floor); (Ceil, Floor, Floor); (Floor, Ceil, Floor);
    (Floor, Floor, Ceil); (Ceil, Ceil, Floor); (Floor, Ceil, Ceil);
    (Ceil, Floor, Ceil); (Ceil, Ceil, Ceil) ].

(** The index triple [(zi + d2, yi + d2, xi + d2)] of a corner. *)
Definition voxel_of (d2 : Z) (c : Z * Z * Z) : index3 :=
  let '(xi, yi, zi) := c in ((zi + d2)%Z, (yi + d2)%Z, (xi + d2)%Z).

Definition index_ok (n i : Z) : bool := ((- n <=? i) && (i <? n))%Z.

Definition wrap (n i : Z) : Z := if (i <? 0)%Z then (i + n)%Z else i.

Definition index3_ok (n : Z) (i : index3) : bool :=
  let '(a, b, c) := i in index_ok n a && index_ok n b && index_ok n c.

Definition wrap3 (n : Z) (i : index3) : index3 :=
  let '(a, b, c) := i in (wrap n a, wrap n b, wrap n c).

(** [k] is a voxel of a volume of side [n]. *)
Definition in_cube (n : Z) (k : index3) : bool :=
  let '(a, b, c) := k in
  ((0 <=? a) && (a <? n) && ((0 <=? b) && (b <? n)) && ((0 <=? c) && (c <? n)))%Z.

(** The voxel in [0, n)^3 that sample point [p] addresses for corner [c]. *)
Definition target (n d2 : Z) (c : choice) (p : coord) : index3 :=
  wrap3 n (voxel_of d2 (corner_of c p)).

(** The value written last at [k] by a scatter of the rows [l]. *)
Fixpoint last_write (l : list (index3 * R)) (k : index3) : option R :=
  match l with
  | [] => None
  | (i, x) :: l' =>
      match last_write l' k with
      | Some y => Some y
      | None => if index3_eqb k i then Some x else None
      end
  end.

Definition delta_of (l : list (index3 * R)) (k : index3) : R :=
  match last_write l k with
  | Some x => x
  | None => 0
  end.

(** Increment of [counts] (resp. [V]) by the pass of corner [c]. *)
Definition pass_dC (n d2 : Z) (c : choice) (samples : list sample) : index3 -> R :=
  delta_of (map (fun s => (target n d2 c (fst s),
                           corner_weight (corner_of c (fst s)) (fst s))) samples).

Definition pass_dV (n d2 : Z) (c : choice) (samples : list sample) : index3 -> R :=
  delta_of (map (fun s => (target n d2 c (fst s),
                           corner_weight (corner_of c (fst s)) (fst s) * snd s)) samples).

Definition Rsum (l : list R) : R := fold_right Rplus 0 l.

Definition slice_dC (n D : Z) (samples : list sample) (k : index3) : R :=
  Rsum (map (fun c => pass_dC n (Z.quot D 2) c samples k) corner_order).

Definition slice_dV (n D : Z) (samples : list sample) (k : index3) : R :=
  Rsum (map (fun c => pass_dV n (Z.quot D 2) c samples k) corner_order).

(** No corner of any sample has an index outside [-n, n). *)
Definition slice_ok (n D : Z) (samples : list sample) : bool :=
  forallb (fun c =>
    forallb (fun s => index3_ok n (voxel_of (Z.quot D 2) (corner_of c (fst s))))
            samples) corner_order.

(** [T + d], entry by entry. *)
Definition shift (T : tensor3) (d : index3 -> R) : tensor3 :=
  mkTensor3 (side T) (fun k => at3 T k + d k).

(** The vectors that [add_slice] hands to [add_for_corner] for corner [c]. *)
Definition xs_of (c : choice) (samples : list sample) : list Z :=
  map (fun p => round (fst (fst c)) (cx p)) (map fst samples).
Definition ys_of (c : choice) (samples : list sample) : list Z :=
  map (fun p => round (snd (fst c)) (cy p)) (map fst samples).
Definition zs_of (c : choice) (samples : list sample) : list Z :=
  map (fun p => round (snd c) (cz p)) (map fst samples).

Definition pass_ok (n d2 : Z) (c : choice) (samples : list sample) : bool :=
  forallb (fun s => index3_ok n (voxel_of d2 (corner_of c (fst s)))) samples.

(** One call of [add_for_corner] as [add_slice] makes it, and the calls for
    a list of corners in sequence. *)
Definition corner_pass (samples : list sample) (d2 : Z) (c : choice)
    (st : tensor3 * tensor3) : result (tensor3 * tensor3) :=
  add_for_corner (map fst samples) (map snd samples) d2
    (xs_of c samples) (ys_of c samples) (zs_of c samples) st.

Fixpoint run_passes (samples : list sample) (d2 : Z) (cs : list choice)
    (st : tensor3 * tensor3) : result (tensor3 * tensor3) :=
  match cs with
  | [] => Ok st
  | c :: cs' => st' <- corner_pass samples d2 c st ;; run_passes samples d2 cs' st'
  end.

(** A sequence of [add_slice] calls on the same pair of volumes. *)
Fixpoint splat_all (D : Z) (slices : list (list sample)) (st : tensor3 * tensor3)
  : result (tensor3 * tensor3) :=
  match slices with
  | [] => Ok st
  | samples :: rest =>
      st' <- add_slice (fst st) (snd st) samples D ;; splat_all D rest st'
  end.

(** ** Terminal normalization *)

(** [counts[counts == 0] = 1] *)
Definition fill_zero_counts (counts : tensor3) : tensor3 :=
  mkTensor3 (side counts)
    (fun k => if Req_dec_T (at3 counts k) 0 then 1 else at3 counts k).

(** [V /= counts], both of shape (D, D, D). *)
Definition idiv (V counts : tensor3) : tensor3 :=
  mkTensor3 (side V) (fun k => at3 V k / at3 counts k).

(** Lines 260-261: returns the normalized [V] and the patched [counts]. *)
Definition normalize (V counts : tensor3) : tensor3 * tensor3 :=
  let counts' := fill_zero_counts counts in
  (idiv V counts', counts').

(** [V[0:-1, 0:-1, 0:-1]] *)
Definition crop_last (V : tensor3) : tensor3 :=
  mkTensor3 (Z.max 0 (side V - 1)) (at3 V).

(** ** The driver: [main] *)

(** The parsed command line ([add_args]). *)
Module args.
Record t : Type := mk {
  particles : string;
  poses : string;
  ctf : option string;
  o : string;
  invert_data : bool;
  datadir : option string;
  lazy_ : bool;
  ind : option string;
  first : Z;
  tilt : option string;
  tilt_deg : R;
  do_tilt_series : bool;
  ntilts : Z;
  voltage : Z;
  dose_per_tilt : R;
  angle_per_tilt : R
}.
End args.

(** A 3 x 3 matrix, row by row. *)
Definition mat3 : Type := (coord * coord * coord)%type.

(** [p @ r] for a row vector [p]. *)
Definition vecmat (p : coord) (r : mat3) : coord :=
  let '(r0, r1, r2) := r in
  (cx p * cx r0 + cy p * cx r1 + cz p * cx r2,
   cx p * cy r0 + cy p * cy r1 + cz p * cy r2,
   cx p * cz r0 + cy p * cz r1 + cz p * cz r2).

(** What the loop reads of a loaded data set ([dataset.ImageDataset] or
    [dataset.TiltSeriesData]); images are flattened ([.view(-1)]).  An item
    is the tuple [(ff[0], ff[1])], the second entry being [None] when the
    data set carries no tilt pair. *)
Record Dataset : Type := mkDataset {
  ds_D : Z;
  ds_N : Z;
  ds_getitem : Z -> list R * option (list R);
  ds_get_tilt : Z -> list R * option (list R);
  ds_ctfscalefactor : list R
}.

(** What the loop reads of [Lattice(D, extent=D // 2)]. *)
Record Lattice : Type := mkLattice {
  coords : list coord;
  freqs2d : list (R * R);
  get_circular_mask : Z -> list bool;
  translate_ht : list R -> R * R -> list bool -> list R
}.

(** The collaborators of the driver that live in other modules. *)
Record World : Type := mkWorld {
  os_path_exists : string -> bool;
  os_path_dirname : string -> string;
  utils_load_pkl : string -> list Z;
  utils_xrot : R -> mat3;
  dataset_ImageDataset : args.t -> option (list Z) -> Dataset;
  dataset_TiltSeriesData : args.t -> option (list Z) -> Dataset;
  Lattice_new : Z -> Z -> Lattice;
  PoseTracker_load : string -> Z -> Z -> option (list Z) -> Z -> mat3 * option (R * R);
  ctf_load_ctf_for_training : Z -> string -> list (list R);
  ctf_compute_ctf : list (R * R) -> list R -> list R;
  (** lines 229-236, whose operands are tensors of the data set *)
  tilt_dose_correction : Dataset -> list (R * R) -> Z -> list R -> result (list R);
  fft_ihtn_center : tensor3 -> tensor3
}.

(** Boolean-mask selection [xs[mask]]; the shapes must agree. *)
Fixpoint filter_mask {A : Type} (mask : list bool) (xs : list A) : list A :=
  match mask, xs with
  | b :: mask', x :: xs' =>
      if b then x :: filter_mask mask' xs' else filter_mask mask' xs'
  | _, _ => []
  end.

Definition select {A : Type} (mask : list bool) (xs : list A) : result (list A) :=
  if Nat.eqb (List.length mask) (List.length xs) then Ok (filter_mask mask xs)
  else Raise IndexError.

(** [x.sign()] *)
Definition sign (x : R) : R :=
  if Rlt_dec x 0 then -1 else if Rlt_dec 0 x then 1 else 0.

(** Row [i] of a table, entry [j] of a row ([IndexError] when absent). *)
Definition item {A : Type} (l : list A) (i : Z) : result A :=
  k <- norm_index (Z.of_nat (List.length l)) i ;;
  match nth_error l (Z.to_nat k) with
  | Some a => Ok a
  | None => Raise IndexError
  end.

(** [range(n)] *)
Definition range (n : Z) : list Z := map Z.of_nat (seq 0 (Z.to_nat n)).

(** [s.endswith(suffix)] *)
Definition endswith (s suffix : string) : bool :=
  let n := String.length s in
  let m := String.length suffix in
  if Nat.leb m n then String.eqb (substring (n - m) m s) suffix else false.

(** Values a name can be bound to, as far as the driver tells them apart. *)
Inductive pyval : Type :=
| PyInt (z : Z)
| PyObject.

(** The global names of the module; [main] never assigns [index], so the
    name is looked up here (no builtin is called [index] either). *)
Definition module_globals : list string :=
  [ "argparse"; "os"; "time"; "math"; "np"; "torch"; "logging"; "ctf";
    "dataset"; "fft"; "utils"; "MRCFile"; "Lattice"; "PoseTracker"; "logger";
    "add_args"; "add_slice"; "main"; "parser" ]%string.

Definition load_global (name : string) : result pyval :=
  if existsb (String.eqb name) module_globals then Ok PyObject
  else Raise (NameError name).

(** The local variables of [main] that the loop reads. *)
Record Locals : Type := mkLocals {
  l_args : args.t;
  l_tilt : option mat3;
  l_data : Dataset;
  l_D : Z;
  l_lattice : Lattice;
  l_get_pose : Z -> mat3 * option (R * R);
  l_ctf_params : option (list (list R));
  l_mask : list bool
}.

(** The rows handed to [add_slice]: [ff_coord] and [ff] side by side.  Both
    are selected by the same mask, so they have one row per selected pixel;
    vectors of different lengths do not combine. *)
Definition rows_of (ff_coord : list coord) (ff : list R) : result (list sample) :=
  if Nat.eqb (List.length ff_coord) (List.length ff) then Ok (combine ff_coord ff)
  else Raise RuntimeError.

(** Line 211: [data.get_tilt(index) if args.do_tilt_series else data[ii]] *)
Definition fetch (lc : Locals) (ii : Z) : result (list R * option (list R)) :=
  if args.do_tilt_series (l_args lc) then
    index <- load_global "index" ;;
    match index with
    | PyInt j => Ok (ds_get_tilt (l_data lc) j)
    | PyObject => Raise TypeError
    end
  else Ok (ds_getitem (l_data lc) ii).

(** [lattice.freqs2d / ctf_params[ii, 0]] *)
Definition scaled_freqs (lc : Locals) (row : list R) : result (list (R * R)) :=
  apix <- item row 0 ;;
  Ok (map (fun f => (fst f / apix, snd f / apix)) (freqs2d (l_lattice lc))).

(** Lines 219-236: the corrections of the primary image.  Returns the
    corrected coefficients and the CTF values [c] (or [None]). *)
Definition correct_primary (w : World) (lc : Locals) (ii : Z) (raw : list R)
    (t : option (R * R)) : result (list R * option (list R)) :=
  ff0 <- select (l_mask lc) raw ;;
  '(ff1, c) <- match l_ctf_params lc with
               | Some table =>
                   row <- item table ii ;;
                   freqs <- scaled_freqs lc row ;;
                   c <- select (l_mask lc) (ctf_compute_ctf w freqs (tl row)) ;;
                   Ok (map2 Rmult ff0 (map sign c), Some c)
               | None => Ok (ff0, None)
               end ;;
  let ff2 := match t with
             | Some tv => translate_ht (l_lattice lc) ff1 tv (l_mask lc)
             | None => ff1
             end in
  ff3 <- (if args.do_tilt_series (l_args lc) then
            match l_ctf_params lc with
            | Some table =>
                row <- item table ii ;;
                freqs <- scaled_freqs lc row ;;
                tilt_dose_correction w (l_data lc) freqs ii ff2
            | None => Raise TypeError
            end
          else Ok ff2) ;;
  Ok (ff3, c).

(** Lines 243-250: the corrections of the tilt image. *)
Definition correct_tilt (lc : Locals) (ft : list R) (c : option (list R))
    (t : option (R * R)) : result (list R) :=
  ft0 <- select (l_mask lc) ft ;;
  let ft1 := match c with
             | Some cv => map2 Rmult ft0 (map sign cv)
             | None => ft0
             end in
  Ok (match t with
      | Some tv => translate_ht (l_lattice lc) ft1 tv (l_mask lc)
      | None => ft1
      end).

(** Lines 238 and 251: [ff_coord = lattice.coords[mask] @ ...], put next to
    the coefficients. *)
Definition place (lc : Locals) (rot : coord -> coord) (ff : list R)
  : result (list sample) :=
  pts <- select (l_mask lc) (coords (l_lattice lc)) ;;
  rows_of (map rot pts) ff.

(** One iteration of the loop of lines 207-252. *)
Definition loop_body (w : World) (lc : Locals) (ii : Z) (st : tensor3 * tensor3)
  : result (tensor3 * tensor3) :=
  let '(V, counts) := st in
  let '(r, t) := l_get_pose lc ii in
  ff <- fetch lc ii ;;
  let ff_tilt := match l_tilt lc with
                 | Some _ => snd ff
                 | None => None
                 end in
  '(ff3, c) <- correct_primary w lc ii (fst ff) t ;;
  rows <- place lc (fun p => vecmat p r) ff3 ;;
  st1 <- add_slice V counts rows (l_D lc) ;;
  match ff_tilt, l_tilt lc with
  | Some ft, Some tilt =>
      ft2 <- correct_tilt lc ft c t ;;
      rows <- place lc (fun p => vecmat (vecmat p tilt) r) ft2 ;;
      add_slice (fst st1) (snd st1) rows (l_D lc)
  | _, _ => Ok st1
  end.

(** [for ii in iterator: ...] *)
Fixpoint accumulate (w : World) (lc : Locals) (iterator : list Z)
    (st : tensor3 * tensor3) : result (tensor3 * tensor3) :=
  match iterator with
  | [] => Ok st
  | ii :: rest => st' <- loop_body w lc ii st ;; accumulate w lc rest st'
  end.

(** What [main] does to the outside, in order.  Log lines are left out. *)
Inductive event : Type :=
| EvMakedirs (dir : string)
| EvLoadIndices (path : string)
| EvLoadDataset (path : string)
| EvLoadPoses (path : string)
| EvLoadCtf (path : string)
| EvAllocate (D : Z)
| EvAccumulate (iterator : list Z)
| EvWrite (path : string) (V : tensor3) (Apix : R).

(** Computations of the driver: they extend the trace and may raise. *)
Definition io (A : Type) : Type := list event -> list event * result A.

Definition io_ret {A : Type} (a : A) : io A := fun tr => (tr, Ok a).

Definition io_bind {A B : Type} (m : io A) (k : A -> io B) : io B :=
  fun tr =>
    match m tr with
    | (tr', Ok a) => k a tr'
    | (tr', Raise e) => (tr', Raise e)
    end.

Definition emit (e : event) : io unit := fun tr => (tr ++ [e], Ok tt).

Definition lift {A : Type} (r : result A) : io A := fun tr => (tr, r).

Definition assert_ (b : bool) : io unit :=
  lift (if b then Ok tt else Raise AssertionError).

Notation "x <~ m ;; k" := (io_bind m (fun x => k))
  (at level 61, m at next level, right associativity).
Notation "m ;;; k" := (io_bind m (fun _ => k))
  (at level 61, right associativity).

(** [ctf_params[args.ind]] *)
Definition take_rows {A : Type} (table : list A) (ind : list Z) : result (list A) :=
  mapM (item table) ind.

(** [np.concatenate((ctf_params, scale.reshape(-1, 1)), axis=1)] *)
Definition append_column (table : list (list R)) (col : list R)
  : result (list (list R)) :=
  if Nat.eqb (List.length table) (List.length col)
  then Ok (map2 (fun row s => row ++ [s]) table col)
  else Raise ValueError.

Definition main (w : World) (a : args.t) : io unit :=
  assert_ (endswith (args.o a) ".mrc") ;;;
  (if negb (os_path_exists w (os_path_dirname w (args.o a)))
   then emit (EvMakedirs (os_path_dirname w (args.o a)))
   else io_ret tt) ;;;
  ind <~ match args.ind a with
         | Some f => emit (EvLoadIndices f) ;;; io_ret (Some (utils_load_pkl w f))
         | None => io_ret None
         end ;;
  let tilt := match args.tilt a with
              | None => None
              | Some _ => Some (utils_xrot w (args.tilt_deg a))
              end in
  emit (EvLoadDataset (args.particles a)) ;;;
  let data := if args.do_tilt_series a
              then dataset_TiltSeriesData w a ind
              else dataset_ImageDataset w a ind in
  let D := ds_D data in
  let Nimg := ds_N data in
  let lattice := Lattice_new w D (D / 2)%Z in
  emit (EvLoadPoses (args.poses a)) ;;;
  let get_pose := PoseTracker_load w (args.poses a) Nimg D ind in
  ctf_params <~ match args.ctf a with
                | Some f =>
                    emit (EvLoadCtf f) ;;;
                    let table := ctf_load_ctf_for_training w (D - 1)%Z f in
                    table <~ lift (match ind with
                                   | Some rows => take_rows table rows
                                   | None => Ok table
                                   end) ;;
                    table <~ lift (if args.do_tilt_series a
                                   then append_column table (ds_ctfscalefactor data)
                                   else Ok table) ;;
                    io_ret (Some table)
                | None => io_ret None
                end ;;
  Apix <~ lift (match ctf_params with
                | Some table => row <- item table 0 ;; item row 0
                | None => Ok 1
                end) ;;
  (* [torch.zeros] refuses a negative dimension *)
  lift (if (D <? 0)%Z then Raise RuntimeError else Ok tt) ;;;
  emit (EvAllocate D) ;;;
  let V := zeros D in
  emit (EvAllocate D) ;;;
  let counts := zeros D in
  let mask := get_circular_mask lattice (D / 2)%Z in
  let iterator := if (args.first a =? 0)%Z then range Nimg
                  else range (Z.min (args.first a) Nimg) in
  let lc := mkLocals a tilt data D lattice get_pose ctf_params mask in
  emit (EvAccumulate iterator) ;;;
  st <~ lift (accumulate w lc iterator (V, counts)) ;;
  (* the log line of lines 255-259 divides by [Nimg] *)
  lift (if (Nimg =? 0)%Z then Raise ZeroDivisionError else Ok tt) ;;;
  let '(V, counts) := normalize (fst st) (snd st) in
  let V := fft_ihtn_center w (crop_last V) in
  emit (EvWrite (args.o a) V Apix).

(** ** Statements of the specification, for comparison with the code *)

(** Weight conservation as the specification words it: from zero volumes,
    one sample [(p, v)] on a lattice vertex leaves weight 1 and value [1 * v]
    at [vertex] and nothing anywhere else. *)
Definition deposits_unit_weight (D : Z) (p : coord) (v : R) (vertex : index3) : Prop :=
  exists V' counts',
    add_slice (zeros D) (zeros D) [(p, v)] D = Ok (V', counts') /\
    forall k, at3 counts' k = (if index3_eqb k vertex then 1 else 0) /\
              at3 V' k = (if index3_eqb k vertex then 1 * v else 0).

(** The splat as the specification words it: for every sample point [p] with
    value [v] and every one of its 8 floor/ceil corners [c], the weight is
    [w = max(0, 1 - ||c - p||)] and the updates are [V[c + D/2] += w * v] and
    [counts[c + D/2] += w], each update adding to the entry as it stands. *)
Definition accum (T : tensor3) (k : index3) (x : R) : tensor3 :=
  store T k (at3 T k + x).

Definition spec_weight (c : Z * Z * Z) (p : coord) : R :=
  let '(xi, yi, zi) := c in
  Rmax 0 (1 - sqrt ((IZR xi - cx p) ^ 2 + (IZR yi - cy p) ^ 2 + (IZR zi - cz p) ^ 2)).

Definition splat_corner (D : Z) (s : sample) (st : tensor3 * tensor3) (c : choice)
  : tensor3 * tensor3 :=
  (accum (fst st) (voxel_of (Z.quot D 2) (corner_of c (fst s)))
         (spec_weight (corner_of c (fst s)) (fst s) * snd s),
   accum (snd st) (voxel_of (Z.quot D 2) (corner_of c (fst s)))
         (spec_weight (corner_of c (fst s)) (fst s))).

Definition splat_sample (D : Z) (st : tensor3 * tensor3) (s : sample)
  : tensor3 * tensor3 :=
  fold_left (splat_corner D s) corner_order st.

Definition splat_spec (D : Z) (samples : list sample) (st : tensor3 * tensor3)
  : tensor3 * tensor3 :=
  fold_left (splat_sample D) samples st.

(** The increments of [splat_spec]: every corner of every sample counts. *)
Definition spec_dV (D : Z) (samples : list sample) (k : index3) : R :=
  Rsum (map (fun s =>
    Rsum (map (fun c =>
      if index3_eqb k (voxel_of (Z.quot D 2) (corner_of c (fst s)))
      then spec_weight (corner_of c (fst s)) (fst s) * snd s else 0)
      corner_order)) samples).

Definition spec_dC (D : Z) (samples : list sample) (k : index3) : R :=
  Rsum (map (fun s =>
    Rsum (map (fun c =>
      if index3_eqb k (voxel_of (Z.quot D 2) (corner_of c (fst s)))
      then spec_weight (corner_of c (fst s)) (fst s) else 0)
      corner_order)) samples).

(** The update rule as the specification words it, for one call. *)
Definition performs_spec_updates (D : Z) (V counts : tensor3) (samples : list sample)
  : Prop :=
  add_slice V counts samples D = Ok (splat_spec D samples (V, counts)).

(** ** Denotation of the loop *)

(** The slices that the loop body hands to [add_slice] for image [ii]: the
    primary one and, with a tilt pair, the tilt one. *)
Definition image_slices (w : World) (lc : Locals) (ii : Z)
  : result (list (list sample)) :=
  let '(r, t) := l_get_pose lc ii in
  ff <- fetch lc ii ;;
  let ff_tilt := match l_tilt lc with
                 | Some _ => snd ff
                 | None => None
                 end in
  '(ff3, c) <- correct_primary w lc ii (fst ff) t ;;
  rows <- place lc (fun p => vecmat p r) ff3 ;;
  match ff_tilt, l_tilt lc with
  | Some ft, Some tilt =>
      ft2 <- correct_tilt lc ft c t ;;
      rows2 <- place lc (fun p => vecmat (vecmat p tilt) r) ft2 ;;
      Ok [rows; rows2]
  | _, _ => Ok [rows]
  end.

(** Increments of [V] and of [counts]. *)
Definition deltas : Type := ((index3 -> R) * (index3 -> R))%type.

Definition dzero : deltas := (fun _ => 0, fun _ => 0).

Definition dplus (a b : deltas) : deltas :=
  (fun k => fst a k + fst b k, fun k => snd a k + snd b k).

Definition oplus (a b : option deltas) : option deltas :=
  match a, b with
  | Some x, Some y => Some (dplus x y)
  | _, _ => None
  end.

(** Increments that are paired: the weight is non-negative, and where it is
    zero the value is zero too. *)
Definition paired (d : deltas) : Prop :=
  forall k, 0 <= snd d k /\ (snd d k = 0 -> fst d k = 0).

(** The increments of a sequence of [add_slice] calls on volumes of side
    [D]; [None] when one of the calls raises. *)
Fixpoint slices_delta (D : Z) (slices : list (list sample)) : option deltas :=
  match slices with
  | [] => Some dzero
  | samples :: rest =>
      oplus (if slice_ok D D samples
             then Some (slice_dV D D samples, slice_dC D D samples) else None)
            (slices_delta D rest)
  end.

Definition image_delta (w : World) (lc : Locals) (ii : Z) : option deltas :=
  match image_slices w lc ii with
  | Ok slices => slices_delta (l_D lc) slices
  | Raise _ => None
  end.

Fixpoint run_delta (w : World) (lc : Locals) (iterator : list Z) : option deltas :=
  match iterator with
  | [] => Some dzero
  | ii :: rest => oplus (image_delta w lc ii) (run_delta w lc rest)
  end.

(** Element-wise sum of two volumes of the same shape. *)
Definition tensor_add (T U : tensor3) : tensor3 :=
  mkTensor3 (side T) (fun k => at3 T k + at3 U k).

(** Voxel [k] is addressed by a corner of a sample of one of the slices. *)
Definition addressed_by (D : Z) (slices : list (list sample)) (k : index3) : Prop :=
  exists samples s c,
    In samples slices /\ In s samples /\ In c corner_order /\
    target D (Z.quot D 2) c (fst s) = k.

(** Voxel [k] receives a contribution from an image of the iteration. *)
Definition receives_contribution (w : World) (lc : Locals) (iterator : list Z)
    (k : index3) : Prop :=
  exists ii slices,
    In ii iterator /\ image_slices w lc ii = Ok slices /\
    addressed_by (l_D lc) slices k.

(** ** A small run

    Two pixels, at the lattice points (0, 0, 0) and (1, 0, 0), both inside
    the mask; identity poses without translation; no CTF table; [D = 5]. *)

Definition identity3 : mat3 := ((1, 0, 0), (0, 1, 0), (0, 0, 1)).

Definition demo_dataset : Dataset :=
  mkDataset 5 2
    (fun ii => ([IZR (ii + 1); 2], None))
    (fun ii => ([IZR (ii + 1); 2], None))
    [].

Definition demo_lattice : Lattice :=
  mkLattice [(IZR 0, IZR 0, IZR 0); (IZR 1, IZR 0, IZR 0)]
            [(0, 0); (1, 0)]
            (fun _ => [true; true])
            (fun ff _ _ => ff).

Definition demo_world : World :=
  mkWorld (fun _ => true) (fun s => s) (fun _ => []) (fun _ => identity3)
          (fun _ _ => demo_dataset) (fun _ _ => demo_dataset)
          (fun _ _ => demo_lattice)
          (fun _ _ _ _ _ => (identity3, None))
          (fun _ _ => []) (fun _ _ => [])
          (fun _ _ _ ff => Ok ff)
          (fun V => V).

Definition demo_args (tilt_series : bool) (out : string) : args.t :=
  args.mk "particles.mrcs" "poses.pkl" None out true None false None 10000
          None 45 tilt_series 10 300 (293 / 100) 3.

Definition demo_locals (tilt_series : bool) : Locals :=
  mkLocals (demo_args tilt_series "vol.mrc") None demo_dataset 5 demo_lattice
           (fun _ => (identity3, None)) None [true; true].

(** The rows of image [ii] in that run. *)
Definition demo_rows (ii : Z) : list sample :=
  [((IZR 0, IZR 0, IZR 0), IZR (ii + 1)); ((IZR 1, IZR 0, IZR 0), 2)].

(** The increments of the images 0 and 1 of that run. *)
Definition demo_delta : deltas :=
  dplus (dplus (slice_dV 5 5 (demo_rows 0), slice_dC 5 5 (demo_rows 0)) dzero)
        (dplus (dplus (slice_dV 5 5 (demo_rows 1), slice_dC 5 5 (demo_rows 1)) dzero)
               dzero).

(** ** Translation as a phase shift *)

(** Modelled from the spec: [Lattice.translate_ht] is called by the driver
    but is not among the source files.  The specification (section 4.3,
    step 1) has it multiply the coefficients by "a complex exponential of
    the dot product of frequency coordinate and translation, restricted to
    the masked frequencies".  Coefficients are complex numbers, written as
    pairs (real part, imaginary part); [kappa] is the constant of the
    exponent, which the specification leaves open. *)
Definition complex : Type := (R * R)%type.

Definition cmul (a b : complex) : complex :=
  (fst a * fst b - snd a * snd b, fst a * snd b + snd a * fst b).

Definition cexp_i (theta : R) : complex := (cos theta, sin theta).

Definition spec_translate_ht (kappa : R) (freqs : list (R * R))
    (ff : list complex) (t : R * R) : list complex :=
  map2 (fun k z => cmul (cexp_i (kappa * (fst k * fst t + snd k * snd t))) z)
       freqs ff.

(** Line 225, [ff *= c.sign()], on complex coefficients. *)
Definition ctf_sign_flip (c : list R) (ff : list complex) : list complex :=
  map2 (fun ci z => (sign ci * fst z, sign ci * snd z)) c ff.

(** ** Further notions for the splat and the driver *)

(** Squared distance between the lattice point [c] and the sample point [p]. *)
Definition dist2 (c : Z * Z * Z) (p : coord) : R :=
  let '(xi, yi, zi) := c in
  (IZR xi - cx p) * (IZR xi - cx p) + (IZR yi - cy p) * (IZR yi - cy p) +
  (IZR zi - cz p) * (IZR zi - cz p).

(** Squared norm of a point. *)
Definition norm2 (p : coord) : R := cx p * cx p + cy p * cy p + cz p * cz p.

(** The sample values all multiplied by [lam]. *)
Definition scale_values (lam : R) (samples : list sample) : list sample :=
  map (fun s => (fst s, lam * snd s)) samples.


(** The sample point lies in the box of the coordinates whose floor and
    ceil corners all have an index in [0, D). *)
Definition in_box (D : Z) (p : coord) : Prop :=
  (IZR (- Z.quot D 2) <= cx p <= IZR (D - 1 - Z.quot D 2)) /\
  (IZR (- Z.quot D 2) <= cy p <= IZR (D - 1 - Z.quot D 2)) /\
  (IZR (- Z.quot D 2) <= cz p <= IZR (D - 1 - Z.quot D 2)).

Definition dot3 (p q : coord) : R := cx p * cx q + cy p * cy q + cz p * cz q.

(** The rows of [r] are orthonormal, that is, [r @ r.T] is the identity. *)
Definition orthonormal (r : mat3) : Prop :=
  let '(r0, r1, r2) := r in
  dot3 r0 r0 = 1 /\ dot3 r1 r1 = 1 /\ dot3 r2 r2 = 1 /\
  dot3 r0 r1 = 0 /\ dot3 r0 r2 = 0 /\ dot3 r1 r2 = 0.

(** [a @ b] for two 3 x 3 matrices. *)
Definition matmul (a b : mat3) : mat3 :=
  let '(a0, a1, a2) := a in (vecmat a0 b, vecmat a1 b, vecmat a2 b).


(** Increments whose value part lies between [m] and [M] times the weight
    part, the weight part being non-negative. *)
Definition avg_bounded (m M : R) (d : deltas) : Prop :=
  forall k, 0 <= snd d k /\ m * snd d k <= fst d k <= M * snd d k.


(** [k] is one of the 8 voxels of the lattice cell whose lowest corner is
    the lattice point (a, b, c), for the offset [d2]. *)
Definition cell_vertex (d2 a b c : Z) (k : index3) : bool :=
  let '(z, y, x) := k in
  ((z =? c + d2) || (z =? c + 1 + d2))%Z &&
  ((y =? b + d2) || (y =? b + 1 + d2))%Z &&
  ((x =? a + d2) || (x =? a + 1 + d2))%Z.


(** Moving sample points and voxels by a whole number of lattice steps
    [(nx, ny, nz)]. *)
Definition shift_point (n : Z * Z * Z) (p : coord) : coord :=
  let '(nx, ny, nz) := n in (cx p + IZR nx, cy p + IZR ny, cz p + IZR nz).

Definition shift_samples (n : Z * Z * Z) (samples : list sample) : list sample :=
  map (fun s => (shift_point n (fst s), snd s)) samples.

Definition shift_voxel (n : Z * Z * Z) (k : index3) : index3 :=
  let '(nx, ny, nz) := n in
  let '(z, y, x) := k in ((z + nz)%Z, (y + ny)%Z, (x + nx)%Z).



(** ** Traces of the driver *)

Definition is_write (ev : event) : Prop :=
  match ev with
  | EvWrite _ _ _ => True
  | _ => False
  end.

(** Every event that [m] adds to the trace satisfies [P], and a value that
    [m] returns satisfies [Q]. *)
Definition io_spec {A : Type} (P : event -> Prop) (Q : A -> Prop) (m : io A) : Prop :=
  forall tr tr' r, m tr = (tr', r) ->
    exists new, tr' = tr ++ new /\ Forall P new /\
      match r with
      | Ok v => Q v
      | Raise _ => True
      end.

(** [m] writes the volume to [path] as its last action when it returns, and
    writes nothing when it raises. *)
Definition writes_last {A : Type} (path : string) (m : io A) : Prop :=
  forall tr tr' r, m tr = (tr', r) ->
    exists new, tr' = tr ++ new /\
      match r with
      | Ok _ => exists pre V Apix,
                  new = pre ++ [EvWrite path V Apix] /\
                  Forall (fun ev => ~ is_write ev) pre
      | Raise _ => Forall (fun ev => ~ is_write ev) new
      end.

(** The images that [main] loads and the indices it iterates over (lines
    145-175 and 201-205). *)
Definition main_ind (w : World) (a : args.t) : option (list Z) :=
  match args.ind a with
  | Some f => Some (utils_load_pkl w f)
  | None => None
  end.

Definition main_data (w : World) (a : args.t) : Dataset :=
  if args.do_tilt_series a
  then dataset_TiltSeriesData w a (main_ind w a)
  else dataset_ImageDataset w a (main_ind w a).



(** The small run with a data set that holds no image. *)
Definition demo_empty_dataset : Dataset :=
  mkDataset 5 0 (fun _ => ([], None)) (fun _ => ([], None)) [].

Definition demo_empty_world : World :=
  mkWorld (fun _ => true) (fun s => s) (fun _ => []) (fun _ => identity3)
          (fun _ _ => demo_empty_dataset) (fun _ _ => demo_empty_dataset)
          (fun _ _ => demo_lattice)
          (fun _ _ _ _ _ => (identity3, None))
          (fun _ _ => []) (fun _ _ => [])
          (fun _ _ _ ff => Ok ff)
          (fun V => V).


(** * [vae_het.py]: the loss of a training step and the training loop

    The network ([HetOnlyVAE]), the optimizer, the data loader and the
    schedules are collaborators: a training step is taken with what the
    network returned, and the loop with the sizes of the minibatches that the
    loader yields and the values that [train] returns. *)
Module vae_het.

(** [x.mean()] over all entries of a tensor that has entries. *)
Definition mean (l : list R) : R := Rsum l / INR (List.length l).

(** [F.mse_loss(y_recon, y)], both of shape (B, D, D), flattened. *)
Definition mse_loss (y_recon y : list R) : R :=
  mean (map2 (fun a b => (a - b) * (a - b)) y_recon y).

(** Line 120:
    [kld = -0.5 * torch.mean(1 + z_logvar - z_mu.pow(2) - z_logvar.exp())] *)
Definition kld (z_mu z_logvar : list R) : R :=
  - (1 / 2) * mean (map2 (fun mu lv => 1 + lv - mu * mu - exp lv) z_mu z_logvar).

(** Lines 112-117: the reconstruction loss; [tilt_pair] is
    [(y_recon_tilt, yt)] when there is a tilt image. *)
Definition gen_loss (y_recon y : list R) (tilt_pair : option (list R * list R)) : R :=
  match tilt_pair with
  | None => mse_loss y_recon y
  | Some (y_recon_tilt, yt) =>
      (1 / 2) * mse_loss y_recon y + (1 / 2) * mse_loss y_recon_tilt yt
  end.

(** Lines 122-131: the loss that is minimized; [equivariance] is
    [(lamb, eq_loss)], the weight and the value of the extra term.  The weight
    of line 125 is the global [args.beta_control], the value that [main]
    passes as [beta_control]. *)
Definition total_loss (gen kl beta : R) (beta_control : option R) (D : Z)
    (equivariance : option (R * R)) : R :=
  let loss := match beta_control with
              | None => gen + beta * kl / IZR (D * D)
              | Some bc => gen + bc * ((beta - kl) * (beta - kl)) / IZR (D * D)
              end in
  match equivariance with
  | Some (lamb, eq_loss) => loss + lamb * eq_loss
  | None => loss
  end.

(** Lines 178-181: the tilt matrix of [main], for [theta = tilt_deg * pi / 180]. *)
Definition tilt_matrix (tilt_deg : R) : mat3 :=
  let theta := tilt_deg * PI / 180 in
  ((1, 0, 0), (0, cos theta, - sin theta), (0, sin theta, cos theta)).

(** ** The training loop (lines 221-271) *)

Inductive error : Type :=
| UnboundLocalError (name : string)
| ZeroDivisionError
| TypeError
| ValueError.

Inductive outcome (A : Type) : Type :=
| Done (a : A)
| Fail (e : error).

Arguments Done {A} a.
Arguments Fail {A} e.

(** The two files of a checkpoint: [reconstruct.<epoch>.mrc] and
    [weights.<epoch>.pkl], or [reconstruct.mrc] and [weights.pkl]. *)
Inductive checkpoint_name : Type :=
| Numbered (epoch : Z)
| Final.

Inductive event : Type :=
| EvTrain (epoch : Z) (position : nat) (global_it : Z)
| EvLogBatch (epoch batch_it : Z)
| EvLogEpoch (epoch : Z) (gen kl loss : R)
| EvWriteVolume (name : checkpoint_name) (z : list R)
| EvSaveWeights (name : checkpoint_name) (epoch : Z).

(** What [train] returns, as far as the loop reads it. *)
Record TrainResult : Type := mkTrainResult {
  r_gen_loss : R;
  r_kld : R;
  r_loss : R;
  r_eq_loss : R;
  r_z : list R
}.

(** The command line and the collaborators of the loop. *)
Record Run : Type := mkRun {
  start_epoch : Z;
  num_epochs : Z;
  checkpoint : Z;
  log_interval : Z;
  Nimg : Z;
  equivariance : bool;
  (** [len(ind)] for the minibatches of an epoch, in order *)
  minibatches : Z -> list Z;
  (** the values returned by the call of [train] at a position of an epoch *)
  train_step : Z -> nat -> TrainResult
}.

(** The value of [z_accum]: the integer 0 it starts with, or an array. *)
Inductive zacc : Type :=
| ZInt0
| ZArray (v : list R).

(** [z_accum += x] for an array [x] (numpy: equal shapes, or [x] of one
    entry, else [ValueError]). *)
Definition z_iadd (acc : zacc) (x : list R) : outcome zacc :=
  match acc with
  | ZInt0 => Done (ZArray x)
  | ZArray v =>
      if Nat.eqb (List.length x) (List.length v) then Done (ZArray (map2 Rplus v x))
      else if Nat.eqb (List.length x) 1 then Done (ZArray (map (fun a => a + hd 0 x) v))
      else Fail ValueError
  end.

(** The accumulators of an epoch. *)
Record Acc : Type := mkAcc {
  gen_loss_accum : R;
  kld_accum : R;
  loss_accum : R;
  eq_loss_accum : R;
  z_accum : zacc;
  batch_it : Z
}.

Definition acc0 : Acc := mkAcc 0 0 0 0 ZInt0 0.

(** The body of the inner loop for the minibatch at [position], of size [B]. *)
Definition batch_step (run : Run) (epoch : Z) (position : nat) (B : Z)
    (tr : list event) (acc : Acc) : list event * outcome Acc :=
  let batch_it' := (batch_it acc + B)%Z in
  let global_it := (Nimg run * epoch + batch_it')%Z in
  let res := train_step run epoch position in
  let tr := tr ++ [EvTrain epoch position global_it] in
  match z_iadd (z_accum acc) (map (fun x => x * IZR B) (r_z res)) with
  | Fail e => (tr, Fail e)
  | Done zs =>
      let acc' := mkAcc (gen_loss_accum acc + r_gen_loss res * IZR B)
                        (kld_accum acc + r_kld res * IZR B)
                        (loss_accum acc + r_loss res * IZR B)
                        (if equivariance run
                         then eq_loss_accum acc + r_eq_loss res * IZR B
                         else eq_loss_accum acc)
                        zs batch_it' in
      if (log_interval run =? 0)%Z then (tr, Fail ZeroDivisionError)
      else if (batch_it' mod log_interval run =? 0)%Z
           then (tr ++ [EvLogBatch epoch batch_it'], Done acc')
           else (tr, Done acc')
  end.

Fixpoint run_batches (run : Run) (epoch : Z) (position : nat) (sizes : list Z)
    (tr : list event) (acc : Acc) : list event * outcome Acc :=
  match sizes with
  | [] => (tr, Done acc)
  | B :: rest =>
      match batch_step run epoch position B tr acc with
      | (tr', Done acc') => run_batches run epoch (S position) rest tr' acc'
      | (tr', Fail e) => (tr', Fail e)
      end
  end.

(** [z_accum / Nimg]: a float when [z_accum] is still the integer 0. *)
Definition z_mean (acc : zacc) (N : Z) : option (list R) :=
  match acc with
  | ZInt0 => None
  | ZArray v => Some (map (fun x => x / IZR N) v)
  end.

(** [save_checkpoint] (lines 137-145): [eval_volume] takes [len(zval)], which
    a float does not have, then the volume and the weights are written. *)
Definition save_checkpoint (name : checkpoint_name) (z : option (list R))
    (epoch : Z) (tr : list event) : list event * outcome unit :=
  match z with
  | None => (tr, Fail TypeError)
  | Some v => (tr ++ [EvWriteVolume name v; EvSaveWeights name epoch], Done tt)
  end.

(** One pass of the outer loop. *)
Definition epoch_step (run : Run) (epoch : Z) (tr : list event)
  : list event * outcome Acc :=
  match run_batches run epoch 0 (minibatches run epoch) tr acc0 with
  | (tr, Fail e) => (tr, Fail e)
  | (tr, Done acc) =>
      if (Nimg run =? 0)%Z then (tr, Fail ZeroDivisionError)
      else
        let tr := tr ++ [EvLogEpoch (epoch + 1)
                           (gen_loss_accum acc / IZR (Nimg run))
                           (kld_accum acc / IZR (Nimg run))
                           (loss_accum acc / IZR (Nimg run))] in
        if negb (checkpoint run =? 0)%Z && (epoch mod checkpoint run =? 0)%Z
        then match save_checkpoint (Numbered epoch)
                     (z_mean (z_accum acc) (Nimg run)) epoch tr with
             | (tr, Done _) => (tr, Done acc)
             | (tr, Fail e) => (tr, Fail e)
             end
        else (tr, Done acc)
  end.

(** The outer loop; [last] holds the local variables [epoch] and [z_accum]
    as the latest pass left them, if there was one. *)
Fixpoint run_epochs (run : Run) (epochs : list Z) (tr : list event)
    (last : option (Z * Acc)) : list event * outcome (option (Z * Acc)) :=
  match epochs with
  | [] => (tr, Done last)
  | epoch :: rest =>
      match epoch_step run epoch tr with
      | (tr', Done acc) => run_epochs run rest tr' (Some (epoch, acc))
      | (tr', Fail e) => (tr', Fail e)
      end
  end.

(** [range(start, stop)] *)
Definition range2 (start stop : Z) : list Z :=
  map (fun k => (start + Z.of_nat k)%Z) (seq 0 (Z.to_nat (stop - start))).

(** Lines 221-271 of [main]: the loop, the last checkpoint and the closing
    log line, which divides by [num_epochs]. *)
Definition training (run : Run) : list event * outcome unit :=
  match run_epochs run (range2 (start_epoch run) (num_epochs run)) [] None with
  | (tr, Fail e) => (tr, Fail e)
  | (tr, Done None) => (tr, Fail (UnboundLocalError "z_accum"))
  | (tr, Done (Some (epoch, acc))) =>
      match save_checkpoint Final (z_mean (z_accum acc) (Nimg run)) epoch tr with
      | (tr, Fail e) => (tr, Fail e)
      | (tr, Done _) =>
          if (num_epochs run =? 0)%Z then (tr, Fail ZeroDivisionError)
          else (tr, Done tt)
      end
  end.

(** The names of the weight files saved, in order. *)
Fixpoint saved_weights (tr : list event) : list checkpoint_name :=
  match tr with
  | [] => []
  | EvSaveWeights name _ :: rest => name :: saved_weights rest
  | _ :: rest => saved_weights rest
  end.

(** A small run: two epochs of two minibatches, a checkpoint every epoch. *)
Definition demo_run : Run :=
  mkRun 0 2 1 1000 3 false (fun _ => [2; 1]%Z)
        (fun _ _ => mkTrainResult 1 2 3 0 [5]).

End vae_het.


(** ** Basic facts *)

Lemma index3_eqb_eq (i j : index3) : index3_eqb i j = true <-> i = j.
Proof.
  destruct i as [[a b] c], j as [[a' b'] c']; simpl.
  rewrite !andb_true_iff, !Z.eqb_eq. split.
  - intros [[-> ->] ->]; reflexivity.
  - intros H; inversion H; auto.
Qed.

Lemma index3_eqb_refl (i : index3) : index3_eqb i i = true.
Proof. apply index3_eqb_eq; reflexivity. Qed.

Lemma tensor3_ext (T U : tensor3) :
  side T = side U -> (forall k, at3 T k = at3 U k) -> T = U.
Proof.
  destruct T as [n f], U as [m g]; simpl; intros -> H.
  f_equal. apply functional_extensionality; exact H.
Qed.

Lemma norm_index_spec (n i : Z) :
  norm_index n i = if index_ok n i then Ok (wrap n i) else Raise IndexError.
Proof.
  unfold norm_index, index_ok, wrap.
  destruct (0 <=? i)%Z eqn:H0; destruct (i <? n)%Z eqn:H1;
    destruct (- n <=? i)%Z eqn:H2; destruct (i <? 0)%Z eqn:H3; simpl;
    try reflexivity; exfalso;
    repeat match goal with
           | H : (_ <=? _)%Z = true |- _ => apply Z.leb_le in H
           | H : (_ <=? _)%Z = false |- _ => apply Z.leb_gt in H
           | H : (_ <? _)%Z = true |- _ => apply Z.ltb_lt in H
           | H : (_ <? _)%Z = false |- _ => apply Z.ltb_ge in H
           end; lia.
Qed.

Lemma norm_index3_spec (n : Z) (i : index3) :
  norm_index3 n i = if index3_ok n i then Ok (wrap3 n i) else Raise IndexError.
Proof.
  destruct i as [[a b] c]; unfold norm_index3, index3_ok, wrap3.
  rewrite !norm_index_spec.
  destruct (index_ok n a), (index_ok n b), (index_ok n c); reflexivity.
Qed.

Lemma mapM_norm_spec (n : Z) (idx : list index3) :
  mapM (norm_index3 n) idx =
  if forallb (index3_ok n) idx then Ok (map (wrap3 n) idx) else Raise IndexError.
Proof.
  induction idx as [|i idx IH]; simpl; [reflexivity|].
  rewrite norm_index3_spec, IH.
  destruct (index3_ok n i), (forallb (index3_ok n) idx); reflexivity.
Qed.

Lemma getitem_spec (T : tensor3) (idx : list index3) :
  getitem T idx =
  if forallb (index3_ok (side T)) idx
  then Ok (map (fun i => at3 T (wrap3 (side T) i)) idx) else Raise IndexError.
Proof.
  unfold getitem.
  induction idx as [|i idx IH]; simpl; [reflexivity|].
  rewrite norm_index3_spec, IH.
  destruct (index3_ok (side T) i), (forallb (index3_ok (side T)) idx); reflexivity.
Qed.

Lemma fold_store_side (l : list (index3 * R)) (T : tensor3) :
  side (fold_left (fun T' kv => store T' (fst kv) (snd kv)) l T) = side T.
Proof.
  revert T; induction l as [|[i x] l IH]; intros T; simpl; [reflexivity|].
  rewrite IH; reflexivity.
Qed.

Lemma fold_store_at (l : list (index3 * R)) (T : tensor3) (k : index3) :
  at3 (fold_left (fun T' kv => store T' (fst kv) (snd kv)) l T) k =
  match last_write l k with
  | Some y => y
  | None => at3 T k
  end.
Proof.
  revert T; induction l as [|[i x] l IH]; intros T; simpl; [reflexivity|].
  rewrite IH. destruct (last_write l k); [reflexivity|].
  simpl. destruct (index3_eqb k i); reflexivity.
Qed.

Lemma last_write_rebase (T : tensor3) (ks : list index3) (vals : list R) (k : index3) :
  last_write (combine ks (map2 Rplus (map (at3 T) ks) vals)) k =
  option_map (fun x => at3 T k + x) (last_write (combine ks vals) k).
Proof.
  revert vals; induction ks as [|i ks IH]; intros [|v vals]; simpl; try reflexivity.
  rewrite IH. destruct (last_write (combine ks vals) k); simpl; [reflexivity|].
  destruct (index3_eqb k i) eqn:E; [|reflexivity].
  apply index3_eqb_eq in E; subst; reflexivity.
Qed.

(** One indexed in-place addition is a shift by an increment that does not
    depend on the tensor's entries. *)
Lemma iadd_at_spec (T : tensor3) (idx : list index3) (vals : list R) :
  iadd_at T idx vals =
  if forallb (index3_ok (side T)) idx
  then Ok (shift T (delta_of (combine (map (wrap3 (side T)) idx) vals)))
  else Raise IndexError.
Proof.
  unfold iadd_at. rewrite getitem_spec.
  destruct (forallb (index3_ok (side T)) idx) eqn:Hok; simpl; [|reflexivity].
  unfold setitem. rewrite mapM_norm_spec, Hok; simpl. f_equal.
  apply tensor3_ext; simpl.
  - apply fold_store_side.
  - intros k. rewrite fold_store_at.
    rewrite <- (map_map (wrap3 (side T)) (at3 T)), last_write_rebase.
    unfold delta_of.
    destruct (last_write (combine (map (wrap3 (side T)) idx) vals) k); simpl; lra.
Qed.

(** ** The splat as a shift *)

Lemma zip3_map {A B C X : Type} (f : X -> A) (g : X -> B) (h : X -> C) (l : list X) :
  zip3 (map f l) (map g l) (map h l) = map (fun x => (f x, g x, h x)) l.
Proof. induction l as [|x l IH]; simpl; [reflexivity | now rewrite IH]. Qed.

Lemma map2_map {A B C X : Type} (f : A -> B -> C) (g : X -> A) (h : X -> B) (l : list X) :
  map2 f (map g l) (map h l) = map (fun x => f (g x) (h x)) l.
Proof. induction l as [|x l IH]; simpl; [reflexivity | now rewrite IH]. Qed.

Lemma combine_map {A B X : Type} (g : X -> A) (h : X -> B) (l : list X) :
  combine (map g l) (map h l) = map (fun x => (g x, h x)) l.
Proof. induction l as [|x l IH]; simpl; [reflexivity | now rewrite IH]. Qed.

Lemma forallb_map_comp {A B : Type} (f : A -> B) (p : B -> bool) (l : list A) :
  forallb p (map f l) = forallb (fun a => p (f a)) l.
Proof. induction l as [|x l IH]; simpl; [reflexivity | now rewrite IH]. Qed.

Lemma shift_shift (T : tensor3) (d e : index3 -> R) :
  shift (shift T d) e = shift T (fun k => d k + e k).
Proof. apply tensor3_ext; simpl; [reflexivity | intros k; lra]. Qed.

Lemma shift_ext (T : tensor3) (d e : index3 -> R) :
  (forall k, d k = e k) -> shift T d = shift T e.
Proof. intros H. apply tensor3_ext; simpl; [reflexivity | intros k; now rewrite H]. Qed.

Lemma add_for_corner_spec (samples : list sample) (d2 : Z) (c : choice)
    (V counts : tensor3) :
  side counts = side V ->
  add_for_corner (map fst samples) (map snd samples) d2
    (xs_of c samples) (ys_of c samples) (zs_of c samples) (V, counts) =
  if pass_ok (side V) d2 c samples
  then Ok (shift V (pass_dV (side V) d2 c samples),
           shift counts (pass_dC (side V) d2 c samples))
  else Raise IndexError.
Proof.
  intros Hside. destruct c as [[rx ry] rz].
  unfold add_for_corner, xs_of, ys_of, zs_of; simpl fst; simpl snd.
  rewrite !map_map, !zip3_map, !map2_map.
  rewrite !iadd_at_spec, Hside, !forallb_map_comp.
  unfold pass_ok, voxel_of, corner_of; simpl.
  match goal with |- context [forallb ?f samples] => destruct (forallb f samples) end;
    simpl; [|reflexivity].
  rewrite !map_map, !combine_map.
  unfold pass_dV, pass_dC, target, voxel_of, corner_of. reflexivity.
Qed.

Lemma add_slice_passes (V counts : tensor3) (samples : list sample) (D : Z) :
  add_slice V counts samples D =
  run_passes samples (Z.quot D 2) corner_order (V, counts).
Proof. reflexivity. Qed.

Lemma shift_zero (T : tensor3) : shift T (fun _ => 0) = T.
Proof. apply tensor3_ext; simpl; [reflexivity | intros k; lra]. Qed.

Lemma run_passes_spec (samples : list sample) (d2 : Z) (cs : list choice)
    (V counts : tensor3) :
  side counts = side V ->
  run_passes samples d2 cs (V, counts) =
  if forallb (fun c => pass_ok (side V) d2 c samples) cs
  then Ok (shift V (fun k => Rsum (map (fun c => pass_dV (side V) d2 c samples k) cs)),
           shift counts (fun k => Rsum (map (fun c => pass_dC (side V) d2 c samples k) cs)))
  else Raise IndexError.
Proof.
  revert V counts; induction cs as [|c cs IH]; intros V counts Hside.
  - simpl. now rewrite !shift_zero.
  - cbn [run_passes forallb map]. unfold corner_pass.
    rewrite add_for_corner_spec by exact Hside.
    destruct (pass_ok (side V) d2 c samples); cbn [bind andb]; [|reflexivity].
    rewrite IH by (simpl; exact Hside). cbn [shift side].
    destruct (forallb _ cs); [|reflexivity].
    now rewrite !shift_shift.
Qed.

(** A call of [add_slice] on tensors of side [n] either raises [IndexError]
    or adds, entry by entry, increments that depend on the samples only. *)
Lemma add_slice_spec (n : Z) (V counts : tensor3) (samples : list sample) (D : Z) :
  side V = n -> side counts = n ->
  add_slice V counts samples D =
  if slice_ok n D samples
  then Ok (shift V (slice_dV n D samples), shift counts (slice_dC n D samples))
  else Raise IndexError.
Proof.
  intros HV HC. rewrite add_slice_passes, run_passes_spec by congruence.
  rewrite HV. reflexivity.
Qed.

(** ** A sample on a lattice vertex *)

Lemma floor_IZR (a : Z) : floor (IZR a) = a.
Proof. unfold floor. symmetry. apply Int_part_spec. lra. Qed.

Lemma ceil_IZR (a : Z) : ceil (IZR a) = a.
Proof.
  unfold ceil. rewrite <- opp_IZR.
  change (Int_part (IZR (- a))) with (floor (IZR (- a))).
  rewrite floor_IZR. lia.
Qed.

Lemma round_IZR (r : rounding) (a : Z) : round r (IZR a) = a.
Proof. destruct r; [apply floor_IZR | apply ceil_IZR]. Qed.

Lemma corner_of_vertex (ch : choice) (a b c : Z) :
  corner_of ch (IZR a, IZR b, IZR c) = (a, b, c).
Proof.
  destruct ch as [[rx ry] rz]. unfold corner_of, cx, cy, cz; simpl.
  now rewrite !round_IZR.
Qed.

Lemma corner_weight_vertex (a b c : Z) :
  corner_weight (a, b, c) (IZR a, IZR b, IZR c) = 1.
Proof.
  unfold corner_weight, cx, cy, cz; simpl.
  replace ((IZR a - IZR a) * (IZR a - IZR a) + (IZR b - IZR b) * (IZR b - IZR b) +
           (IZR c - IZR c) * (IZR c - IZR c)) with 0 by ring.
  rewrite sqrt_0. destruct (Rlt_dec (1 - 0) 0); lra.
Qed.

(** The eight coincident corners each add weight 1. *)
Lemma vertex_sample_spec (D a b c : Z) (v : R) (V counts : tensor3) :
  side V = D -> side counts = D ->
  index3_ok D (voxel_of (Z.quot D 2) (a, b, c)) = true ->
  add_slice V counts [((IZR a, IZR b, IZR c), v)] D =
  Ok (shift V (fun k => if index3_eqb k (wrap3 D (voxel_of (Z.quot D 2) (a, b, c)))
                        then 8 * v else 0),
      shift counts (fun k => if index3_eqb k (wrap3 D (voxel_of (Z.quot D 2) (a, b, c)))
                             then 8 else 0)).
Proof.
  intros HV HC Hok.
  rewrite (add_slice_spec D) by assumption.
  unfold slice_ok, slice_dV, slice_dC, pass_dV, pass_dC, target, delta_of, corner_order.
  cbn [forallb map fst snd last_write Rsum fold_right].
  rewrite !corner_of_vertex, !corner_weight_vertex, Hok. cbn [andb].
  f_equal. f_equal; apply shift_ext; intros k;
    destruct (index3_eqb k (wrap3 D (voxel_of (Z.quot D 2) (a, b, c)))); lra.
Qed.

(** C1 (amended).  A single sample [(p, v)] whose point [p = (a, b, c)] is a
    lattice vertex addressing a voxel of the volume: all eight floor/ceil
    corners coincide with the vertex and each has weight 1, so one call of
    [add_slice] adds 8 to [counts] and [8 * v] to [V] at that voxel, and adds
    nothing at any other voxel. *)
Theorem splat_on_lattice_vertex (D a b c : Z) (v : R) (V counts : tensor3) :
  side V = D -> side counts = D ->
  index3_ok D (voxel_of (Z.quot D 2) (a, b, c)) = true ->
  exists V' counts',
    add_slice V counts [((IZR a, IZR b, IZR c), v)] D = Ok (V', counts') /\
    forall k,
      at3 counts' k =
        at3 counts k +
        (if index3_eqb k (wrap3 D (voxel_of (Z.quot D 2) (a, b, c))) then 8 else 0) /\
      at3 V' k =
        at3 V k +
        (if index3_eqb k (wrap3 D (voxel_of (Z.quot D 2) (a, b, c))) then 8 * v else 0).
Proof.
  intros HV HC Hok. eexists; eexists; split.
  - apply vertex_sample_spec; assumption.
  - intros k; split; reflexivity.
Qed.

Lemma splat_on_lattice_vertex_witness :
  exists V' counts',
    add_slice (zeros 3) (zeros 3) [((IZR 0, IZR 0, IZR 0), 2)] 3 = Ok (V', counts') /\
    forall k,
      at3 counts' k =
        at3 (zeros 3) k +
        (if index3_eqb k (wrap3 3 (voxel_of (Z.quot 3 2) (0, 0, 0)%Z)) then 8 else 0) /\
      at3 V' k =
        at3 (zeros 3) k +
        (if index3_eqb k (wrap3 3 (voxel_of (Z.quot 3 2) (0, 0, 0)%Z)) then 8 * 2 else 0).
Proof.
  apply (splat_on_lattice_vertex 3 0 0 0 2 (zeros 3) (zeros 3)); reflexivity.
Defined.

(** C1 as stated fails: with [D = 3], the sample at the origin with value 1
    does not leave weight 1 at the centre voxel (1, 1, 1); it leaves 8. *)
Lemma unit_weight_at_vertex_fails :
  ~ deposits_unit_weight 3 (0, 0, 0) 1 (1, 1, 1)%Z.
Proof.
  intros (V' & counts' & Hrun & Hk).
  pose proof (vertex_sample_spec 3 0 0 0 1 (zeros 3) (zeros 3)
                eq_refl eq_refl eq_refl) as Hcode.
  assert (Heq : Ok (V', counts') = Ok
            (shift (zeros 3) (fun k => if index3_eqb k (1, 1, 1)%Z then 8 * 1 else 0),
             shift (zeros 3) (fun k => if index3_eqb k (1, 1, 1)%Z then 8 else 0)))
    by (rewrite <- Hrun; exact Hcode).
  inversion Heq; subst; clear Heq.
  destruct (Hk (1, 1, 1)%Z) as [Hc _]. simpl in Hc. lra.
Qed.

(** ** Index policy of the splat *)

Lemma slice_ok_true_iff (n D : Z) (samples : list sample) :
  slice_ok n D samples = true <->
  forall s c, In s samples -> In c corner_order ->
    index3_ok n (voxel_of (Z.quot D 2) (corner_of c (fst s))) = true.
Proof.
  unfold slice_ok. rewrite forallb_forall. split.
  - intros H s c Hs Hc. specialize (H c Hc). rewrite forallb_forall in H. now apply H.
  - intros H c Hc. rewrite forallb_forall. intros s Hs. now apply H.
Qed.



Lemma last_write_miss (l : list (index3 * R)) (k : index3) :
  (forall row, In row l -> fst row <> k) -> last_write l k = None.
Proof.
  induction l as [|[i x] l IH]; intros H; simpl; [reflexivity|].
  rewrite IH by (intros row Hrow; apply H; now right).
  destruct (index3_eqb k i) eqn:E; [|reflexivity].
  apply index3_eqb_eq in E. exfalso. apply (H (i, x)); [now left | now simpl].
Qed.

Lemma delta_of_miss (l : list (index3 * R)) (k : index3) :
  (forall row, In row l -> fst row <> k) -> delta_of l k = 0.
Proof. intros H. unfold delta_of. now rewrite last_write_miss. Qed.

Lemma Rsum_zero {A : Type} (f : A -> R) (l : list A) :
  (forall a, In a l -> f a = 0) -> Rsum (map f l) = 0.
Proof.
  induction l as [|a l IH]; intros H; simpl; [reflexivity|].
  rewrite (H a) by now left. rewrite IH by (intros; apply H; now right). lra.
Qed.

(** A voxel that no sample addresses gets no increment. *)
Lemma slice_delta_miss (n D : Z) (samples : list sample) (k : index3) :
  (forall s c, In s samples -> In c corner_order ->
     target n (Z.quot D 2) c (fst s) <> k) ->
  slice_dV n D samples k = 0 /\ slice_dC n D samples k = 0.
Proof.
  intros H. unfold slice_dV, slice_dC. split; apply Rsum_zero; intros c Hc;
    unfold pass_dV, pass_dC; apply delta_of_miss; intros row Hrow;
    apply in_map_iff in Hrow; destruct Hrow as (s & <- & Hs); simpl; now apply H.
Qed.




(** ** The splat against its specification *)

Lemma corner_weight_spec (c : Z * Z * Z) (p : coord) :
  corner_weight c p = spec_weight c p.
Proof.
  destruct c as [[xi yi] zi]. unfold corner_weight, spec_weight.
  replace ((IZR xi - cx p) ^ 2 + (IZR yi - cy p) ^ 2 + (IZR zi - cz p) ^ 2)
    with ((IZR xi - cx p) * (IZR xi - cx p) + (IZR yi - cy p) * (IZR yi - cy p) +
          (IZR zi - cz p) * (IZR zi - cz p)) by ring.
  cbv zeta. unfold Rmax.
  destruct (Rlt_dec _ 0), (Rle_dec 0 _); lra.
Qed.

Lemma Rsum_map_plus {A : Type} (f g : A -> R) (l : list A) :
  Rsum (map (fun a => f a + g a) l) = Rsum (map f l) + Rsum (map g l).
Proof. induction l as [|a l IH]; simpl; [lra | rewrite IH; lra]. Qed.

Lemma Rsum_map_single_cons {A : Type} (f : A -> R) (a : A) (l : list A) :
  Rsum (map f [a]) + Rsum (map f l) = Rsum (map f (a :: l)).
Proof. simpl. lra. Qed.

Lemma Rsum_swap {A B : Type} (f : A -> B -> R) (la : list A) (lb : list B) :
  Rsum (map (fun a => Rsum (map (f a) lb)) la) =
  Rsum (map (fun b => Rsum (map (fun a => f a b) la)) lb).
Proof.
  induction la as [|a la IH]; simpl.
  - symmetry. apply Rsum_zero. reflexivity.
  - rewrite IH, <- Rsum_map_plus. reflexivity.
Qed.

Lemma Rsum_ext {A : Type} (f g : A -> R) (l : list A) :
  (forall a, In a l -> f a = g a) -> Rsum (map f l) = Rsum (map g l).
Proof.
  induction l as [|a l IH]; intros H; simpl; [reflexivity|].
  rewrite (H a) by now left. rewrite IH by (intros; apply H; now right). reflexivity.
Qed.

Lemma last_write_hit (l : list (index3 * R)) (k : index3) (y : R) :
  last_write l k = Some y -> In (k, y) l.
Proof.
  induction l as [|[i x] l IH]; simpl; [discriminate|].
  destruct (last_write l k) as [z|].
  - intros H; right; apply IH; exact H.
  - destruct (index3_eqb k i) eqn:E; [|discriminate].
    apply index3_eqb_eq in E; subst. intros H; inversion H; now left.
Qed.

(** Without two rows on one voxel a scatter adds every row. *)
Lemma delta_of_nodup (l : list (index3 * R)) (k : index3) :
  NoDup (map fst l) ->
  delta_of l k = Rsum (map (fun row => if index3_eqb k (fst row) then snd row else 0) l).
Proof.
  unfold delta_of. induction l as [|[i x] l IH]; intros Hnd; simpl; [reflexivity|].
  inversion Hnd as [|? ? Hnotin Hnd']; subst. specialize (IH Hnd').
  destruct (last_write l k) as [y|] eqn:E.
  - apply last_write_hit in E.
    destruct (index3_eqb k i) eqn:Ek.
    + apply index3_eqb_eq in Ek. subst k. exfalso. apply Hnotin.
      apply in_map_iff. exists (i, y). split; [reflexivity | exact E].
    + rewrite <- IH. lra.
  - rewrite <- IH. destruct (index3_eqb k i); lra.
Qed.

Lemma fold_left_pair {A B X : Type} (f : A -> X -> A) (g : B -> X -> B)
    (l : list X) (a : A) (b : B) :
  fold_left (fun st x => (f (fst st) x, g (snd st) x)) l (a, b) =
  (fold_left f l a, fold_left g l b).
Proof. revert a b; induction l as [|x l IH]; intros a b; simpl; [reflexivity | apply IH]. Qed.

Lemma fold_accum_side {X : Type} (key : X -> index3) (val : X -> R) (l : list X)
    (T : tensor3) :
  side (fold_left (fun T' u => accum T' (key u) (val u)) l T) = side T.
Proof. revert T; induction l as [|u l IH]; intros T; simpl; [reflexivity | now rewrite IH]. Qed.

Lemma fold_accum_at {X : Type} (key : X -> index3) (val : X -> R) (l : list X)
    (T : tensor3) (k : index3) :
  at3 (fold_left (fun T' u => accum T' (key u) (val u)) l T) k =
  at3 T k + Rsum (map (fun u => if index3_eqb k (key u) then val u else 0) l).
Proof.
  revert T; induction l as [|u l IH]; intros T; simpl; [lra|].
  rewrite IH. simpl. destruct (index3_eqb k (key u)) eqn:E.
  - apply index3_eqb_eq in E; subst. lra.
  - lra.
Qed.

Lemma splat_sample_shift (D : Z) (s : sample) (V counts : tensor3) :
  splat_sample D (V, counts) s =
  (shift V (spec_dV D [s]), shift counts (spec_dC D [s])).
Proof.
  unfold splat_sample.
  change (splat_corner D s) with
    (fun (st : tensor3 * tensor3) (c : choice) =>
       (accum (fst st) (voxel_of (Z.quot D 2) (corner_of c (fst s)))
              (spec_weight (corner_of c (fst s)) (fst s) * snd s),
        accum (snd st) (voxel_of (Z.quot D 2) (corner_of c (fst s)))
              (spec_weight (corner_of c (fst s)) (fst s)))).
  rewrite (fold_left_pair
             (fun T c => accum T (voxel_of (Z.quot D 2) (corner_of c (fst s)))
                               (spec_weight (corner_of c (fst s)) (fst s) * snd s))
             (fun T c => accum T (voxel_of (Z.quot D 2) (corner_of c (fst s)))
                               (spec_weight (corner_of c (fst s)) (fst s)))).
  f_equal; apply tensor3_ext.
  - rewrite fold_accum_side. reflexivity.
  - intros k. rewrite fold_accum_at. unfold spec_dV. simpl. lra.
  - rewrite fold_accum_side. reflexivity.
  - intros k. rewrite fold_accum_at. unfold spec_dC. simpl. lra.
Qed.

Lemma splat_spec_shift (D : Z) (samples : list sample) (V counts : tensor3) :
  splat_spec D samples (V, counts) =
  (shift V (spec_dV D samples), shift counts (spec_dC D samples)).
Proof.
  unfold splat_spec. revert V counts.
  induction samples as [|s samples IH]; intros V counts.
  - simpl. unfold spec_dV, spec_dC. simpl. now rewrite !shift_zero.
  - cbn [fold_left]. rewrite splat_sample_shift, IH, !shift_shift.
    f_equal; apply shift_ext; intros k; unfold spec_dV, spec_dC;
      apply Rsum_map_single_cons.
Qed.

Lemma in_cube_index3_ok (n : Z) (k : index3) :
  in_cube n k = true -> index3_ok n k = true /\ wrap3 n k = k.
Proof.
  destruct k as [[a b] c]. unfold in_cube, index3_ok, wrap3, index_ok, wrap.
  intros H. rewrite !andb_true_iff, !Z.leb_le, !Z.ltb_lt in H.
  assert (Ha : (a <? 0)%Z = false) by (apply Z.ltb_ge; lia).
  assert (Hb : (b <? 0)%Z = false) by (apply Z.ltb_ge; lia).
  assert (Hc : (c <? 0)%Z = false) by (apply Z.ltb_ge; lia).
  rewrite Ha, Hb, Hc. split; [|reflexivity].
  rewrite !andb_true_iff, !Z.leb_le, !Z.ltb_lt. lia.
Qed.

(** When every corner lies in the volume and no two samples share a voxel
    within one corner pass, the code is the splat of the specification. *)
Lemma add_slice_refines_spec (D : Z) (V counts : tensor3) (samples : list sample) :
  side V = D -> side counts = D ->
  (forall s c, In s samples -> In c corner_order ->
     in_cube D (voxel_of (Z.quot D 2) (corner_of c (fst s))) = true) ->
  (forall c, In c corner_order ->
     NoDup (map (fun s => voxel_of (Z.quot D 2) (corner_of c (fst s))) samples)) ->
  add_slice V counts samples D = Ok (splat_spec D samples (V, counts)).
Proof.
  intros HV HC Hin Hnd.
  assert (Htarget : forall s c, In s samples -> In c corner_order ->
            target D (Z.quot D 2) c (fst s) =
            voxel_of (Z.quot D 2) (corner_of c (fst s))).
  { intros s c Hs Hc. unfold target. apply in_cube_index3_ok. now apply Hin. }
  assert (Hnd' : forall c, In c corner_order ->
            NoDup (map (fun s => target D (Z.quot D 2) c (fst s)) samples)).
  { intros c Hc. rewrite (map_ext_in _ (fun s => voxel_of (Z.quot D 2) (corner_of c (fst s)))).
    - now apply Hnd.
    - intros s Hs. now apply Htarget. }
  rewrite (add_slice_spec D) by assumption.
  assert (Hok : slice_ok D D samples = true).
  { apply slice_ok_true_iff. intros s c Hs Hc. apply in_cube_index3_ok. now apply Hin. }
  rewrite Hok, splat_spec_shift. f_equal. f_equal; apply shift_ext; intros k.
  - unfold slice_dV, spec_dV. rewrite <- Rsum_swap. apply Rsum_ext. intros c Hc.
    unfold pass_dV. rewrite delta_of_nodup by (rewrite map_map; now apply Hnd').
    rewrite map_map. apply Rsum_ext. intros s Hs. cbn [fst snd].
    rewrite Htarget, corner_weight_spec by assumption. reflexivity.
  - unfold slice_dC, spec_dC. rewrite <- Rsum_swap. apply Rsum_ext. intros c Hc.
    unfold pass_dC. rewrite delta_of_nodup by (rewrite map_map; now apply Hnd').
    rewrite map_map. apply Rsum_ext. intros s Hs. cbn [fst snd].
    rewrite Htarget, corner_weight_spec by assumption. reflexivity.
Qed.

(** C3 (amended).  The weight of corner [c] for sample point [p] is
    [max(0, 1 - ||c - p||)].  On volumes of side [D], when every corner index
    [c + D/2] of every sample lies in [0, D) and no two samples of the call
    address the same voxel within one corner pass, [add_slice] performs
    exactly the updates [V[c + D/2] += w * v] and [counts[c + D/2] += w] for
    every sample and each of its 8 corners. *)
Theorem add_slice_performs_updates (D : Z) (V counts : tensor3) (samples : list sample) :
  side V = D -> side counts = D ->
  (forall s c, In s samples -> In c corner_order ->
     in_cube D (voxel_of (Z.quot D 2) (corner_of c (fst s))) = true) ->
  (forall c, In c corner_order ->
     NoDup (map (fun s => voxel_of (Z.quot D 2) (corner_of c (fst s))) samples)) ->
  (forall s c, In s samples -> In c corner_order ->
     corner_weight (corner_of c (fst s)) (fst s) =
     spec_weight (corner_of c (fst s)) (fst s)) /\
  add_slice V counts samples D = Ok (splat_spec D samples (V, counts)).
Proof.
  intros HV HC Hin Hnd. split.
  - intros s c _ _. apply corner_weight_spec.
  - now apply add_slice_refines_spec.
Qed.

Lemma add_slice_performs_updates_witness :
  (forall s c, In s [((IZR 0, IZR 0, IZR 0), 2); ((IZR 1, IZR 0, IZR 0), 5)] ->
     In c corner_order ->
     corner_weight (corner_of c (fst s)) (fst s) =
     spec_weight (corner_of c (fst s)) (fst s)) /\
  add_slice (zeros 3) (zeros 3)
    [((IZR 0, IZR 0, IZR 0), 2); ((IZR 1, IZR 0, IZR 0), 5)] 3 =
  Ok (splat_spec 3 [((IZR 0, IZR 0, IZR 0), 2); ((IZR 1, IZR 0, IZR 0), 5)]
        (zeros 3, zeros 3)).
Proof.
  apply (add_slice_performs_updates 3 (zeros 3) (zeros 3)).
  - reflexivity.
  - reflexivity.
  - intros s c [<- | [<- | []]] _; cbn [fst]; rewrite corner_of_vertex; reflexivity.
  - intros c _. cbn [map fst]. rewrite !corner_of_vertex.
    apply NoDup_cons; [|apply NoDup_cons; [intros [] | apply NoDup_nil]].
    intros [H | []]. discriminate H.
Defined.

(** C3 as stated fails.  With [D = 3], two samples at the origin address the
    same voxel in every pass and only one increment of each pass is kept
    ([counts] gets 8 at the centre where the rule gives 16); and the sample
    at (2, 0, 0) has an index outside [0, 3), so the call raises and
    performs no update. *)
Lemma spec_updates_fail :
  ~ performs_spec_updates 3 (zeros 3) (zeros 3)
      [((IZR 0, IZR 0, IZR 0), 1); ((IZR 0, IZR 0, IZR 0), 1)] /\
  ~ performs_spec_updates 3 (zeros 3) (zeros 3) [((IZR 2, IZR 0, IZR 0), 1)].
Proof.
  unfold performs_spec_updates. split.
  - rewrite (add_slice_spec 3) by reflexivity.
    replace (slice_ok 3 3 [((IZR 0, IZR 0, IZR 0), 1); ((IZR 0, IZR 0, IZR 0), 1)])
      with true
      by (unfold slice_ok, corner_order; cbn [forallb fst];
          now rewrite !corner_of_vertex).
    rewrite splat_spec_shift. intros H.
    pose proof (f_equal (fun r : result (tensor3 * tensor3) =>
                           match r with
                           | Ok st => at3 (snd st) (1, 1, 1)%Z
                           | Raise _ => 0
                           end) H) as Hc.
    cbn [snd] in Hc.
    clear H. revert Hc. cbn [at3 shift zeros].
    unfold slice_dC, spec_dC, pass_dC, target, delta_of, corner_order.
    cbn [map fst snd last_write Rsum fold_right].
    rewrite <- !corner_weight_spec, !corner_of_vertex, !corner_weight_vertex.
    simpl. lra.
  - rewrite (add_slice_spec 3) by reflexivity.
    replace (slice_ok 3 3 [((IZR 2, IZR 0, IZR 0), 1)]) with false
      by (unfold slice_ok, corner_order; cbn [forallb fst];
          now rewrite !corner_of_vertex).
    discriminate.
Qed.

(** ** Paired increments *)

Lemma last_write_paired {X : Type} (key : X -> index3) (f g : X -> R)
    (l : list X) (k : index3) :
  (exists s, In s l /\ key s = k /\
     last_write (map (fun s => (key s, f s)) l) k = Some (f s) /\
     last_write (map (fun s => (key s, g s)) l) k = Some (g s)) \/
  ((forall s, In s l -> key s <> k) /\
   last_write (map (fun s => (key s, f s)) l) k = None /\
   last_write (map (fun s => (key s, g s)) l) k = None).
Proof.
  induction l as [|a l IH]; simpl.
  - right. repeat split; intros s [].
  - destruct IH as [(s & Hs & Hk & Hf & Hg) | (Hmiss & Hf & Hg)].
    + left. exists s. rewrite Hf, Hg. auto.
    + rewrite Hf, Hg. destruct (index3_eqb k (key a)) eqn:E.
      * apply index3_eqb_eq in E. left. exists a. auto.
      * right. repeat split; try reflexivity.
        intros s [<- | Hs]; [|now apply Hmiss].
        intros Heq. rewrite Heq, index3_eqb_refl in E. discriminate.
Qed.

(** C8.  The eight corner updates of [add_slice] are the calls
    [corner_pass ... c] for the corners [c] of [corner_order].  In each of
    them, at every voxel [k], either no sample addresses [k] and both [V] and
    [counts] keep their entry, or there is one sample [(p, v)] addressing [k]
    whose weight [w] is what [counts] gains at [k] while [V] gains [w * v]
    at the same [k]. *)
Theorem paired_increment (samples : list sample) (D : Z) (c : choice)
    (V counts V' counts' : tensor3) :
  side counts = side V ->
  corner_pass samples (Z.quot D 2) c (V, counts) = Ok (V', counts') ->
  add_slice V counts samples D =
    run_passes samples (Z.quot D 2) corner_order (V, counts) /\
  forall k,
    (exists s, In s samples /\ target (side V) (Z.quot D 2) c (fst s) = k /\
       at3 counts' k = at3 counts k + corner_weight (corner_of c (fst s)) (fst s) /\
       at3 V' k = at3 V k + corner_weight (corner_of c (fst s)) (fst s) * snd s) \/
    ((forall s, In s samples -> target (side V) (Z.quot D 2) c (fst s) <> k) /\
     at3 counts' k = at3 counts k /\ at3 V' k = at3 V k).
Proof.
  intros Hside Hrun. split; [reflexivity|]. intros k.
  unfold corner_pass in Hrun. rewrite add_for_corner_spec in Hrun by exact Hside.
  destruct (pass_ok (side V) (Z.quot D 2) c samples); [|discriminate].
  inversion Hrun; subst; clear Hrun. cbn [at3 shift].
  unfold pass_dV, pass_dC, delta_of.
  destruct (last_write_paired (X := (coord * R)%type)
              (fun s => target (side V) (Z.quot D 2) c (fst s))
              (fun s => corner_weight (corner_of c (fst s)) (fst s) * snd s)
              (fun s => corner_weight (corner_of c (fst s)) (fst s))
              samples k) as [(s & Hs & Hk & Hf & Hg) | (Hmiss & Hf & Hg)].
  - left. exists s. rewrite Hf, Hg. auto.
  - right. rewrite Hf, Hg. repeat split; [exact Hmiss | lra | lra].
Qed.

Lemma paired_increment_witness :
  add_slice (zeros 3) (zeros 3) [((IZR 0, IZR 0, IZR 0), 2)] 3 =
    run_passes [((IZR 0, IZR 0, IZR 0), 2)] (Z.quot 3 2) corner_order
      (zeros 3, zeros 3) /\
  forall k,
    (exists s, In s [((IZR 0, IZR 0, IZR 0), 2)] /\
       target (side (zeros 3)) (Z.quot 3 2) (Floor, Floor, Floor) (fst s) = k /\
       at3 (shift (zeros 3)
              (pass_dC 3 (Z.quot 3 2) (Floor, Floor, Floor) [((IZR 0, IZR 0, IZR 0), 2)])) k =
         at3 (zeros 3) k +
         corner_weight (corner_of (Floor, Floor, Floor) (fst s)) (fst s) /\
       at3 (shift (zeros 3)
              (pass_dV 3 (Z.quot 3 2) (Floor, Floor, Floor) [((IZR 0, IZR 0, IZR 0), 2)])) k =
         at3 (zeros 3) k +
         corner_weight (corner_of (Floor, Floor, Floor) (fst s)) (fst s) * snd s) \/
    ((forall s, In s [((IZR 0, IZR 0, IZR 0), 2)] ->
        target (side (zeros 3)) (Z.quot 3 2) (Floor, Floor, Floor) (fst s) <> k) /\
     at3 (shift (zeros 3)
            (pass_dC 3 (Z.quot 3 2) (Floor, Floor, Floor) [((IZR 0, IZR 0, IZR 0), 2)])) k =
       at3 (zeros 3) k /\
     at3 (shift (zeros 3)
            (pass_dV 3 (Z.quot 3 2) (Floor, Floor, Floor) [((IZR 0, IZR 0, IZR 0), 2)])) k =
       at3 (zeros 3) k).
Proof.
  apply (paired_increment [((IZR 0, IZR 0, IZR 0), 2)] 3 (Floor, Floor, Floor)
           (zeros 3) (zeros 3)).
  - reflexivity.
  - unfold corner_pass. rewrite add_for_corner_spec by reflexivity.
    unfold pass_ok. cbn [forallb fst side zeros]. rewrite corner_of_vertex. reflexivity.
Defined.

(** ** Non-negative weights *)

Lemma corner_weight_nonneg (c : Z * Z * Z) (p : coord) : 0 <= corner_weight c p.
Proof.
  destruct c as [[xi yi] zi]. unfold corner_weight. cbv zeta.
  destruct (Rlt_dec _ 0); lra.
Qed.

Lemma map2_corner_weight_nonneg (cs : list (Z * Z * Z)) (ps : list coord) (x : R) :
  In x (map2 corner_weight cs ps) -> 0 <= x.
Proof.
  revert ps; induction cs as [|c cs IH]; intros [|p ps]; simpl; try contradiction.
  intros [<- | H]; [apply corner_weight_nonneg | now apply (IH ps)].
Qed.

Lemma delta_of_nonneg (l : list (index3 * R)) (k : index3) :
  (forall row, In row l -> 0 <= snd row) -> 0 <= delta_of l k.
Proof.
  intros H. unfold delta_of. destruct (last_write l k) as [y|] eqn:E; [|lra].
  apply last_write_hit in E. apply (H (k, y) E).
Qed.

(** A corner pass never lowers an entry of [counts], whatever the index
    vectors are. *)
Lemma add_for_corner_counts_mono (ff_coord : list coord) (ff : list R) (d2 : Z)
    (xi yi zi : list Z) (V counts V' counts' : tensor3) :
  add_for_corner ff_coord ff d2 xi yi zi (V, counts) = Ok (V', counts') ->
  forall k, at3 counts k <= at3 counts' k.
Proof.
  unfold add_for_corner. rewrite !iadd_at_spec.
  destruct (forallb (index3_ok (side V)) _); [|discriminate]. cbn [bind].
  destruct (forallb (index3_ok (side counts)) _); [|discriminate]. cbn [bind].
  intros H k. inversion H; subst; clear H. cbn [at3 shift].
  match goal with |- _ <= _ + delta_of ?l k =>
    assert (0 <= delta_of l k); [|lra] end.
  apply delta_of_nonneg. intros [i x] Hrow. apply in_combine_r in Hrow.
  simpl. now apply map2_corner_weight_nonneg in Hrow.
Qed.

Lemma run_passes_counts_mono (samples : list sample) (d2 : Z) (cs : list choice)
    (st st' : tensor3 * tensor3) :
  run_passes samples d2 cs st = Ok st' ->
  forall k, at3 (snd st) k <= at3 (snd st') k.
Proof.
  revert st; induction cs as [|c cs IH]; intros st H k; simpl in H.
  - inversion H; subst. lra.
  - destruct (corner_pass samples d2 c st) as [st1|e] eqn:E; [|discriminate].
    cbn [bind] in H. specialize (IH st1 H k).
    destruct st as [V counts], st1 as [V1 c1]. unfold corner_pass in E.
    pose proof (add_for_corner_counts_mono _ _ _ _ _ _ _ _ _ _ E k). simpl in *. lra.
Qed.

Lemma add_slice_counts_mono (V counts : tensor3) (samples : list sample) (D : Z)
    (V' counts' : tensor3) :
  add_slice V counts samples D = Ok (V', counts') ->
  forall k, at3 counts k <= at3 counts' k.
Proof.
  rewrite add_slice_passes. intros H k.
  apply (run_passes_counts_mono _ _ _ _ _ H k).
Qed.

Lemma splat_all_counts_mono (D : Z) (slices : list (list sample))
    (st st' : tensor3 * tensor3) :
  splat_all D slices st = Ok st' ->
  forall k, at3 (snd st) k <= at3 (snd st') k.
Proof.
  revert st; induction slices as [|samples slices IH]; intros st H k; simpl in H.
  - inversion H; subst. lra.
  - destruct (add_slice (fst st) (snd st) samples D) as [[V1 c1]|e] eqn:E;
      [|discriminate].
    cbn [bind] in H. specialize (IH _ H k).
    pose proof (add_slice_counts_mono _ _ _ _ _ _ E k). simpl in *. lra.
Qed.

(** C9.  Every weight of the splat is non-negative.  Hence, after any
    sequence of [add_slice] calls that starts from zero-initialized counts,
    every entry of [counts] is non-negative; it stays so after each corner
    pass of a further call, and the further call lowers no entry. *)
Theorem counts_nonneg_nondecreasing (D : Z) (slices : list (list sample))
    (V0 V counts : tensor3) (samples : list sample) (V' counts' : tensor3) :
  splat_all D slices (V0, zeros D) = Ok (V, counts) ->
  add_slice V counts samples D = Ok (V', counts') ->
  (forall c p, 0 <= corner_weight c p) /\
  (forall k, 0 <= at3 counts k) /\
  (forall n V1 c1,
      run_passes samples (Z.quot D 2) (firstn n corner_order) (V, counts)
        = Ok (V1, c1) ->
      forall k, 0 <= at3 c1 k) /\
  (forall k, at3 counts k <= at3 counts' k).
Proof.
  intros Hseq Hcall.
  assert (Hpos : forall k, 0 <= at3 counts k).
  { intros k. pose proof (splat_all_counts_mono _ _ _ _ Hseq k) as H. simpl in H. exact H. }
  split; [exact corner_weight_nonneg|]. split; [exact Hpos|]. split.
  - intros n V1 c1 Hpass k.
    pose proof (run_passes_counts_mono _ _ _ _ _ Hpass k) as H. simpl in H.
    specialize (Hpos k). lra.
  - exact (add_slice_counts_mono _ _ _ _ _ _ Hcall).
Qed.

Lemma counts_nonneg_nondecreasing_witness :
  (forall c p, 0 <= corner_weight c p) /\
  (forall k, 0 <= at3 (shift (zeros 3)
                         (fun k => if index3_eqb k (1, 1, 1)%Z then 8 else 0)) k) /\
  (forall n V1 c1,
      run_passes [((IZR 1, IZR 0, IZR 0), 5)] (Z.quot 3 2) (firstn n corner_order)
        (shift (zeros 3) (fun k => if index3_eqb k (1, 1, 1)%Z then 8 * 2 else 0),
         shift (zeros 3) (fun k => if index3_eqb k (1, 1, 1)%Z then 8 else 0))
        = Ok (V1, c1) ->
      forall k, 0 <= at3 c1 k) /\
  (forall k,
      at3 (shift (zeros 3) (fun k => if index3_eqb k (1, 1, 1)%Z then 8 else 0)) k <=
      at3 (shift (shift (zeros 3) (fun k => if index3_eqb k (1, 1, 1)%Z then 8 else 0))
                 (fun k => if index3_eqb k (1, 1, 2)%Z then 8 else 0)) k).
Proof.
  apply (counts_nonneg_nondecreasing 3 [[((IZR 0, IZR 0, IZR 0), 2)]] (zeros 3)
           (shift (zeros 3) (fun k => if index3_eqb k (1, 1, 1)%Z then 8 * 2 else 0))
           (shift (zeros 3) (fun k => if index3_eqb k (1, 1, 1)%Z then 8 else 0))
           [((IZR 1, IZR 0, IZR 0), 5)]
           (shift (shift (zeros 3) (fun k => if index3_eqb k (1, 1, 1)%Z then 8 * 2 else 0))
                  (fun k => if index3_eqb k (1, 1, 2)%Z then 8 * 5 else 0))).
  - cbn [splat_all fst snd].
    rewrite (vertex_sample_spec 3 0 0 0 2 (zeros 3) (zeros 3)) by reflexivity.
    reflexivity.
  - apply (vertex_sample_spec 3 1 0 0 5); reflexivity.
Defined.

(** ** The loop as a sum of increments *)

Lemma dplus_zero_l (a : deltas) : dplus dzero a = a.
Proof.
  destruct a as [f g]. unfold dplus, dzero; simpl.
  f_equal; apply functional_extensionality; intros k; lra.
Qed.

Lemma dplus_comm (a b : deltas) : dplus a b = dplus b a.
Proof. unfold dplus. f_equal; apply functional_extensionality; intros k; lra. Qed.

Lemma dplus_assoc (a b c : deltas) : dplus a (dplus b c) = dplus (dplus a b) c.
Proof. unfold dplus; simpl. f_equal; apply functional_extensionality; intros k; lra. Qed.

Lemma oplus_comm (a b : option deltas) : oplus a b = oplus b a.
Proof. destruct a, b; simpl; try reflexivity. now rewrite dplus_comm. Qed.

Lemma oplus_assoc (a b c : option deltas) :
  oplus a (oplus b c) = oplus (oplus a b) c.
Proof. destruct a, b, c; simpl; try reflexivity. now rewrite dplus_assoc. Qed.

Lemma splat_all_delta (D : Z) (slices : list (list sample)) (V counts : tensor3) :
  side V = D -> side counts = D ->
  splat_all D slices (V, counts) =
  match slices_delta D slices with
  | Some d => Ok (shift V (fst d), shift counts (snd d))
  | None => Raise IndexError
  end.
Proof.
  revert V counts; induction slices as [|samples slices IH]; intros V counts HV HC.
  - simpl. now rewrite !shift_zero.
  - cbn [splat_all slices_delta fst snd]. rewrite (add_slice_spec D) by assumption.
    destruct (slice_ok D D samples); cbn [bind oplus]; [|reflexivity].
    rewrite IH by (simpl; assumption).
    destruct (slices_delta D slices) as [d|]; [|reflexivity].
    cbn [dplus fst snd]. now rewrite !shift_shift.
Qed.

Lemma loop_body_slices (w : World) (lc : Locals) (ii : Z) (st r : tensor3 * tensor3) :
  loop_body w lc ii st = Ok r <->
  exists slices, image_slices w lc ii = Ok slices /\
                 splat_all (l_D lc) slices st = Ok r.
Proof.
  unfold loop_body, image_slices. destruct st as [V counts].
  destruct (l_get_pose lc ii) as [rot t].
  destruct (fetch lc ii) as [ff|e]; cbn [bind];
    [|split; [discriminate | intros (s & H & _); discriminate]].
  destruct (correct_primary w lc ii (fst ff) t) as [[ff3 c]|e]; cbn [bind];
    [|split; [discriminate | intros (s & H & _); discriminate]].
  destruct (place lc (fun p => vecmat p rot) ff3) as [rows|e]; cbn [bind];
    [|split; [discriminate | intros (s & H & _); discriminate]].
  assert (Hone : forall res,
            (st1 <- add_slice V counts rows (l_D lc) ;; Ok st1) = Ok res <->
            exists slices, Ok [rows] = Ok slices /\
                           splat_all (l_D lc) slices (V, counts) = Ok res).
  { intros res. split.
    - intros H. exists [rows]. split; [reflexivity|]. exact H.
    - intros (s & Hs & H). inversion Hs; subst. exact H. }
  destruct (l_tilt lc) as [tilt|]; [|apply Hone].
  destruct (snd ff) as [ft|]; [|apply Hone].
  destruct (correct_tilt lc ft c t) as [ft2|e]; cbn [bind].
  2:{ split; [|intros (s & H & _); discriminate].
      destruct (add_slice V counts rows (l_D lc)); cbn [bind]; discriminate. }
  destruct (place lc (fun p => vecmat (vecmat p tilt) rot) ft2) as [rows2|e]; cbn [bind].
  2:{ split; [|intros (s & H & _); discriminate].
      destruct (add_slice V counts rows (l_D lc)); cbn [bind]; discriminate. }
  split.
  - intros H. exists [rows; rows2]. split; [reflexivity|].
    cbn [splat_all fst snd].
    destruct (add_slice V counts rows (l_D lc)) as [st1|e]; cbn [bind] in *;
      [|discriminate].
    destruct (add_slice (fst st1) (snd st1) rows2 (l_D lc)); cbn [bind];
      [exact H | discriminate].
  - intros (s & Hs & H). inversion Hs; subst. cbn [splat_all fst snd] in H.
    destruct (add_slice V counts rows (l_D lc)) as [st1|e]; cbn [bind] in *;
      [|discriminate].
    destruct (add_slice (fst st1) (snd st1) rows2 (l_D lc)); cbn [bind] in *;
      [exact H | discriminate].
Qed.

Lemma loop_body_delta (w : World) (lc : Locals) (ii : Z) (V counts : tensor3)
    (r : tensor3 * tensor3) :
  side V = l_D lc -> side counts = l_D lc ->
  (loop_body w lc ii (V, counts) = Ok r <->
   exists d, image_delta w lc ii = Some d /\
             r = (shift V (fst d), shift counts (snd d))).
Proof.
  intros HV HC. rewrite loop_body_slices. unfold image_delta. split.
  - intros (slices & Hs & Hrun). rewrite Hs.
    rewrite splat_all_delta in Hrun by assumption.
    destruct (slices_delta (l_D lc) slices) as [d|]; [|discriminate].
    exists d. split; [reflexivity|]. now inversion Hrun.
  - intros (d & Hd & ->).
    destruct (image_slices w lc ii) as [slices|e]; [|discriminate].
    exists slices. split; [reflexivity|].
    rewrite splat_all_delta by assumption. now rewrite Hd.
Qed.

Lemma accumulate_delta (w : World) (lc : Locals) (iterator : list Z)
    (V counts : tensor3) (r : tensor3 * tensor3) :
  side V = l_D lc -> side counts = l_D lc ->
  (accumulate w lc iterator (V, counts) = Ok r <->
   exists d, run_delta w lc iterator = Some d /\
             r = (shift V (fst d), shift counts (snd d))).
Proof.
  revert V counts r; induction iterator as [|ii rest IH]; intros V counts r HV HC.
  - simpl. split.
    + intros H. exists dzero. split; [reflexivity|].
      inversion H; subst. simpl. now rewrite !shift_zero.
    + intros (d & Hd & ->). inversion Hd; subst. simpl. now rewrite !shift_zero.
  - cbn [accumulate run_delta]. split.
    + intros H.
      destruct (loop_body w lc ii (V, counts)) as [[V1 c1]|e] eqn:E; [|discriminate].
      cbn [bind] in H.
      apply (loop_body_delta w lc ii V counts (V1, c1) HV HC) in E.
      destruct E as (d1 & Hd1 & E1). inversion E1; subst; clear E1.
      apply IH in H; [|simpl; assumption|simpl; assumption].
      destruct H as (d2 & Hd2 & ->).
      exists (dplus d1 d2). rewrite Hd1, Hd2. split; [reflexivity|].
      cbn [dplus fst snd]. now rewrite !shift_shift.
    + intros (d & Hd & ->).
      destruct (image_delta w lc ii) as [d1|] eqn:E1; [|discriminate].
      destruct (run_delta w lc rest) as [d2|] eqn:E2; [|discriminate].
      inversion Hd; subst; clear Hd.
      assert (E : loop_body w lc ii (V, counts) =
                  Ok (shift V (fst d1), shift counts (snd d1))).
      { apply loop_body_delta; try assumption. exists d1. now split. }
      rewrite E. cbn [bind]. apply IH; [simpl; assumption | simpl; assumption |].
      exists d2. split; [reflexivity|].
      cbn [dplus fst snd]. now rewrite !shift_shift.
Qed.

Lemma run_delta_app (w : World) (lc : Locals) (l1 l2 : list Z) :
  run_delta w lc (l1 ++ l2) = oplus (run_delta w lc l1) (run_delta w lc l2).
Proof.
  induction l1 as [|ii l1 IH]; simpl.
  - destruct (run_delta w lc l2) as [d|]; simpl; [|reflexivity].
    now rewrite dplus_zero_l.
  - now rewrite IH, oplus_assoc.
Qed.

Lemma run_delta_perm (w : World) (lc : Locals) (l l' : list Z) :
  Permutation l l' -> run_delta w lc l = run_delta w lc l'.
Proof.
  induction 1 as [|x l l' _ IH|x y l|l l' l'' _ IH1 _ IH2]; simpl.
  - reflexivity.
  - now rewrite IH.
  - rewrite !oplus_assoc. f_equal. apply oplus_comm.
  - now rewrite IH1.
Qed.

Lemma shift_zeros_add (D : Z) (a b : index3 -> R) :
  shift (zeros D) (fun k => a k + b k) =
  tensor_add (shift (zeros D) a) (shift (zeros D) b).
Proof. apply tensor3_ext; simpl; [reflexivity | intros k; lra]. Qed.

(** C7.  Let [l] be the images of a run and [l1], [l2] any split of them
    into two parts.  The one-pass run over [l] from zero volumes succeeds
    with [(V, counts)] exactly when the runs over [l1] and over [l2], each
    from its own zero volumes, succeed and their results sum, entry by
    entry, to [(V, counts)]; and processing [l] in any other order [l']
    gives the same result. *)
Theorem accumulation_additive_order_independent (w : World) (lc : Locals)
    (l l1 l2 l' : list Z) :
  Permutation l (l1 ++ l2) ->
  Permutation l l' ->
  (forall V counts,
      accumulate w lc l (zeros (l_D lc), zeros (l_D lc)) = Ok (V, counts) <->
      exists V1 c1 V2 c2,
        accumulate w lc l1 (zeros (l_D lc), zeros (l_D lc)) = Ok (V1, c1) /\
        accumulate w lc l2 (zeros (l_D lc), zeros (l_D lc)) = Ok (V2, c2) /\
        V = tensor_add V1 V2 /\ counts = tensor_add c1 c2) /\
  (forall r,
      accumulate w lc l (zeros (l_D lc), zeros (l_D lc)) = Ok r <->
      accumulate w lc l' (zeros (l_D lc), zeros (l_D lc)) = Ok r).
Proof.
  intros Hsplit Hperm. split.
  - intros V counts. rewrite !accumulate_delta by reflexivity.
    rewrite (run_delta_perm w lc _ _ Hsplit), run_delta_app. split.
    + intros (d & Hd & E).
      destruct (run_delta w lc l1) as [d1|] eqn:E1; [|discriminate].
      destruct (run_delta w lc l2) as [d2|] eqn:E2; [|discriminate].
      inversion Hd; subst d; clear Hd. inversion E; subst; clear E.
      exists (shift (zeros (l_D lc)) (fst d1)), (shift (zeros (l_D lc)) (snd d1)),
             (shift (zeros (l_D lc)) (fst d2)), (shift (zeros (l_D lc)) (snd d2)).
      split; [apply accumulate_delta; [reflexivity | reflexivity |];
              exists d1; now rewrite E1|].
      split; [apply accumulate_delta; [reflexivity | reflexivity |];
              exists d2; now rewrite E2|].
      cbn [dplus fst snd]. split; apply shift_zeros_add.
    + intros (V1 & c1 & V2 & c2 & H1 & H2 & -> & ->).
      apply accumulate_delta in H1; [|reflexivity|reflexivity].
      apply accumulate_delta in H2; [|reflexivity|reflexivity].
      destruct H1 as (d1 & -> & E1). destruct H2 as (d2 & -> & E2).
      inversion E1; subst; clear E1. inversion E2; subst; clear E2.
      exists (dplus d1 d2). split; [reflexivity|].
      cbn [dplus fst snd]. now rewrite !shift_zeros_add.
  - intros r. rewrite !accumulate_delta by reflexivity.
    now rewrite (run_delta_perm w lc _ _ Hperm).
Qed.

(** ** The driver *)

(** C10.  When the output path does not end in ".mrc", [main] raises
    [AssertionError] at once: the trace is left as it was, so no directory
    is made, nothing is loaded, no volume is allocated and nothing is
    accumulated. *)
Theorem main_rejects_output_path (w : World) (a : args.t) (tr : list event) :
  endswith (args.o a) ".mrc" = false ->
  main w a tr = (tr, Raise AssertionError).
Proof.
  intros H. unfold main, io_bind, assert_, lift. rewrite H. reflexivity.
Qed.

Lemma main_rejects_output_path_witness :
  main demo_world (demo_args false "vol.map") [] = ([], Raise AssertionError).
Proof.
  apply (main_rejects_output_path demo_world (demo_args false "vol.map") []).
  reflexivity.
Defined.

Lemma fetch_tilt_series (lc : Locals) (ii : Z) :
  args.do_tilt_series (l_args lc) = true ->
  fetch lc ii = Raise (NameError "index").
Proof. intros H. unfold fetch. rewrite H. reflexivity. Qed.

(** C4 (what the code does).  In tilt-series mode the loop never loads the
    data of image [ii]: line 211 reads the name [index], which is bound
    nowhere, and the first iteration raises [NameError]. *)
Theorem tilt_series_loop_raises (w : World) (lc : Locals) (ii : Z) (rest : list Z)
    (st : tensor3 * tensor3) :
  args.do_tilt_series (l_args lc) = true ->
  fetch lc ii = Raise (NameError "index") /\
  accumulate w lc (ii :: rest) st = Raise (NameError "index").
Proof.
  intros H. split; [now apply fetch_tilt_series|].
  cbn [accumulate]. unfold loop_body. destruct st as [V counts].
  destruct (l_get_pose lc ii) as [r t].
  rewrite fetch_tilt_series by exact H. reflexivity.
Qed.

Lemma tilt_series_loop_raises_witness :
  fetch (demo_locals true) 0 = Raise (NameError "index") /\
  accumulate demo_world (demo_locals true) [0%Z; 1%Z] (zeros 5, zeros 5) =
    Raise (NameError "index").
Proof.
  apply (tilt_series_loop_raises demo_world (demo_locals true) 0 [1%Z]).
  reflexivity.
Defined.

(** ** The small run, evaluated *)

Lemma vecmat_identity (p : coord) : vecmat p identity3 = p.
Proof.
  destruct p as [[x y] z]. unfold vecmat, identity3, cx, cy, cz; simpl.
  f_equal; [f_equal|]; ring.
Qed.

Lemma demo_image_slices (ii : Z) :
  image_slices demo_world (demo_locals false) ii = Ok [demo_rows ii].
Proof.
  unfold image_slices, demo_locals, fetch, correct_primary, place, select, rows_of.
  cbn -[vecmat IZR Z.add]. rewrite !vecmat_identity. reflexivity.
Qed.

Lemma demo_slice_ok (ii : Z) : slice_ok 5 5 (demo_rows ii) = true.
Proof.
  unfold slice_ok, corner_order, demo_rows. cbn [forallb fst].
  now rewrite !corner_of_vertex.
Qed.

Lemma demo_run_delta :
  run_delta demo_world (demo_locals false) [0%Z; 1%Z] = Some demo_delta.
Proof.
  cbn [run_delta]. unfold image_delta. rewrite !demo_image_slices.
  cbn [slices_delta l_D demo_locals]. rewrite !demo_slice_ok. reflexivity.
Qed.

Lemma demo_accumulate :
  accumulate demo_world (demo_locals false) [0%Z; 1%Z] (zeros 5, zeros 5) =
  Ok (shift (zeros 5) (fst demo_delta), shift (zeros 5) (snd demo_delta)).
Proof.
  apply (accumulate_delta demo_world (demo_locals false)); [reflexivity | reflexivity |].
  exists demo_delta. split; [apply demo_run_delta | reflexivity].
Qed.

(** The run leaves weight 16 on each of the two addressed voxels, and the
    sums [8 * (1 + 2)] and [8 * (2 + 2)] of the weighted values. *)
Lemma demo_accumulate_values :
  snd demo_delta (2, 2, 2)%Z = 16 /\ fst demo_delta (2, 2, 2)%Z = 24 /\
  snd demo_delta (2, 2, 3)%Z = 16 /\ fst demo_delta (2, 2, 3)%Z = 32 /\
  snd demo_delta (0, 0, 0)%Z = 0 /\ fst demo_delta (0, 0, 0)%Z = 0.
Proof.
  unfold demo_delta. cbn [fst snd dplus dzero].
  unfold slice_dV, slice_dC, pass_dV, pass_dC, target, delta_of, corner_order, demo_rows.
  cbn [map fst snd last_write Rsum fold_right].
  rewrite !corner_of_vertex, !corner_weight_vertex.
  cbn. repeat split; lra.
Qed.

Lemma accumulation_additive_order_independent_witness :
  (forall V counts,
      accumulate demo_world (demo_locals false) [0%Z; 1%Z]
        (zeros (l_D (demo_locals false)), zeros (l_D (demo_locals false)))
        = Ok (V, counts) <->
      exists V1 c1 V2 c2,
        accumulate demo_world (demo_locals false) [0%Z]
          (zeros (l_D (demo_locals false)), zeros (l_D (demo_locals false)))
          = Ok (V1, c1) /\
        accumulate demo_world (demo_locals false) [1%Z]
          (zeros (l_D (demo_locals false)), zeros (l_D (demo_locals false)))
          = Ok (V2, c2) /\
        V = tensor_add V1 V2 /\ counts = tensor_add c1 c2) /\
  (forall r,
      accumulate demo_world (demo_locals false) [0%Z; 1%Z]
        (zeros (l_D (demo_locals false)), zeros (l_D (demo_locals false))) = Ok r <->
      accumulate demo_world (demo_locals false) [1%Z; 0%Z]
        (zeros (l_D (demo_locals false)), zeros (l_D (demo_locals false))) = Ok r).
Proof.
  apply (accumulation_additive_order_independent demo_world (demo_locals false)
           [0%Z; 1%Z] [0%Z] [1%Z] [1%Z; 0%Z]).
  - apply Permutation_refl.
  - apply perm_swap.
Defined.

(** ** Zero-weight voxels *)

Lemma slices_delta_miss (D : Z) (slices : list (list sample)) (d : deltas)
    (k : index3) :
  slices_delta D slices = Some d ->
  ~ addressed_by D slices k ->
  fst d k = 0 /\ snd d k = 0.
Proof.
  revert d; induction slices as [|samples slices IH]; intros d Hd Hmiss.
  - inversion Hd; subst. simpl. split; reflexivity.
  - cbn [slices_delta] in Hd.
    destruct (slice_ok D D samples); [|discriminate].
    destruct (slices_delta D slices) as [d'|]; [|discriminate].
    inversion Hd; subst; clear Hd. cbn [dplus fst snd].
    destruct (IH d' eq_refl) as [E1 E2].
    { intros (sl & s & c & Hsl & Hs & Hc & Hk). apply Hmiss.
      exists sl, s, c. repeat split; try assumption. now right. }
    destruct (slice_delta_miss D D samples k) as [E3 E4].
    { intros s c Hs Hc Hk. apply Hmiss.
      exists samples, s, c. repeat split; try assumption. now left. }
    rewrite E1, E2, E3, E4. split; lra.
Qed.

Lemma run_delta_miss (w : World) (lc : Locals) (iterator : list Z) (d : deltas)
    (k : index3) :
  run_delta w lc iterator = Some d ->
  ~ receives_contribution w lc iterator k ->
  fst d k = 0 /\ snd d k = 0.
Proof.
  revert d; induction iterator as [|ii rest IH]; intros d Hd Hmiss.
  - inversion Hd; subst. simpl. split; reflexivity.
  - cbn [run_delta] in Hd.
    destruct (image_delta w lc ii) as [d1|] eqn:E1; [|discriminate].
    destruct (run_delta w lc rest) as [d2|]; [|discriminate].
    inversion Hd; subst; clear Hd. cbn [dplus fst snd].
    destruct (IH d2 eq_refl) as [E2 E3].
    { intros (jj & slices & Hjj & Hsl & Hk). apply Hmiss.
      exists jj, slices. repeat split; try assumption. now right. }
    unfold image_delta in E1.
    destruct (image_slices w lc ii) as [slices|e] eqn:Es; [|discriminate].
    destruct (slices_delta_miss _ _ _ k E1) as [E4 E5].
    { intros Hk. apply Hmiss. exists ii, slices. repeat split; try assumption. now left. }
    rewrite E2, E3, E4, E5. split; lra.
Qed.

Lemma paired_zero : paired dzero.
Proof. intros k; simpl. split; [lra | reflexivity]. Qed.

Lemma paired_plus (a b : deltas) : paired a -> paired b -> paired (dplus a b).
Proof.
  intros Ha Hb k. destruct (Ha k) as [Ha0 Ha1], (Hb k) as [Hb0 Hb1].
  cbn [dplus fst snd]. split; [lra|].
  intros H. rewrite Ha1, Hb1 by lra. lra.
Qed.

Lemma paired_pass (n d2 : Z) (c : choice) (samples : list sample) :
  paired (pass_dV n d2 c samples, pass_dC n d2 c samples).
Proof.
  intros k. cbn [fst snd]. unfold pass_dV, pass_dC, delta_of.
  destruct (last_write_paired (X := (coord * R)%type)
              (fun s => target n d2 c (fst s))
              (fun s => corner_weight (corner_of c (fst s)) (fst s) * snd s)
              (fun s => corner_weight (corner_of c (fst s)) (fst s))
              samples k) as [(s & _ & _ & Hf & Hg) | (_ & Hf & Hg)];
    rewrite Hf, Hg.
  - split; [apply corner_weight_nonneg|]. intros ->. lra.
  - split; [lra | reflexivity].
Qed.

Lemma paired_slice (n D : Z) (samples : list sample) :
  paired (slice_dV n D samples, slice_dC n D samples).
Proof.
  unfold slice_dV, slice_dC.
  induction corner_order as [|c cs IH].
  - apply paired_zero.
  - apply (paired_plus (pass_dV n (Z.quot D 2) c samples,
                        pass_dC n (Z.quot D 2) c samples) _ (paired_pass _ _ _ _) IH).
Qed.

Lemma paired_slices (D : Z) (slices : list (list sample)) (d : deltas) :
  slices_delta D slices = Some d -> paired d.
Proof.
  revert d; induction slices as [|samples slices IH]; intros d Hd.
  - inversion Hd; subst. apply paired_zero.
  - cbn [slices_delta] in Hd.
    destruct (slice_ok D D samples); [|discriminate].
    destruct (slices_delta D slices) as [d'|]; [|discriminate].
    inversion Hd; subst; clear Hd.
    apply paired_plus; [apply paired_slice | now apply IH].
Qed.

Lemma paired_run (w : World) (lc : Locals) (iterator : list Z) (d : deltas) :
  run_delta w lc iterator = Some d -> paired d.
Proof.
  revert d; induction iterator as [|ii rest IH]; intros d Hd.
  - inversion Hd; subst. apply paired_zero.
  - cbn [run_delta] in Hd.
    destruct (image_delta w lc ii) as [d1|] eqn:E1; [|discriminate].
    destruct (run_delta w lc rest) as [d2|]; [|discriminate].
    inversion Hd; subst; clear Hd.
    apply paired_plus; [|now apply IH].
    unfold image_delta in E1.
    destruct (image_slices w lc ii) as [slices|e]; [|discriminate].
    now apply (paired_slices (l_D lc) slices).
Qed.

(** C5.  The terminal step replaces every zero entry of [counts] by 1 and
    then divides [V] by [counts] entry by entry.  After a run from zero
    volumes, a voxel that no image contributed to has [counts = 1] after the
    replacement and [V = 0] before the division, hence density 0; the same
    holds at every voxel whose accumulated weight is zero. *)
Theorem zero_weight_voxels (w : World) (lc : Locals) (iterator : list Z)
    (V counts : tensor3) :
  accumulate w lc iterator (zeros (l_D lc), zeros (l_D lc)) = Ok (V, counts) ->
  (forall k, at3 counts k = 0 -> at3 (snd (normalize V counts)) k = 1) /\
  (forall k, at3 (fst (normalize V counts)) k =
             at3 V k / at3 (snd (normalize V counts)) k) /\
  (forall k, ~ receives_contribution w lc iterator k ->
     at3 (snd (normalize V counts)) k = 1 /\
     at3 V k = 0 /\
     at3 (fst (normalize V counts)) k = 0) /\
  (forall k, at3 counts k = 0 ->
     at3 V k = 0 /\ at3 (fst (normalize V counts)) k = 0).
Proof.
  intros Hrun.
  assert (Hfill : forall k, at3 counts k = 0 -> at3 (snd (normalize V counts)) k = 1).
  { intros k Hk. unfold normalize, fill_zero_counts; simpl.
    destruct (Req_dec_T (at3 counts k) 0); [reflexivity | contradiction]. }
  assert (Hdiv : forall k, at3 counts k = 0 -> at3 V k = 0 ->
                           at3 (fst (normalize V counts)) k = 0).
  { intros k Hc Hv.
    change (at3 V k / at3 (snd (normalize V counts)) k = 0).
    rewrite (Hfill k Hc), Hv. lra. }
  apply accumulate_delta in Hrun; [|reflexivity|reflexivity].
  destruct Hrun as (d & Hd & E). inversion E; subst; clear E.
  split; [exact Hfill|]. split; [intros k; reflexivity|]. split.
  - intros k Hmiss.
    destruct (run_delta_miss w lc iterator d k Hd Hmiss) as [E1 E2].
    assert (Hc : at3 (shift (zeros (l_D lc)) (snd d)) k = 0) by (simpl; lra).
    assert (Hv : at3 (shift (zeros (l_D lc)) (fst d)) k = 0) by (simpl; lra).
    split; [now apply Hfill|]. split; [exact Hv | now apply Hdiv].
  - intros k Hc.
    destruct (paired_run w lc iterator d Hd k) as [_ Hp].
    assert (Hv : at3 (shift (zeros (l_D lc)) (fst d)) k = 0).
    { simpl in *. rewrite Hp by lra. lra. }
    split; [exact Hv | now apply Hdiv].
Qed.

Lemma zero_weight_voxels_witness :
  (forall k, at3 (shift (zeros 5) (snd demo_delta)) k = 0 ->
     at3 (snd (normalize (shift (zeros 5) (fst demo_delta))
                         (shift (zeros 5) (snd demo_delta)))) k = 1) /\
  (forall k, at3 (fst (normalize (shift (zeros 5) (fst demo_delta))
                                 (shift (zeros 5) (snd demo_delta)))) k =
             at3 (shift (zeros 5) (fst demo_delta)) k /
             at3 (snd (normalize (shift (zeros 5) (fst demo_delta))
                                 (shift (zeros 5) (snd demo_delta)))) k) /\
  (forall k, ~ receives_contribution demo_world (demo_locals false) [0%Z; 1%Z] k ->
     at3 (snd (normalize (shift (zeros 5) (fst demo_delta))
                         (shift (zeros 5) (snd demo_delta)))) k = 1 /\
     at3 (shift (zeros 5) (fst demo_delta)) k = 0 /\
     at3 (fst (normalize (shift (zeros 5) (fst demo_delta))
                         (shift (zeros 5) (snd demo_delta)))) k = 0) /\
  (forall k, at3 (shift (zeros 5) (snd demo_delta)) k = 0 ->
     at3 (shift (zeros 5) (fst demo_delta)) k = 0 /\
     at3 (fst (normalize (shift (zeros 5) (fst demo_delta))
                         (shift (zeros 5) (snd demo_delta)))) k = 0).
Proof.
  apply (zero_weight_voxels demo_world (demo_locals false) [0%Z; 1%Z]).
  exact demo_accumulate.
Defined.

(** ** Translation and CTF sign *)

(** C6.  Shifting the phases for a translation [t] and flipping the signs
    by the CTF values [c] give the same coefficients in either order. *)
Theorem translate_commutes_with_ctf_sign (kappa : R) (freqs : list (R * R))
    (c : list R) (ff : list complex) (t : R * R) :
  spec_translate_ht kappa freqs (ctf_sign_flip c ff) t =
  ctf_sign_flip c (spec_translate_ht kappa freqs ff t).
Proof.
  unfold spec_translate_ht, ctf_sign_flip.
  revert c ff; induction freqs as [|k freqs IH]; intros [|ci c] [|z ff];
    simpl; try reflexivity.
  rewrite IH. f_equal. unfold cmul; simpl. f_equal; ring.
Qed.

(** ** Whole runs of the driver *)

(** The small run from the command line to the written volume. *)
Lemma main_demo_run :
  main demo_world (demo_args false "vol.mrc") [] =
  ([EvLoadDataset "particles.mrcs"; EvLoadPoses "poses.pkl";
    EvAllocate 5; EvAllocate 5; EvAccumulate [0%Z; 1%Z];
    EvWrite "vol.mrc"
      (crop_last (fst (normalize (shift (zeros 5) (fst demo_delta))
                                 (shift (zeros 5) (snd demo_delta)))))
      1],
   Ok tt).
Proof.
  unfold main, io_bind, assert_, lift, emit, io_ret.
  cbn -[accumulate normalize crop_last zeros demo_delta].
  change (accumulate demo_world _ _ _)
    with (accumulate demo_world (demo_locals false) [0%Z; 1%Z] (zeros 5, zeros 5)).
  rewrite demo_accumulate. reflexivity.
Qed.

(** The same run in tilt-series mode stops in the first iteration. *)
Lemma main_demo_tilt_series :
  main demo_world (demo_args true "vol.mrc") [] =
  ([EvLoadDataset "particles.mrcs"; EvLoadPoses "poses.pkl";
    EvAllocate 5; EvAllocate 5; EvAccumulate [0%Z; 1%Z]],
   Raise (NameError "index")).
Proof. reflexivity. Qed.

(** * Further properties of the code *)

(** ** The weight kernel *)

Lemma dist2_nonneg (c : Z * Z * Z) (p : coord) : 0 <= dist2 c p.
Proof.
  destruct c as [[xi yi] zi]. unfold dist2.
  generalize (IZR xi - cx p) (IZR yi - cy p) (IZR zi - cz p). intros a b d.
  pose proof (Rle_0_sqr a); pose proof (Rle_0_sqr b); pose proof (Rle_0_sqr d).
  unfold Rsqr in *. lra.
Qed.

Lemma corner_weight_dist2 (c : Z * Z * Z) (p : coord) :
  corner_weight c p =
  if Rlt_dec (1 - sqrt (dist2 c p)) 0 then 0 else 1 - sqrt (dist2 c p).
Proof. destruct c as [[xi yi] zi]. reflexivity. Qed.

Lemma sqrt_ge_1 (x : R) : 0 <= x -> (1 <= sqrt x <-> 1 <= x).
Proof.
  intros Hx. split; intros H.
  - rewrite <- sqrt_1 in H. apply sqrt_le_0 in H; lra.
  - rewrite <- sqrt_1. apply sqrt_le_1; lra.
Qed.

(** X1.  The weight of a corner lies in [0, 1]; it is 1 exactly when the
    sample point is the corner itself, and 0 exactly when the corner is at
    distance 1 or more. *)
Theorem corner_weight_range (c : Z * Z * Z) (p : coord) :
  0 <= corner_weight c p <= 1 /\
  (corner_weight c p = 1 <-> dist2 c p = 0) /\
  (corner_weight c p = 0 <-> 1 <= dist2 c p).
Proof.
  pose proof (dist2_nonneg c p) as Hd.
  pose proof (sqrt_pos (dist2 c p)) as Hs.
  pose proof (sqrt_ge_1 _ Hd) as Hge.
  rewrite corner_weight_dist2.
  destruct (Rlt_dec (1 - sqrt (dist2 c p)) 0) as [Hlt | Hnlt].
  - split; [lra|]. split.
    + split; [lra|]. intros H0. rewrite H0, sqrt_0 in Hlt. lra.
    + split; [intros _; apply Hge; lra | reflexivity].
  - split; [lra|]. split.
    + split.
      * intros H. apply sqrt_eq_0; [exact Hd | lra].
      * intros H0. rewrite H0, sqrt_0. lra.
    + split; intros H.
      * apply Hge. lra.
      * apply Hge in H. lra.
Qed.

(** ** Floor, ceil and the index range *)

Lemma floor_spec (x : R) : IZR (floor x) <= x < IZR (floor x) + 1.
Proof. unfold floor. destruct (base_Int_part x). lra. Qed.

Lemma ceil_spec (x : R) : IZR (ceil x) - 1 < x <= IZR (ceil x).
Proof.
  unfold ceil. rewrite opp_IZR. destruct (base_Int_part (- x)). lra.
Qed.

Lemma floor_ge (x : R) (z : Z) : IZR z <= x -> (z <= floor x)%Z.
Proof.
  intros H. destruct (floor_spec x) as [_ Hlt].
  assert (Hz : IZR z < IZR (floor x + 1)) by (rewrite plus_IZR; lra).
  apply lt_IZR in Hz. lia.
Qed.

Lemma floor_le (x : R) (z : Z) : x <= IZR z -> (floor x <= z)%Z.
Proof.
  intros H. destruct (floor_spec x) as [Hle _].
  apply le_IZR. lra.
Qed.

Lemma ceil_le (x : R) (z : Z) : x <= IZR z -> (ceil x <= z)%Z.
Proof.
  intros H. destruct (ceil_spec x) as [Hlt _].
  assert (Hz : IZR (ceil x - 1) < IZR z) by (rewrite minus_IZR; lra).
  apply lt_IZR in Hz. lia.
Qed.

Lemma ceil_ge (x : R) (z : Z) : IZR z <= x -> (z <= ceil x)%Z.
Proof.
  intros H. destruct (ceil_spec x) as [_ Hle].
  apply le_IZR. lra.
Qed.

Lemma round_between (r : rounding) (x : R) (lo hi : Z) :
  IZR lo <= x <= IZR hi -> (lo <= round r x <= hi)%Z.
Proof.
  intros [Hlo Hhi]. destruct r; simpl.
  - split; [now apply floor_ge | now apply floor_le].
  - split; [now apply ceil_ge | now apply ceil_le].
Qed.

Lemma in_box_in_cube (D : Z) (p : coord) (c : choice) :
  in_box D p -> in_cube D (voxel_of (Z.quot D 2) (corner_of c p)) = true.
Proof.
  intros (Hx & Hy & Hz). destruct c as [[rx ry] rz].
  unfold corner_of, voxel_of, in_cube.
  pose proof (round_between rx _ _ _ Hx).
  pose proof (round_between ry _ _ _ Hy).
  pose proof (round_between rz _ _ _ Hz).
  rewrite !andb_true_iff, !Z.leb_le, !Z.ltb_lt. lia.
Qed.

Lemma add_slice_box_targets (D : Z) (V counts : tensor3) (samples : list sample) :
  side V = D -> side counts = D ->
  (forall s, In s samples -> in_box D (fst s)) ->
  (exists V' counts', add_slice V counts samples D = Ok (V', counts')) /\
  (forall s c, In s samples -> In c corner_order ->
     target D (Z.quot D 2) c (fst s) = voxel_of (Z.quot D 2) (corner_of c (fst s)) /\
     in_cube D (target D (Z.quot D 2) c (fst s)) = true).
Proof.
  intros HV HC Hbox.
  assert (Hcube : forall s c, In s samples -> In c corner_order ->
            in_cube D (voxel_of (Z.quot D 2) (corner_of c (fst s))) = true).
  { intros s c Hs _. apply in_box_in_cube. now apply Hbox. }
  split.
  - rewrite (add_slice_spec D) by assumption.
    assert (Hok : slice_ok D D samples = true).
    { apply slice_ok_true_iff. intros s c Hs Hc.
      apply in_cube_index3_ok. now apply Hcube. }
    rewrite Hok. eexists; eexists; reflexivity.
  - intros s c Hs Hc. unfold target.
    destruct (in_cube_index3_ok D _ (Hcube s c Hs Hc)) as [_ ->].
    split; [reflexivity | now apply Hcube].
Qed.

(** X2.  On volumes of side [D], [add_slice] returns without an exception
    whenever every coordinate of every sample lies between [-(D/2)] and
    [D - 1 - D/2] ([D/2] truncated); no index wraps around in that case. *)
Theorem add_slice_in_box (D : Z) (V counts : tensor3) (samples : list sample) :
  side V = D -> side counts = D ->
  (forall s, In s samples -> in_box D (fst s)) ->
  (exists V' counts', add_slice V counts samples D = Ok (V', counts')) /\
  (forall s c, In s samples -> In c corner_order ->
     target D (Z.quot D 2) c (fst s) = voxel_of (Z.quot D 2) (corner_of c (fst s)) /\
     in_cube D (target D (Z.quot D 2) c (fst s)) = true).
Proof.
  intros HV HC Hbox. split.
  - exact (proj1 (add_slice_box_targets D V counts samples HV HC Hbox)).
  - intros s c Hs Hc.
    exact (proj2 (add_slice_box_targets D V counts samples HV HC Hbox) s c Hs Hc).
Qed.

Lemma add_slice_in_box_witness :
  (exists V' counts',
     add_slice (zeros 5) (zeros 5) [((1 / 2, -2, 2), 3)] 5 = Ok (V', counts')) /\
  (forall s c, In s [((1 / 2, -2, 2), 3)] -> In c corner_order ->
     target 5 (Z.quot 5 2) c (fst s) = voxel_of (Z.quot 5 2) (corner_of c (fst s)) /\
     in_cube 5 (target 5 (Z.quot 5 2) c (fst s)) = true).
Proof.
  apply (add_slice_in_box 5 (zeros 5) (zeros 5)).
  - reflexivity.
  - reflexivity.
  - intros s [<- | []]. unfold in_box, cx, cy, cz; simpl. lra.
Defined.

(** ** Rotations keep the slice inside the volume *)

Lemma vecmat_dot (p q : coord) (r : mat3) :
  orthonormal r -> dot3 (vecmat p r) (vecmat q r) = dot3 p q.
Proof.
  destruct r as [[r0 r1] r2]. intros (H00 & H11 & H22 & H01 & H02 & H12).
  destruct p as [[px py] pz], q as [[qx qy] qz].
  destruct r0 as [[a0 b0] c0], r1 as [[a1 b1] c1], r2 as [[a2 b2] c2].
  unfold dot3, vecmat, cx, cy, cz in *; simpl in *.
  replace ((px * a0 + py * a1 + pz * a2) * (qx * a0 + qy * a1 + qz * a2) +
           (px * b0 + py * b1 + pz * b2) * (qx * b0 + qy * b1 + qz * b2) +
           (px * c0 + py * c1 + pz * c2) * (qx * c0 + qy * c1 + qz * c2))
    with (px * qx * (a0 * a0 + b0 * b0 + c0 * c0) +
          py * qy * (a1 * a1 + b1 * b1 + c1 * c1) +
          pz * qz * (a2 * a2 + b2 * b2 + c2 * c2) +
          (px * qy + py * qx) * (a0 * a1 + b0 * b1 + c0 * c1) +
          (px * qz + pz * qx) * (a0 * a2 + b0 * b2 + c0 * c2) +
          (py * qz + pz * qy) * (a1 * a2 + b1 * b2 + c1 * c2)) by ring.
  rewrite H00, H11, H22, H01, H02, H12. ring.
Qed.

Lemma vecmat_norm2 (p : coord) (r : mat3) :
  orthonormal r -> norm2 (vecmat p r) = norm2 p.
Proof. intros H. apply (vecmat_dot p p r H). Qed.

Lemma sq_le_bound (x y z d : R) :
  0 <= d -> x * x + y * y + z * z <= d * d -> - d <= x <= d.
Proof.
  intros Hd H.
  pose proof (Rle_0_sqr y) as Hy. pose proof (Rle_0_sqr z) as Hz.
  unfold Rsqr in *. split; nra.
Qed.

Lemma ball_in_box (D : Z) (p : coord) :
  (0 < D)%Z -> D = (2 * Z.quot D 2 + 1)%Z ->
  norm2 p <= IZR (Z.quot D 2) * IZR (Z.quot D 2) -> in_box D p.
Proof.
  intros Hpos Hodd Hball.
  assert (Hd : 0 <= IZR (Z.quot D 2)) by (apply IZR_le; lia).
  assert (Hhi : IZR (D - 1 - Z.quot D 2) = IZR (Z.quot D 2))
    by (f_equal; lia).
  unfold in_box, norm2 in *. rewrite Hhi, opp_IZR.
  destruct p as [[x y] z]; unfold cx, cy, cz in *; simpl in *.
  repeat split.
  - apply (sq_le_bound x y z); [exact Hd | lra].
  - apply (sq_le_bound x y z); [exact Hd | lra].
  - apply (sq_le_bound y x z); [exact Hd | lra].
  - apply (sq_le_bound y x z); [exact Hd | lra].
  - apply (sq_le_bound z x y); [exact Hd | lra].
  - apply (sq_le_bound z x y); [exact Hd | lra].
Qed.

Lemma place_rows (lc : Locals) (rot : coord -> coord) (ff : list R)
    (rows : list sample) :
  place lc rot ff = Ok rows ->
  rows = combine (map rot (filter_mask (l_mask lc) (coords (l_lattice lc)))) ff /\
  List.length (l_mask lc) = List.length (coords (l_lattice lc)) /\
  List.length ff = List.length (filter_mask (l_mask lc) (coords (l_lattice lc))).
Proof.
  unfold place, select, rows_of.
  destruct (Nat.eqb (List.length (l_mask lc)) (List.length (coords (l_lattice lc))))
    eqn:E1; [|discriminate].
  cbn [bind].
  destruct (Nat.eqb (List.length (map rot (filter_mask (l_mask lc) (coords (l_lattice lc)))))
                    (List.length ff)) eqn:E2; [|discriminate].
  intros H; inversion H; subst; clear H.
  apply Nat.eqb_eq in E1, E2. rewrite length_map in E2. auto.
Qed.

(** X3.  A pose with orthonormal rows keeps the norm of every lattice
    point.  So, for odd [D], when the mask selects only lattice points within
    radius [D // 2] of the origin, the slice placed by such a pose (line 238)
    is splatted without an exception. *)
Theorem rotated_slice_in_range (lc : Locals) (r : mat3) (ff : list R)
    (rows : list sample) (V counts : tensor3) :
  (0 < l_D lc)%Z -> l_D lc = (2 * Z.quot (l_D lc) 2 + 1)%Z ->
  orthonormal r ->
  (forall p, In p (filter_mask (l_mask lc) (coords (l_lattice lc))) ->
     norm2 p <= IZR (Z.quot (l_D lc) 2) * IZR (Z.quot (l_D lc) 2)) ->
  place lc (fun p => vecmat p r) ff = Ok rows ->
  side V = l_D lc -> side counts = l_D lc ->
  (forall s, In s rows ->
     norm2 (fst s) <= IZR (Z.quot (l_D lc) 2) * IZR (Z.quot (l_D lc) 2)) /\
  exists V' counts', add_slice V counts rows (l_D lc) = Ok (V', counts').
Proof.
  intros Hpos Hodd Hr Hball Hplace HV HC.
  apply place_rows in Hplace. destruct Hplace as (-> & _ & _).
  assert (Hnorm : forall s,
            In s (combine (map (fun p => vecmat p r)
                               (filter_mask (l_mask lc) (coords (l_lattice lc)))) ff) ->
            norm2 (fst s) <= IZR (Z.quot (l_D lc) 2) * IZR (Z.quot (l_D lc) 2)).
  { intros [q v] Hs. apply in_combine_l in Hs. apply in_map_iff in Hs.
    destruct Hs as (p & <- & Hp). cbn [fst]. rewrite vecmat_norm2 by exact Hr.
    now apply Hball. }
  split; [exact Hnorm|].
  apply (add_slice_box_targets (l_D lc)); try assumption.
  intros s Hs. apply ball_in_box; try assumption. now apply Hnorm.
Qed.

Lemma identity3_orthonormal : orthonormal identity3.
Proof. unfold orthonormal, identity3, dot3, cx, cy, cz; simpl. repeat split; ring. Qed.

Lemma rotated_slice_in_range_witness :
  (forall s, In s (demo_rows 0) ->
     norm2 (fst s) <= IZR (Z.quot 5 2) * IZR (Z.quot 5 2)) /\
  exists V' counts', add_slice (zeros 5) (zeros 5) (demo_rows 0) 5 = Ok (V', counts').
Proof.
  apply (rotated_slice_in_range (demo_locals false) identity3 [IZR (0 + 1); 2]
           (demo_rows 0) (zeros 5) (zeros 5)).
  - reflexivity.
  - reflexivity.
  - apply identity3_orthonormal.
  - intros p [<- | [<- | []]]; unfold norm2, cx, cy, cz, demo_locals;
      cbn [l_D fst snd]; change (Z.quot 5 2) with 2%Z; lra.
  - unfold place, select, rows_of. cbn -[vecmat IZR Z.add].
    rewrite !vecmat_identity. reflexivity.
  - reflexivity.
  - reflexivity.
Defined.

(** ** The tilt composition *)

Lemma vecmat_matmul (p : coord) (a b : mat3) :
  vecmat (vecmat p a) b = vecmat p (matmul a b).
Proof.
  destruct a as [[a0 a1] a2], b as [[b0 b1] b2].
  unfold matmul, vecmat, cx, cy, cz; simpl.
  f_equal; [f_equal|]; ring.
Qed.

Lemma matmul_orthonormal (a b : mat3) :
  orthonormal a -> orthonormal b -> orthonormal (matmul a b).
Proof.
  destruct a as [[a0 a1] a2]. intros Ha Hb. unfold matmul.
  unfold orthonormal in Ha |- *.
  rewrite !(vecmat_dot _ _ b Hb). exact Ha.
Qed.

(** X4.  Line 251 places the tilt image with [coords @ tilt @ r]: each point is
    sent through the single matrix [tilt @ r], and when the tilt matrix and
    the pose have orthonormal rows so has the product, and the norm of the
    point is kept. *)
Theorem tilt_pose_composition (p : coord) (tilt r : mat3) :
  orthonormal tilt -> orthonormal r ->
  vecmat (vecmat p tilt) r = vecmat p (matmul tilt r) /\
  orthonormal (matmul tilt r) /\
  norm2 (vecmat (vecmat p tilt) r) = norm2 p.
Proof.
  intros Ht Hr. split; [apply vecmat_matmul|]. split.
  - now apply matmul_orthonormal.
  - rewrite !vecmat_norm2 by assumption. reflexivity.
Qed.

Lemma tilt_pose_composition_witness :
  vecmat (vecmat (1, 2, 3) identity3) identity3 =
    vecmat (1, 2, 3) (matmul identity3 identity3) /\
  orthonormal (matmul identity3 identity3) /\
  norm2 (vecmat (vecmat (1, 2, 3) identity3) identity3) = norm2 (1, 2, 3).
Proof.
  apply (tilt_pose_composition (1, 2, 3) identity3 identity3);
    apply identity3_orthonormal.
Defined.

(** ** Shapes *)

Lemma iadd_at_side (T T' : tensor3) (idx : list index3) (vals : list R) :
  iadd_at T idx vals = Ok T' -> side T' = side T.
Proof.
  rewrite iadd_at_spec. destruct (forallb _ idx); [|discriminate].
  intros H; inversion H; subst. reflexivity.
Qed.

Lemma add_for_corner_side (ff_coord : list coord) (ff : list R) (d2 : Z)
    (xi yi zi : list Z) (st st' : tensor3 * tensor3) :
  add_for_corner ff_coord ff d2 xi yi zi st = Ok st' ->
  side (fst st') = side (fst st) /\ side (snd st') = side (snd st).
Proof.
  destruct st as [V counts]. unfold add_for_corner.
  destruct (iadd_at V _ _) as [V1|e] eqn:E1; [|discriminate]. cbn [bind].
  destruct (iadd_at counts _ _) as [c1|e] eqn:E2; [|discriminate]. cbn [bind].
  intros H; inversion H; subst; clear H. cbn [fst snd].
  split; [exact (iadd_at_side _ _ _ _ E1) | exact (iadd_at_side _ _ _ _ E2)].
Qed.

Lemma run_passes_side (samples : list sample) (d2 : Z) (cs : list choice)
    (st st' : tensor3 * tensor3) :
  run_passes samples d2 cs st = Ok st' ->
  side (fst st') = side (fst st) /\ side (snd st') = side (snd st).
Proof.
  revert st; induction cs as [|c cs IH]; intros st H; simpl in H.
  - inversion H; subst. split; reflexivity.
  - destruct (corner_pass samples d2 c st) as [st1|e] eqn:E; [|discriminate].
    cbn [bind] in H. destruct (IH st1 H) as [H1 H2].
    unfold corner_pass in E. destruct (add_for_corner_side _ _ _ _ _ _ _ _ E) as [H3 H4].
    split; congruence.
Qed.

Lemma add_slice_side (V counts : tensor3) (samples : list sample) (D : Z)
    (st' : tensor3 * tensor3) :
  add_slice V counts samples D = Ok st' ->
  side (fst st') = side V /\ side (snd st') = side counts.
Proof.
  rewrite add_slice_passes. intros H.
  apply (run_passes_side _ _ _ (V, counts) st' H).
Qed.

Lemma splat_all_side (D : Z) (slices : list (list sample))
    (st st' : tensor3 * tensor3) :
  splat_all D slices st = Ok st' ->
  side (fst st') = side (fst st) /\ side (snd st') = side (snd st).
Proof.
  revert st; induction slices as [|samples slices IH]; intros st H; simpl in H.
  - inversion H; subst. split; reflexivity.
  - destruct (add_slice (fst st) (snd st) samples D) as [st1|e] eqn:E; [|discriminate].
    cbn [bind] in H. destruct (IH st1 H) as [H1 H2].
    destruct (add_slice_side _ _ _ _ _ E) as [H3 H4]. split; congruence.
Qed.

(** X5.  The loop never changes the shape of the volumes, whatever their
    sides were and whatever the images are: a run that returns hands back
    volumes of the sides it was given.  An empty slice changes nothing at
    all. *)
Theorem accumulate_preserves_shape (w : World) (lc : Locals) (iterator : list Z)
    (V counts V' counts' : tensor3) :
  accumulate w lc iterator (V, counts) = Ok (V', counts') ->
  side V' = side V /\ side counts' = side counts /\
  add_slice V counts [] (l_D lc) = Ok (V, counts).
Proof.
  intros H. cut (side V' = side V /\ side counts' = side counts).
  { intros [H1 H2]. repeat split; assumption. }
  revert V counts H; induction iterator as [|ii rest IH]; intros V counts H.
  - simpl in H. inversion H; subst. split; reflexivity.
  - cbn [accumulate] in H.
    destruct (loop_body w lc ii (V, counts)) as [[V1 c1]|e] eqn:E; [|discriminate].
    cbn [bind] in H. destruct (IH _ _ H) as [H1 H2].
    apply loop_body_slices in E. destruct E as (slices & _ & E).
    destruct (splat_all_side _ _ _ _ E) as [H3 H4]. cbn [fst snd] in *.
    split; congruence.
Qed.

Lemma accumulate_preserves_shape_witness :
  side (shift (zeros 5) (fst demo_delta)) = side (zeros 5) /\
  side (shift (zeros 5) (snd demo_delta)) = side (zeros 5) /\
  add_slice (zeros 5) (zeros 5) [] (l_D (demo_locals false)) = Ok (zeros 5, zeros 5).
Proof.
  apply (accumulate_preserves_shape demo_world (demo_locals false) [0%Z; 1%Z]).
  exact demo_accumulate.
Defined.

(** ** Linearity in the sample values *)

Lemma last_write_map_values {X : Type} (key : X -> index3) (f g : X -> R)
    (h : R -> R) (l : list X) (k : index3) :
  (forall s, g s = h (f s)) ->
  last_write (map (fun s => (key s, g s)) l) k =
  option_map h (last_write (map (fun s => (key s, f s)) l) k).
Proof.
  intros Hg. induction l as [|a l IH]; simpl; [reflexivity|].
  rewrite IH. destruct (last_write (map (fun s => (key s, f s)) l) k); simpl;
    [reflexivity|].
  destruct (index3_eqb k (key a)); simpl; [now rewrite Hg | reflexivity].
Qed.

Lemma pass_dC_scale (n d2 : Z) (c : choice) (lam : R) (samples : list sample) :
  pass_dC n d2 c (scale_values lam samples) = pass_dC n d2 c samples.
Proof.
  unfold pass_dC, scale_values. rewrite map_map. reflexivity.
Qed.

Lemma pass_dV_scale (n d2 : Z) (c : choice) (lam : R) (samples : list sample)
    (k : index3) :
  pass_dV n d2 c (scale_values lam samples) k = lam * pass_dV n d2 c samples k.
Proof.
  unfold pass_dV, scale_values, delta_of. rewrite map_map. cbn [fst snd].
  rewrite (last_write_map_values (X := (coord * R)%type)
             (fun s => target n d2 c (fst s))
             (fun s => corner_weight (corner_of c (fst s)) (fst s) * snd s)
             (fun s => corner_weight (corner_of c (fst s)) (fst s) * (lam * snd s))
             (fun x => lam * x))
    by (intros s; ring).
  destruct (last_write _ k); simpl; ring.
Qed.

Lemma slice_ok_scale (n D : Z) (lam : R) (samples : list sample) :
  slice_ok n D (scale_values lam samples) = slice_ok n D samples.
Proof.
  unfold slice_ok, scale_values. f_equal.
  apply functional_extensionality. intros c.
  rewrite forallb_map_comp. reflexivity.
Qed.

Lemma Rsum_scale {A : Type} (lam : R) (f : A -> R) (l : list A) :
  Rsum (map (fun a => lam * f a) l) = lam * Rsum (map f l).
Proof. induction l as [|a l IH]; simpl; [ring | rewrite IH; ring]. Qed.

(** X6.  [add_slice] is linear in the values [ff]: when a call returns, the
    call with every value multiplied by [lam] returns too, adds [lam] times
    as much to every entry of [V], and gives the same [counts]. *)
Theorem add_slice_linear_in_values (lam : R) (V counts : tensor3)
    (samples : list sample) (D : Z) (V' counts' : tensor3) :
  side counts = side V ->
  add_slice V counts samples D = Ok (V', counts') ->
  add_slice V counts (scale_values lam samples) D =
  Ok (shift V (fun k => lam * (at3 V' k - at3 V k)), counts').
Proof.
  intros Hside. rewrite !(add_slice_spec (side V)) by congruence.
  rewrite slice_ok_scale.
  destruct (slice_ok (side V) D samples); [|discriminate].
  intros H; inversion H; subst; clear H. f_equal. f_equal.
  - apply shift_ext. intros k. cbn [at3 shift]. unfold slice_dV.
    rewrite (Rsum_ext _ (fun c => lam * pass_dV (side V) (Z.quot D 2) c samples k))
      by (intros c _; apply pass_dV_scale).
    rewrite Rsum_scale. ring.
  - apply shift_ext. intros k. unfold slice_dC.
    apply Rsum_ext. intros c _. now rewrite pass_dC_scale.
Qed.

Lemma add_slice_linear_in_values_witness :
  add_slice (zeros 3) (zeros 3) (scale_values 7 [((IZR 0, IZR 0, IZR 0), 2)]) 3 =
  Ok (shift (zeros 3)
        (fun k => 7 * (at3 (shift (zeros 3)
                              (fun k => if index3_eqb k (1, 1, 1)%Z then 8 * 2 else 0)) k
                       - at3 (zeros 3) k)),
      shift (zeros 3) (fun k => if index3_eqb k (1, 1, 1)%Z then 8 else 0)).
Proof.
  apply (add_slice_linear_in_values 7 (zeros 3) (zeros 3)
           [((IZR 0, IZR 0, IZR 0), 2)] 3).
  - reflexivity.
  - apply (vertex_sample_spec 3 0 0 0 2 (zeros 3) (zeros 3)); reflexivity.
Defined.

(** ** The accumulator is a weighted sum *)

Lemma avg_bounded_zero (m M : R) : avg_bounded m M dzero.
Proof. intros k; simpl. lra. Qed.

Lemma avg_bounded_plus (m M : R) (a b : deltas) :
  avg_bounded m M a -> avg_bounded m M b -> avg_bounded m M (dplus a b).
Proof.
  intros Ha Hb k. destruct (Ha k) as (? & ? & ?), (Hb k) as (? & ? & ?).
  cbn [dplus fst snd]. lra.
Qed.

Lemma avg_bounded_pass (m M : R) (n d2 : Z) (c : choice) (samples : list sample) :
  (forall s, In s samples -> m <= snd s <= M) ->
  avg_bounded m M (pass_dV n d2 c samples, pass_dC n d2 c samples).
Proof.
  intros Hv k. cbn [fst snd]. unfold pass_dV, pass_dC, delta_of.
  destruct (last_write_paired (X := (coord * R)%type)
              (fun s => target n d2 c (fst s))
              (fun s => corner_weight (corner_of c (fst s)) (fst s) * snd s)
              (fun s => corner_weight (corner_of c (fst s)) (fst s))
              samples k) as [(s & Hs & _ & Hf & Hg) | (_ & Hf & Hg)];
    rewrite Hf, Hg.
  - pose proof (corner_weight_nonneg (corner_of c (fst s)) (fst s)) as Hw.
    destruct (Hv s Hs) as [Hlo Hhi]. split; [exact Hw|]. split; nra.
  - lra.
Qed.

Lemma avg_bounded_slice (m M : R) (n D : Z) (samples : list sample) :
  (forall s, In s samples -> m <= snd s <= M) ->
  avg_bounded m M (slice_dV n D samples, slice_dC n D samples).
Proof.
  intros Hv. unfold slice_dV, slice_dC.
  induction corner_order as [|c cs IH].
  - apply avg_bounded_zero.
  - apply (avg_bounded_plus m M
             (pass_dV n (Z.quot D 2) c samples, pass_dC n (Z.quot D 2) c samples) _
             (avg_bounded_pass m M _ _ _ _ Hv) IH).
Qed.

Lemma avg_bounded_slices (m M : R) (D : Z) (slices : list (list sample)) (d : deltas) :
  (forall samples s, In samples slices -> In s samples -> m <= snd s <= M) ->
  slices_delta D slices = Some d -> avg_bounded m M d.
Proof.
  revert d; induction slices as [|samples slices IH]; intros d Hv Hd.
  - inversion Hd; subst. apply avg_bounded_zero.
  - cbn [slices_delta] in Hd.
    destruct (slice_ok D D samples); [|discriminate].
    destruct (slices_delta D slices) as [d'|]; [|discriminate].
    inversion Hd; subst; clear Hd. apply avg_bounded_plus.
    + apply avg_bounded_slice. intros s Hs. apply (Hv samples s); [now left | exact Hs].
    + apply IH; [|reflexivity]. intros sl s Hsl Hs. apply (Hv sl s); [now right | exact Hs].
Qed.

(** X7.  After any sequence of [add_slice] calls from zero volumes, every
    entry of [V] is a sum of sample values weighted by the non-negative
    weights that add up to the entry of [counts]: when all sample values lie
    in [m, M], [V] lies between [m * counts] and [M * counts], and wherever
    [counts] is not zero the normalized entry [V / counts] lies in [m, M]. *)
Theorem normalized_value_in_sample_range (D : Z) (slices : list (list sample))
    (m M : R) (V counts : tensor3) :
  (forall samples s, In samples slices -> In s samples -> m <= snd s <= M) ->
  splat_all D slices (zeros D, zeros D) = Ok (V, counts) ->
  forall k,
    0 <= at3 counts k /\
    m * at3 counts k <= at3 V k <= M * at3 counts k /\
    (at3 counts k <> 0 -> m <= at3 (fst (normalize V counts)) k <= M).
Proof.
  intros Hv Hrun k.
  rewrite splat_all_delta in Hrun by reflexivity.
  destruct (slices_delta D slices) as [d|] eqn:Hd; [|discriminate].
  inversion Hrun; subst; clear Hrun.
  destruct (avg_bounded_slices m M D slices d Hv Hd k) as (Hc & Hlo & Hhi).
  cbn [at3 shift zeros]. rewrite !Rplus_0_l.
  split; [exact Hc|]. split; [lra|].
  intros Hnz. unfold normalize, fill_zero_counts, idiv. cbn [fst at3 shift zeros].
  rewrite !Rplus_0_l.
  destruct (Req_dec_T (snd d k) 0) as [E|_]; [contradiction|].
  assert (Hpos : 0 < snd d k) by lra.
  split.
  - apply (Rmult_le_reg_r (snd d k)); [exact Hpos|].
    unfold Rdiv. rewrite Rmult_assoc, Rinv_l by lra. lra.
  - apply (Rmult_le_reg_r (snd d k)); [exact Hpos|].
    unfold Rdiv. rewrite Rmult_assoc, Rinv_l by lra. lra.
Qed.

Lemma normalized_value_in_sample_range_witness :
  0 <= at3 (shift (zeros 3) (fun k => if index3_eqb k (1, 1, 1)%Z then 8 else 0))
           (1, 1, 1)%Z /\
  1 <= at3 (fst (normalize
                   (shift (zeros 3)
                      (fun k => if index3_eqb k (1, 1, 1)%Z then 8 * 2 else 0))
                   (shift (zeros 3)
                      (fun k => if index3_eqb k (1, 1, 1)%Z then 8 else 0))))
           (1, 1, 1)%Z
    <= 3.
Proof.
  destruct (normalized_value_in_sample_range 3 [[((IZR 0, IZR 0, IZR 0), 2)]] 1 3
              (shift (zeros 3) (fun k => if index3_eqb k (1, 1, 1)%Z then 8 * 2 else 0))
              (shift (zeros 3) (fun k => if index3_eqb k (1, 1, 1)%Z then 8 else 0)))
    with (k := (1, 1, 1)%Z) as (Hc & _ & Hn).
  - intros samples s [<- | []] [<- | []]. simpl. lra.
  - cbn [splat_all fst snd].
    rewrite (vertex_sample_spec 3 0 0 0 2 (zeros 3) (zeros 3)) by reflexivity.
    reflexivity.
  - split; [exact Hc|]. apply Hn. cbn. lra.
Defined.

(** ** The terminal division *)

(** X8.  After the replacement of the zero entries no entry of [counts] is
    zero, so the division of the terminal step is exact: multiplying the
    normalized volume by the patched counts gives back the accumulator.  The
    entries of [counts] that were not zero are not touched. *)
Theorem normalize_division_exact (V counts : tensor3) (k : index3) :
  at3 (snd (normalize V counts)) k <> 0 /\
  at3 (fst (normalize V counts)) k * at3 (snd (normalize V counts)) k = at3 V k /\
  (at3 counts k <> 0 -> at3 (snd (normalize V counts)) k = at3 counts k).
Proof.
  unfold normalize, fill_zero_counts, idiv. cbn [fst snd at3].
  destruct (Req_dec_T (at3 counts k) 0) as [E|E].
  - split; [lra|]. split; [field | contradiction].
  - split; [exact E|]. split; [now field | reflexivity].
Qed.

(** ** Samples on an edge and in the middle of a cell *)

Lemma floor_frac (a : Z) (f : R) : 0 <= f < 1 -> floor (IZR a + f) = a.
Proof. intros H. unfold floor. symmetry. apply Int_part_spec. lra. Qed.

Lemma ceil_frac (a : Z) (f : R) : 0 < f <= 1 -> ceil (IZR a + f) = (a + 1)%Z.
Proof.
  intros H. unfold ceil.
  assert (E : (- a - 1)%Z = Int_part (- (IZR a + f))).
  { apply Int_part_spec. rewrite minus_IZR, opp_IZR. lra. }
  rewrite <- E. lia.
Qed.

Lemma sqrt_sq_sum (x : R) : 0 <= x -> sqrt (x * x + 0 * 0 + 0 * 0) = x.
Proof.
  intros H. replace (x * x + 0 * 0 + 0 * 0) with (x * x) by ring.
  now apply sqrt_square.
Qed.

Lemma corner_weight_edge_lo (a b c : Z) (f : R) :
  0 <= f <= 1 -> corner_weight (a, b, c) (IZR a + f, IZR b, IZR c) = 1 - f.
Proof.
  intros H. rewrite corner_weight_dist2. unfold dist2, cx, cy, cz; simpl.
  replace ((IZR a - (IZR a + f)) * (IZR a - (IZR a + f)) +
           (IZR b - IZR b) * (IZR b - IZR b) + (IZR c - IZR c) * (IZR c - IZR c))
    with (f * f + 0 * 0 + 0 * 0) by ring.
  rewrite sqrt_sq_sum by lra. destruct (Rlt_dec (1 - f) 0); lra.
Qed.

Lemma corner_weight_edge_hi (a b c : Z) (f : R) :
  0 <= f <= 1 -> corner_weight ((a + 1)%Z, b, c) (IZR a + f, IZR b, IZR c) = f.
Proof.
  intros H. rewrite corner_weight_dist2. unfold dist2, cx, cy, cz; simpl.
  rewrite plus_IZR.
  replace ((IZR a + 1 - (IZR a + f)) * (IZR a + 1 - (IZR a + f)) +
           (IZR b - IZR b) * (IZR b - IZR b) + (IZR c - IZR c) * (IZR c - IZR c))
    with ((1 - f) * (1 - f) + 0 * 0 + 0 * 0) by ring.
  rewrite sqrt_sq_sum by lra. destruct (Rlt_dec (1 - (1 - f)) 0); lra.
Qed.

Lemma edge_sample_spec (D a b c : Z) (f v : R) (V counts : tensor3) :
  0 < f < 1 ->
  side V = D -> side counts = D ->
  index3_ok D (voxel_of (Z.quot D 2) (a, b, c)) = true ->
  index3_ok D (voxel_of (Z.quot D 2) ((a + 1)%Z, b, c)) = true ->
  add_slice V counts [((IZR a + f, IZR b, IZR c), v)] D =
  Ok (shift V (fun k =>
        (if index3_eqb k (wrap3 D (voxel_of (Z.quot D 2) (a, b, c)))
         then 4 * (1 - f) * v else 0) +
        (if index3_eqb k (wrap3 D (voxel_of (Z.quot D 2) ((a + 1)%Z, b, c)))
         then 4 * f * v else 0)),
      shift counts (fun k =>
        (if index3_eqb k (wrap3 D (voxel_of (Z.quot D 2) (a, b, c)))
         then 4 * (1 - f) else 0) +
        (if index3_eqb k (wrap3 D (voxel_of (Z.quot D 2) ((a + 1)%Z, b, c)))
         then 4 * f else 0))).
Proof.
  intros Hf HV HC Hlo Hhi.
  rewrite (add_slice_spec D) by assumption.
  unfold slice_ok, slice_dV, slice_dC, pass_dV, pass_dC, target, delta_of, corner_order.
  cbn [forallb map fst snd last_write Rsum fold_right].
  unfold corner_of. cbn [round cx cy cz fst snd].
  rewrite !floor_IZR, !ceil_IZR, !floor_frac, !ceil_frac by lra.
  rewrite !corner_weight_edge_lo, !corner_weight_edge_hi by lra.
  rewrite Hlo, Hhi. cbn [andb].
  f_equal. f_equal; apply shift_ext; intros k;
    destruct (index3_eqb k (wrap3 D (voxel_of (Z.quot D 2) (a, b, c))));
    destruct (index3_eqb k (wrap3 D (voxel_of (Z.quot D 2) ((a + 1)%Z, b, c)))); lra.
Qed.

(** X9.  A sample on a lattice edge, at the fraction [f] between the lattice
    points (a, b, c) and (a + 1, b, c): four of its eight corners coincide
    with either end point, so one call adds the weight [4 * (1 - f)] at the
    first and [4 * f] at the second (linear in [f], total 4), the values
    [4 * (1 - f) * v] and [4 * f * v], and nothing anywhere else. *)
Theorem splat_on_lattice_edge (D a b c : Z) (f v : R) (V counts : tensor3) :
  0 < f < 1 ->
  side V = D -> side counts = D ->
  index3_ok D (voxel_of (Z.quot D 2) (a, b, c)) = true ->
  index3_ok D (voxel_of (Z.quot D 2) ((a + 1)%Z, b, c)) = true ->
  exists V' counts',
    add_slice V counts [((IZR a + f, IZR b, IZR c), v)] D = Ok (V', counts') /\
    forall k,
      at3 counts' k = at3 counts k +
        ((if index3_eqb k (wrap3 D (voxel_of (Z.quot D 2) (a, b, c)))
          then 4 * (1 - f) else 0) +
         (if index3_eqb k (wrap3 D (voxel_of (Z.quot D 2) ((a + 1)%Z, b, c)))
          then 4 * f else 0)) /\
      at3 V' k = at3 V k +
        ((if index3_eqb k (wrap3 D (voxel_of (Z.quot D 2) (a, b, c)))
          then 4 * (1 - f) * v else 0) +
         (if index3_eqb k (wrap3 D (voxel_of (Z.quot D 2) ((a + 1)%Z, b, c)))
          then 4 * f * v else 0)).
Proof.
  intros Hf HV HC Hlo Hhi. eexists; eexists; split.
  - now apply edge_sample_spec.
  - intros k. split; reflexivity.
Qed.

Lemma splat_on_lattice_edge_witness :
  exists V' counts',
    add_slice (zeros 5) (zeros 5) [((IZR 0 + 1 / 4, IZR 0, IZR 0), 2)] 5
      = Ok (V', counts') /\
    forall k,
      at3 counts' k = at3 (zeros 5) k +
        ((if index3_eqb k (wrap3 5 (voxel_of (Z.quot 5 2) (0, 0, 0)%Z))
          then 4 * (1 - 1 / 4) else 0) +
         (if index3_eqb k (wrap3 5 (voxel_of (Z.quot 5 2) ((0 + 1)%Z, 0, 0)%Z))
          then 4 * (1 / 4) else 0)) /\
      at3 V' k = at3 (zeros 5) k +
        ((if index3_eqb k (wrap3 5 (voxel_of (Z.quot 5 2) (0, 0, 0)%Z))
          then 4 * (1 - 1 / 4) * 2 else 0) +
         (if index3_eqb k (wrap3 5 (voxel_of (Z.quot 5 2) ((0 + 1)%Z, 0, 0)%Z))
          then 4 * (1 / 4) * 2 else 0)).
Proof.
  apply (splat_on_lattice_edge 5 0 0 0 (1 / 4) 2 (zeros 5) (zeros 5));
    try reflexivity. lra.
Defined.

Lemma sqrt_three_quarters : sqrt (3 / 4) < 1.
Proof.
  apply Rlt_le_trans with (sqrt 1); [apply sqrt_lt_1_alt; lra|].
  rewrite sqrt_1. lra.
Qed.

Lemma corner_weight_center (a b c x y z : Z) :
  (x = a \/ x = a + 1)%Z -> (y = b \/ y = b + 1)%Z -> (z = c \/ z = c + 1)%Z ->
  corner_weight (x, y, z) (IZR a + 1 / 2, IZR b + 1 / 2, IZR c + 1 / 2) =
  1 - sqrt (3 / 4).
Proof.
  intros Hx Hy Hz. rewrite corner_weight_dist2.
  assert (E : dist2 (x, y, z) (IZR a + 1 / 2, IZR b + 1 / 2, IZR c + 1 / 2) = 3 / 4).
  { unfold dist2, cx, cy, cz; simpl.
    destruct Hx as [-> | ->], Hy as [-> | ->], Hz as [-> | ->];
      rewrite ?plus_IZR; field. }
  rewrite E. pose proof sqrt_three_quarters.
  destruct (Rlt_dec (1 - sqrt (3 / 4)) 0); lra.
Qed.

Lemma cell_in_cube (D a b c x y z : Z) :
  in_cube D (voxel_of (Z.quot D 2) (a, b, c)) = true ->
  in_cube D (voxel_of (Z.quot D 2) ((a + 1)%Z, (b + 1)%Z, (c + 1)%Z)) = true ->
  (x = a \/ x = a + 1)%Z -> (y = b \/ y = b + 1)%Z -> (z = c \/ z = c + 1)%Z ->
  in_cube D (voxel_of (Z.quot D 2) (x, y, z)) = true.
Proof.
  unfold in_cube, voxel_of.
  rewrite !andb_true_iff, !Z.leb_le, !Z.ltb_lt. lia.
Qed.

Lemma center_sample_spec (D a b c : Z) (v : R) (V counts : tensor3) :
  side V = D -> side counts = D ->
  in_cube D (voxel_of (Z.quot D 2) (a, b, c)) = true ->
  in_cube D (voxel_of (Z.quot D 2) ((a + 1)%Z, (b + 1)%Z, (c + 1)%Z)) = true ->
  add_slice V counts [((IZR a + 1 / 2, IZR b + 1 / 2, IZR c + 1 / 2), v)] D =
  Ok (shift V (fun k => if cell_vertex (Z.quot D 2) a b c k
                        then (1 - sqrt (3 / 4)) * v else 0),
      shift counts (fun k => if cell_vertex (Z.quot D 2) a b c k
                             then 1 - sqrt (3 / 4) else 0)).
Proof.
  intros HV HC Hlo Hhi.
  assert (Hcube : forall x y z,
            (x = a \/ x = a + 1)%Z -> (y = b \/ y = b + 1)%Z -> (z = c \/ z = c + 1)%Z ->
            index3_ok D (voxel_of (Z.quot D 2) (x, y, z)) = true /\
            wrap3 D (voxel_of (Z.quot D 2) (x, y, z)) = voxel_of (Z.quot D 2) (x, y, z)).
  { intros x y z Hx Hy Hz. apply in_cube_index3_ok.
    now apply (cell_in_cube D a b c). }
  rewrite (add_slice_spec D) by assumption.
  unfold slice_ok, slice_dV, slice_dC, pass_dV, pass_dC, target, delta_of, corner_order.
  cbn [forallb map fst snd last_write Rsum fold_right].
  unfold corner_of. cbn [round cx cy cz fst snd].
  rewrite !floor_frac, !ceil_frac by lra.
  rewrite !(corner_weight_center a b c) by lia.
  repeat match goal with
         | |- context [index3_ok D (voxel_of (Z.quot D 2) (?x, ?y, ?z))] =>
             rewrite (proj1 (Hcube x y z ltac:(lia) ltac:(lia) ltac:(lia)))
         | |- context [wrap3 D (voxel_of (Z.quot D 2) (?x, ?y, ?z))] =>
             rewrite (proj2 (Hcube x y z ltac:(lia) ltac:(lia) ltac:(lia)))
         end.
  cbn [andb]. f_equal. f_equal; apply shift_ext; intros [[z y] x];
    unfold voxel_of, index3_eqb, cell_vertex;
    repeat match goal with
           | |- context [(?p =? ?q)%Z] => destruct (Z.eqb_spec p q)
           end;
    cbn [andb orb]; try (exfalso; lia); lra.
Qed.

(** X10.  A sample in the middle of a lattice cell: its eight corners are
    the eight vertices of the cell, each at distance [sqrt (3/4)], so one
    call adds the same positive weight [1 - sqrt (3/4)] at each of them and
    nothing anywhere else. *)
Theorem splat_on_cell_center (D a b c : Z) (v : R) (V counts : tensor3) :
  side V = D -> side counts = D ->
  in_cube D (voxel_of (Z.quot D 2) (a, b, c)) = true ->
  in_cube D (voxel_of (Z.quot D 2) ((a + 1)%Z, (b + 1)%Z, (c + 1)%Z)) = true ->
  0 < 1 - sqrt (3 / 4) /\
  exists V' counts',
    add_slice V counts [((IZR a + 1 / 2, IZR b + 1 / 2, IZR c + 1 / 2), v)] D
      = Ok (V', counts') /\
    forall k,
      at3 counts' k = at3 counts k +
        (if cell_vertex (Z.quot D 2) a b c k then 1 - sqrt (3 / 4) else 0) /\
      at3 V' k = at3 V k +
        (if cell_vertex (Z.quot D 2) a b c k then (1 - sqrt (3 / 4)) * v else 0).
Proof.
  intros HV HC Hlo Hhi. split; [pose proof sqrt_three_quarters; lra|].
  eexists; eexists; split.
  - now apply center_sample_spec.
  - intros k. split; reflexivity.
Qed.

Lemma splat_on_cell_center_witness :
  0 < 1 - sqrt (3 / 4) /\
  exists V' counts',
    add_slice (zeros 5) (zeros 5)
      [((IZR 0 + 1 / 2, IZR 0 + 1 / 2, IZR 0 + 1 / 2), 2)] 5 = Ok (V', counts') /\
    forall k,
      at3 counts' k = at3 (zeros 5) k +
        (if cell_vertex (Z.quot 5 2) 0 0 0 k then 1 - sqrt (3 / 4) else 0) /\
      at3 V' k = at3 (zeros 5) k +
        (if cell_vertex (Z.quot 5 2) 0 0 0 k then (1 - sqrt (3 / 4)) * 2 else 0).
Proof.
  apply (splat_on_cell_center 5 0 0 0 2 (zeros 5) (zeros 5)); reflexivity.
Defined.

(** ** Moving a slice by whole lattice steps *)

Lemma floor_plus_int (x : R) (n : Z) : floor (x + IZR n) = (floor x + n)%Z.
Proof.
  unfold floor at 1. symmetry. apply Int_part_spec.
  rewrite plus_IZR. destruct (floor_spec x). lra.
Qed.

Lemma ceil_plus_int (x : R) (n : Z) : ceil (x + IZR n) = (ceil x + n)%Z.
Proof.
  unfold ceil.
  replace (- (x + IZR n)) with (- x + IZR (- n)) by (rewrite opp_IZR; ring).
  change (Int_part (- x + IZR (- n))) with (floor (- x + IZR (- n))).
  rewrite floor_plus_int. unfold floor. lia.
Qed.

Lemma round_plus_int (r : rounding) (x : R) (n : Z) :
  round r (x + IZR n) = (round r x + n)%Z.
Proof. destruct r; [apply floor_plus_int | apply ceil_plus_int]. Qed.

Lemma voxel_of_shift (d2 : Z) (c : choice) (n : Z * Z * Z) (p : coord) :
  voxel_of d2 (corner_of c (shift_point n p)) =
  shift_voxel n (voxel_of d2 (corner_of c p)).
Proof.
  destruct c as [[rx ry] rz], n as [[nx ny] nz], p as [[x y] z].
  unfold corner_of, shift_point, voxel_of, shift_voxel, cx, cy, cz; simpl.
  rewrite !round_plus_int. f_equal; [f_equal|]; lia.
Qed.

Lemma corner_weight_shift (c : choice) (n : Z * Z * Z) (p : coord) :
  corner_weight (corner_of c (shift_point n p)) (shift_point n p) =
  corner_weight (corner_of c p) p.
Proof.
  destruct c as [[rx ry] rz], n as [[nx ny] nz], p as [[x y] z].
  rewrite !corner_weight_dist2.
  assert (E : dist2 (corner_of (rx, ry, rz) (shift_point (nx, ny, nz) (x, y, z)))
                    (shift_point (nx, ny, nz) (x, y, z)) =
              dist2 (corner_of (rx, ry, rz) (x, y, z)) (x, y, z)).
  { unfold dist2, corner_of, shift_point, cx, cy, cz; simpl.
    rewrite !round_plus_int, !plus_IZR. ring. }
  now rewrite E.
Qed.

Lemma shift_voxel_eqb (n : Z * Z * Z) (k i : index3) :
  index3_eqb (shift_voxel n k) (shift_voxel n i) = index3_eqb k i.
Proof.
  destruct n as [[nx ny] nz], k as [[kz ky] kx], i as [[iz iy] ix].
  unfold shift_voxel, index3_eqb.
  repeat match goal with
         | |- context [(?p =? ?q)%Z] => destruct (Z.eqb_spec p q)
         end; cbn [andb]; try reflexivity; exfalso; lia.
Qed.

Lemma last_write_shift_keys {X : Type} (n : Z * Z * Z) (key : X -> index3)
    (f : X -> R) (l : list X) (k : index3) :
  last_write (map (fun s => (shift_voxel n (key s), f s)) l) (shift_voxel n k) =
  last_write (map (fun s => (key s, f s)) l) k.
Proof.
  induction l as [|a l IH]; simpl; [reflexivity|].
  now rewrite IH, shift_voxel_eqb.
Qed.

Lemma delta_of_ext_in {X : Type} (g h : X -> index3 * R) (l : list X) (k : index3) :
  (forall s, In s l -> g s = h s) ->
  delta_of (map g l) k = delta_of (map h l) k.
Proof. intros H. now rewrite (map_ext_in g h l H). Qed.

(** X11.  The splat commutes with moving the whole slice by a whole number
    of lattice steps: if every corner of the samples, before and after the
    move, has its index in [0, D), then from zero volumes the moved slice
    gives the same returned volumes moved by the same steps. *)
Theorem add_slice_integer_shift (D : Z) (n : Z * Z * Z) (samples : list sample)
    (V1 c1 : tensor3) :
  (forall s c, In s samples -> In c corner_order ->
     in_cube D (voxel_of (Z.quot D 2) (corner_of c (fst s))) = true) ->
  (forall s c, In s samples -> In c corner_order ->
     in_cube D (shift_voxel n (voxel_of (Z.quot D 2) (corner_of c (fst s)))) = true) ->
  add_slice (zeros D) (zeros D) samples D = Ok (V1, c1) ->
  exists V2 c2,
    add_slice (zeros D) (zeros D) (shift_samples n samples) D = Ok (V2, c2) /\
    forall k, at3 V2 (shift_voxel n k) = at3 V1 k /\
              at3 c2 (shift_voxel n k) = at3 c1 k.
Proof.
  intros Hin Hin' Hrun.
  rewrite (add_slice_spec D) in Hrun |- * by reflexivity.
  destruct (slice_ok D D samples); [|discriminate].
  inversion Hrun; subst; clear Hrun.
  assert (Hok : slice_ok D D (shift_samples n samples) = true).
  { apply slice_ok_true_iff. intros s' c Hs' Hc.
    apply in_map_iff in Hs'. destruct Hs' as (s & <- & Hs). cbn [fst].
    rewrite voxel_of_shift. apply in_cube_index3_ok. now apply Hin'. }
  rewrite Hok. eexists; eexists; split; [reflexivity|].
  assert (Hpass : forall c k, In c corner_order ->
            pass_dV D (Z.quot D 2) c (shift_samples n samples) (shift_voxel n k) =
              pass_dV D (Z.quot D 2) c samples k /\
            pass_dC D (Z.quot D 2) c (shift_samples n samples) (shift_voxel n k) =
              pass_dC D (Z.quot D 2) c samples k).
  { intros c k Hc. unfold pass_dV, pass_dC, shift_samples. rewrite !map_map.
    cbn [fst snd]. split.
    - rewrite (delta_of_ext_in _
                 (fun s : sample =>
                    (shift_voxel n (voxel_of (Z.quot D 2) (corner_of c (fst s))),
                     corner_weight (corner_of c (fst s)) (fst s) * snd s)) samples).
      + rewrite (delta_of_ext_in
                   (fun s : sample => (target D (Z.quot D 2) c (fst s),
                        corner_weight (corner_of c (fst s)) (fst s) * snd s))
                   (fun s : sample => (voxel_of (Z.quot D 2) (corner_of c (fst s)),
                        corner_weight (corner_of c (fst s)) (fst s) * snd s)) samples).
        * unfold delta_of. now rewrite last_write_shift_keys.
        * intros s Hs. unfold target.
          now rewrite (proj2 (in_cube_index3_ok D _ (Hin s c Hs Hc))).
      + intros s Hs. unfold target. rewrite voxel_of_shift, corner_weight_shift.
        now rewrite (proj2 (in_cube_index3_ok D _ (Hin' s c Hs Hc))).
    - rewrite (delta_of_ext_in _
                 (fun s : sample =>
                    (shift_voxel n (voxel_of (Z.quot D 2) (corner_of c (fst s))),
                     corner_weight (corner_of c (fst s)) (fst s))) samples).
      + rewrite (delta_of_ext_in
                   (fun s : sample => (target D (Z.quot D 2) c (fst s),
                        corner_weight (corner_of c (fst s)) (fst s)))
                   (fun s : sample => (voxel_of (Z.quot D 2) (corner_of c (fst s)),
                        corner_weight (corner_of c (fst s)) (fst s))) samples).
        * unfold delta_of. now rewrite last_write_shift_keys.
        * intros s Hs. unfold target.
          now rewrite (proj2 (in_cube_index3_ok D _ (Hin s c Hs Hc))).
      + intros s Hs. unfold target. rewrite voxel_of_shift, corner_weight_shift.
        now rewrite (proj2 (in_cube_index3_ok D _ (Hin' s c Hs Hc))). }
  intros k. cbn [at3 shift zeros]. unfold slice_dV, slice_dC. split; f_equal;
    apply Rsum_ext; intros c Hc; now apply Hpass.
Qed.

Lemma add_slice_integer_shift_witness :
  exists V2 c2,
    add_slice (zeros 5) (zeros 5)
      (shift_samples (1, 0, -1)%Z [((IZR 0, IZR 0, IZR 0), 2)]) 5 = Ok (V2, c2) /\
    forall k,
      at3 V2 (shift_voxel (1, 0, -1)%Z k) =
        at3 (shift (zeros 5) (fun k => if index3_eqb k (2, 2, 2)%Z then 8 * 2 else 0)) k /\
      at3 c2 (shift_voxel (1, 0, -1)%Z k) =
        at3 (shift (zeros 5) (fun k => if index3_eqb k (2, 2, 2)%Z then 8 else 0)) k.
Proof.
  apply (add_slice_integer_shift 5 (1, 0, -1)%Z [((IZR 0, IZR 0, IZR 0), 2)]).
  - intros s c [<- | []] _. cbn [fst]. rewrite corner_of_vertex. reflexivity.
  - intros s c [<- | []] _. cbn [fst]. rewrite corner_of_vertex. reflexivity.
  - apply (vertex_sample_spec 5 0 0 0 2 (zeros 5) (zeros 5)); reflexivity.
Defined.

(** ** The CTF sign flip *)

Lemma sign_sq (x : R) : x <> 0 -> sign x * sign x = 1.
Proof.
  intros H. unfold sign. destruct (Rlt_dec x 0); [lra|].
  destruct (Rlt_dec 0 x); lra.
Qed.

(** X12.  Multiplying by the sign of the CTF (lines 225 and 246) is its own
    inverse wherever the CTF does not vanish: with no zero among the CTF
    values, flipping twice gives the coefficients back, and one flip keeps
    their number. *)
Theorem ctf_sign_flip_involution (ff c : list R) :
  List.length c = List.length ff ->
  Forall (fun x => x <> 0) c ->
  List.length (map2 Rmult ff (map sign c)) = List.length ff /\
  map2 Rmult (map2 Rmult ff (map sign c)) (map sign c) = ff.
Proof.
  revert c; induction ff as [|x ff IH]; intros [|y c] Hlen Hnz; simpl in *;
    try discriminate; [split; reflexivity|].
  inversion Hnz as [|? ? Hy Hc]; subst.
  destruct (IH c) as [Hl Hr]; [lia | assumption |].
  split; [now rewrite Hl|]. rewrite Hr. f_equal.
  rewrite Rmult_assoc, sign_sq by assumption. ring.
Qed.

Lemma ctf_sign_flip_involution_witness :
  List.length (map2 Rmult [3; -5] (map sign [-2; 7])) = List.length [3; -5] /\
  map2 Rmult (map2 Rmult [3; -5] (map sign [-2; 7])) (map sign [-2; 7]) = [3; -5].
Proof.
  apply (ctf_sign_flip_involution [3; -5] [-2; 7]).
  - reflexivity.
  - repeat constructor; lra.
Defined.

(** ** The slices of an image *)





(** ** What the driver does to the outside *)

Lemma io_spec_ret {A : Type} (P : event -> Prop) (Q : A -> Prop) (v : A) :
  Q v -> io_spec P Q (io_ret v).
Proof.
  intros Hq tr tr' r H. inversion H; subst. exists []. rewrite app_nil_r. auto.
Qed.

Lemma io_spec_lift {A : Type} (P : event -> Prop) (Q : A -> Prop) (x : result A) :
  (forall v, x = Ok v -> Q v) -> io_spec P Q (lift x).
Proof.
  intros Hq tr tr' r H. inversion H; subst. exists []. rewrite app_nil_r.
  repeat split; auto. destruct r; auto.
Qed.

Lemma io_spec_emit (P : event -> Prop) (e : event) :
  P e -> io_spec P (fun _ => True) (emit e).
Proof. intros Hp tr tr' r H. inversion H; subst. exists [e]. auto. Qed.

Lemma io_spec_bind {A B : Type} (P : event -> Prop) (Q : A -> Prop) (Q' : B -> Prop)
    (m : io A) (k : A -> io B) :
  io_spec P Q m -> (forall v, Q v -> io_spec P Q' (k v)) ->
  io_spec P Q' (io_bind m k).
Proof.
  intros Hm Hk tr tr' r H. unfold io_bind in H.
  destruct (m tr) as [tr1 [v|e]] eqn:E.
  - destruct (Hm _ _ _ E) as (n1 & -> & Hp1 & Hq).
    destruct (Hk v Hq _ _ _ H) as (n2 & -> & Hp2 & Hq2).
    exists (n1 ++ n2). rewrite app_assoc. repeat split; auto.
    apply Forall_app; auto.
  - inversion H; subst. destruct (Hm _ _ _ E) as (n1 & -> & Hp1 & _).
    exists n1. auto.
Qed.

Lemma writes_last_bind {A B : Type} (path : string) (Q : A -> Prop)
    (m : io A) (k : A -> io B) :
  io_spec (fun ev => ~ is_write ev) Q m ->
  (forall v, Q v -> writes_last path (k v)) ->
  writes_last path (io_bind m k).
Proof.
  intros Hm Hk tr tr' r H. unfold io_bind in H.
  destruct (m tr) as [tr1 [v|e]] eqn:E.
  - destruct (Hm _ _ _ E) as (n1 & -> & Hp1 & Hq).
    destruct (Hk v Hq _ _ _ H) as (n2 & -> & Hlast).
    exists (n1 ++ n2). rewrite app_assoc. split; [reflexivity|].
    destruct r as [x|e].
    + destruct Hlast as (pre & V & Apix & -> & Hpre).
      exists (n1 ++ pre), V, Apix. rewrite app_assoc. split; [reflexivity|].
      apply Forall_app; auto.
    + apply Forall_app; auto.
  - inversion H; subst. destruct (Hm _ _ _ E) as (n1 & -> & Hp1 & _).
    exists n1. auto.
Qed.

Lemma writes_last_emit (path : string) (V : tensor3) (Apix : R) :
  writes_last path (emit (EvWrite path V Apix)).
Proof.
  intros tr tr' r H. inversion H; subst. exists [EvWrite path V Apix].
  split; [reflexivity|]. exists [], V, Apix. split; [reflexivity | constructor].
Qed.

Ltac io_stage :=
  repeat first
    [ apply io_spec_ret; exact I
    | apply io_spec_lift; intros; exact I
    | apply io_spec_emit; simpl; tauto
    | eapply io_spec_bind; [|intros ? _]
    | match goal with
      | |- io_spec _ _ (match ?x with _ => _ end) => destruct x
      | |- io_spec _ _ (if ?x then _ else _) => destruct x
      end
    | progress cbv zeta ].

Lemma main_writes_last (w : World) (a : args.t) :
  writes_last (args.o a) (main w a).
Proof.
  unfold main, assert_.
  repeat (eapply (writes_last_bind _ (fun _ => True)); [solve [io_stage]|intros ? _];
          cbv zeta).
  match goal with |- writes_last _ (let '(_, _) := ?x in _) => destruct x end.
  apply writes_last_emit.
Qed.

(** X14.  [main] writes at most once.  When it returns, the write of the
    volume to the path [args.o] is the last thing it does; when it raises,
    whatever the exception and wherever it comes from, it has written
    nothing. *)
Theorem main_writes_once_at_the_end (w : World) (a : args.t)
    (tr tr' : list event) (r : result unit) :
  main w a tr = (tr', r) ->
  exists new, tr' = tr ++ new /\
    match r with
    | Ok _ => exists pre V Apix,
                new = pre ++ [EvWrite (args.o a) V Apix] /\
                Forall (fun ev => ~ is_write ev) pre
    | Raise _ => Forall (fun ev => ~ is_write ev) new
    end.
Proof. apply main_writes_last. Qed.

Lemma main_writes_once_at_the_end_witness :
  exists new,
    [EvLoadDataset "particles.mrcs"; EvLoadPoses "poses.pkl";
     EvAllocate 5; EvAllocate 5; EvAccumulate [0%Z; 1%Z];
     EvWrite "vol.mrc"
       (crop_last (fst (normalize (shift (zeros 5) (fst demo_delta))
                                  (shift (zeros 5) (snd demo_delta)))))
       1] = [] ++ new /\
    exists pre V Apix,
      new = pre ++ [EvWrite (args.o (demo_args false "vol.mrc")) V Apix] /\
      Forall (fun ev => ~ is_write ev) pre.
Proof.
  eapply (main_writes_once_at_the_end demo_world (demo_args false "vol.mrc") []
            _ (Ok tt)).
  exact main_demo_run.
Defined.






Lemma range_nonpos (n : Z) : (n <= 0)%Z -> range n = [].
Proof.
  intros H. unfold range. replace (Z.to_nat n) with 0%nat by lia. reflexivity.
Qed.

(** X16.  An empty data set makes [main] fail after the loop: with no CTF
    table, a well-formed output path and [N = 0] images, nothing is
    accumulated and the log line of lines 255-259, which divides the elapsed
    time by [N], raises [ZeroDivisionError]; no volume is written. *)
Theorem main_empty_dataset (w : World) (a : args.t) (tr : list event) :
  endswith (args.o a) ".mrc" = true ->
  args.ctf a = None ->
  ds_N (main_data w a) = 0%Z ->
  (0 <= ds_D (main_data w a))%Z ->
  snd (main w a tr) = Raise ZeroDivisionError /\
  Forall (fun ev => ~ is_write ev \/ In ev tr) (fst (main w a tr)).
Proof.
  intros Hout Hctf HN HD.
  assert (Hres : snd (main w a tr) = Raise ZeroDivisionError).
  { unfold main, io_bind, assert_, lift, emit, io_ret.
    rewrite Hout, Hctf. fold (main_ind w a).
    destruct (negb (os_path_exists w (os_path_dirname w (args.o a))));
      destruct (args.ind a) as [f|] eqn:Eind; unfold main_ind in *;
      cbv zeta; unfold main_data, main_ind in HN, HD; rewrite Eind in HN, HD;
      rewrite HN;
      (replace (ds_D _ <? 0)%Z with false by (symmetry; apply Z.ltb_ge; exact HD));
      rewrite (range_nonpos 0) by lia;
      rewrite (range_nonpos (Z.min (args.first a) 0)) by lia;
      destruct (args.first a =? 0)%Z; reflexivity. }
  split; [exact Hres|].
  destruct (main w a tr) as [tr' r] eqn:E. cbn [fst snd] in *. subst r.
  destruct (main_writes_last w a tr tr' _ E) as (new & -> & Hnew).
  apply Forall_app. split.
  - apply Forall_forall. intros ev Hev. now right.
  - apply Forall_forall. intros ev Hev. left.
    rewrite Forall_forall in Hnew. now apply Hnew.
Qed.

Lemma main_empty_dataset_witness :
  snd (main demo_empty_world (demo_args false "vol.mrc") []) = Raise ZeroDivisionError /\
  Forall (fun ev => ~ is_write ev \/ In ev [])
         (fst (main demo_empty_world (demo_args false "vol.mrc") [])).
Proof.
  apply (main_empty_dataset demo_empty_world (demo_args false "vol.mrc") []).
  - reflexivity.
  - reflexivity.
  - reflexivity.
  - simpl. lia.
Defined.

(** ** The output path *)

Lemma substring_all (s : string) : substring 0 (String.length s) s = s.
Proof. induction s as [|c s IH]; simpl; [reflexivity | now rewrite IH]. Qed.

Lemma substring_append (p s : string) (m : nat) :
  substring (String.length p) m (p ++ s) = substring 0 m s.
Proof. induction p as [|c p IH]; simpl; [reflexivity | exact IH]. Qed.

Lemma string_length_append (p s : string) :
  String.length (p ++ s) = (String.length p + String.length s)%nat.
Proof. induction p as [|c p IH]; simpl; [reflexivity | now rewrite IH]. Qed.

Lemma substring_split (s : string) (k m : nat) :
  (k + m)%nat = String.length s ->
  s = (substring 0 k s ++ substring k m s)%string.
Proof.
  revert k; induction s as [|c s IH]; intros k H; simpl in H.
  - assert (k = 0%nat) by lia. assert (m = 0%nat) by lia. subst. reflexivity.
  - destruct k as [|k].
    + simpl in H. subst m. cbn [substring append]. now rewrite substring_all.
    + cbn [substring append]. f_equal. apply IH. lia.
Qed.

(** X17.  The entry assertion of [main] accepts exactly the output paths
    that consist of some text followed by the suffix: [endswith s suffix]
    holds if and only if [s] is [p ++ suffix] for some [p]. *)
Theorem endswith_iff (s suffix : string) :
  endswith s suffix = true <-> exists p, s = (p ++ suffix)%string.
Proof.
  unfold endswith. split.
  - destruct (Nat.leb_spec (String.length suffix) (String.length s)) as [Hle|Hlt];
      [|discriminate].
    intros H. apply String.eqb_eq in H.
    exists (substring 0 (String.length s - String.length suffix) s).
    transitivity
      (substring 0 (String.length s - String.length suffix) s ++
       substring (String.length s - String.length suffix) (String.length suffix) s)%string.
    + apply substring_split. lia.
    + now rewrite H.
  - intros (p & ->). rewrite string_length_append.
    destruct (Nat.leb_spec (String.length suffix) (String.length p + String.length suffix))
      as [Hle|Hlt]; [|lia].
    replace (String.length p + String.length suffix - String.length suffix)%nat
      with (String.length p) by lia.
    rewrite substring_append, substring_all. apply String.eqb_refl.
Qed.

(** * [vae_het.py] *)

(** ** The loss of a training step *)

Lemma kld_term_nonpos (mu lv : R) : 1 + lv - mu * mu - exp lv <= 0.
Proof.
  pose proof (exp_ineq1_le lv). pose proof (Rle_0_sqr mu) as H0.
  unfold Rsqr in H0. lra.
Qed.

Lemma kld_term_zero (mu lv : R) :
  1 + lv - mu * mu - exp lv = 0 <-> mu = 0 /\ lv = 0.
Proof.
  split.
  - intros H. pose proof (exp_ineq1_le lv) as H1.
    pose proof (Rle_0_sqr mu) as H0. unfold Rsqr in H0.
    assert (Hmu : mu * mu = 0) by lra.
    assert (Hlv : 1 + lv = exp lv) by lra.
    split.
    + apply Rmult_integral in Hmu. tauto.
    + destruct (Req_dec lv 0) as [E|E]; [exact E|].
      pose proof (exp_ineq1 lv E). lra.
  - intros [-> ->]. rewrite exp_0. ring.
Qed.

Lemma kld_sum (z_mu z_logvar : list R) :
  List.length z_mu = List.length z_logvar ->
  Rsum (map2 (fun mu lv => 1 + lv - mu * mu - exp lv) z_mu z_logvar) <= 0 /\
  (Rsum (map2 (fun mu lv => 1 + lv - mu * mu - exp lv) z_mu z_logvar) = 0 <->
   Forall (fun x => x = 0) z_mu /\ Forall (fun x => x = 0) z_logvar) /\
  List.length (map2 (fun mu lv => 1 + lv - mu * mu - exp lv) z_mu z_logvar) =
    List.length z_mu.
Proof.
  revert z_logvar; induction z_mu as [|mu z_mu IH]; intros [|lv z_logvar] Hlen;
    simpl in *; try discriminate.
  - split; [lra|]. split; [|reflexivity]. split; auto.
  - destruct (IH z_logvar) as (Hle & Hiff & Hl); [lia|].
    pose proof (kld_term_nonpos mu lv) as Ht.
    split; [lra|]. split; [|now rewrite Hl]. split.
    + intros H.
      assert (H1 : 1 + lv - mu * mu - exp lv = 0) by lra.
      assert (H2 : Rsum (map2 (fun mu lv => 1 + lv - mu * mu - exp lv) z_mu z_logvar) = 0)
        by lra.
      apply kld_term_zero in H1. apply Hiff in H2.
      destruct H1, H2. split; constructor; assumption.
    + intros [Hm Hv].
      inversion Hm as [|? ? Hmu Hm']; subst. inversion Hv as [|? ? Hlv Hv']; subst.
      assert (Hs : Rsum (map2 (fun mu lv => 1 + lv - mu * mu - exp lv) z_mu z_logvar) = 0)
        by (apply Hiff; split; assumption).
      rewrite Hs, exp_0. ring.
Qed.

Lemma kld_nonneg_iff (z_mu z_logvar : list R) :
  z_mu <> [] ->
  List.length z_mu = List.length z_logvar ->
  0 <= vae_het.kld z_mu z_logvar /\
  (vae_het.kld z_mu z_logvar = 0 <->
   Forall (fun x => x = 0) z_mu /\ Forall (fun x => x = 0) z_logvar).
Proof.
  intros Hne Hlen. destruct (kld_sum z_mu z_logvar Hlen) as (Hle & Hiff & Hl).
  unfold vae_het.kld, vae_het.mean. rewrite Hl.
  assert (Hn : 0 < INR (List.length z_mu)).
  { apply lt_0_INR. destruct z_mu; [contradiction | simpl; lia]. }
  set (s := Rsum (map2 (fun mu lv => 1 + lv - mu * mu - exp lv) z_mu z_logvar)) in *.
  assert (Hinv : 0 < / INR (List.length z_mu)) by now apply Rinv_0_lt_compat.
  unfold Rdiv. split; [nra|]. rewrite <- Hiff. split.
  - intros H. assert (Hs : s * / INR (List.length z_mu) = 0) by lra.
    apply Rmult_integral in Hs. destruct Hs; lra.
  - intros ->. lra.
Qed.

(** X18.  The latent loss of line 120 is the Kullback-Leibler term of a
    normal distribution against the standard normal one: for tensors with
    entries, it is never negative, and it is zero exactly when every mean
    and every log-variance is zero. *)
Theorem kld_nonnegative (z_mu z_logvar : list R) :
  z_mu <> [] ->
  List.length z_mu = List.length z_logvar ->
  0 <= vae_het.kld z_mu z_logvar /\
  (vae_het.kld z_mu z_logvar = 0 <->
   Forall (fun x => x = 0) z_mu /\ Forall (fun x => x = 0) z_logvar).
Proof. apply kld_nonneg_iff. Qed.

Lemma kld_nonnegative_witness :
  0 <= vae_het.kld [1; 0] [0; -1] /\
  (vae_het.kld [1; 0] [0; -1] = 0 <->
   Forall (fun x => x = 0) [1; 0] /\ Forall (fun x => x = 0) [0; -1]).
Proof.
  apply (kld_nonnegative [1; 0] [0; -1]).
  - discriminate.
  - reflexivity.
Defined.

(** X19.  With a non-negative weight the regularizer never lowers the loss
    below the reconstruction loss: [loss >= gen_loss] when [beta >= 0]
    without beta control, and when the weight [bc >= 0] with beta control;
    for [bc > 0] the two are equal exactly when the latent loss is at its
    target [beta]. *)
Theorem loss_at_least_reconstruction (gen beta : R) (z_mu z_logvar : list R)
    (beta_control : option R) (D : Z) :
  D <> 0%Z ->
  z_mu <> [] ->
  List.length z_mu = List.length z_logvar ->
  0 <= match beta_control with
       | None => beta
       | Some bc => bc
       end ->
  gen <= vae_het.total_loss gen (vae_het.kld z_mu z_logvar) beta beta_control D None /\
  (forall bc, beta_control = Some bc -> 0 < bc ->
     (vae_het.total_loss gen (vae_het.kld z_mu z_logvar) beta beta_control D None = gen
      <-> vae_het.kld z_mu z_logvar = beta)).
Proof.
  intros HD Hne Hlen Hw.
  destruct (kld_nonneg_iff z_mu z_logvar Hne Hlen) as [Hk _].
  assert (HDD : 0 < IZR (D * D)) by (apply IZR_lt; nia).
  assert (Hinv : 0 < / IZR (D * D)) by now apply Rinv_0_lt_compat.
  set (kl := vae_het.kld z_mu z_logvar) in *.
  unfold vae_het.total_loss. destruct beta_control as [bc|].
  - pose proof (Rle_0_sqr (beta - kl)) as Hsq. unfold Rsqr in Hsq.
    assert (Hterm : 0 <= bc * ((beta - kl) * (beta - kl)) / IZR (D * D)).
    { unfold Rdiv. apply Rmult_le_pos; [apply Rmult_le_pos; lra | lra]. }
    split; [lra|]. intros bc' E Hpos. inversion E; subst bc'. split.
    + intros H.
      assert (H0 : bc * ((beta - kl) * (beta - kl)) * / IZR (D * D) = 0)
        by (unfold Rdiv in H; lra).
      apply Rmult_integral in H0. destruct H0 as [H0|H0]; [|lra].
      apply Rmult_integral in H0. destruct H0 as [H0|H0]; [lra|].
      apply Rmult_integral in H0. destruct H0; lra.
    + intros <-. unfold Rdiv. ring.
  - assert (Hterm : 0 <= beta * kl / IZR (D * D)).
    { unfold Rdiv. apply Rmult_le_pos; [apply Rmult_le_pos; lra | lra]. }
    split; [lra|]. intros bc E. discriminate.
Qed.

Lemma loss_at_least_reconstruction_witness :
  7 <= vae_het.total_loss 7 (vae_het.kld [1; 0] [0; -1]) 4 (Some 2) 3 None /\
  (forall bc, Some 2 = Some bc -> 0 < bc ->
     (vae_het.total_loss 7 (vae_het.kld [1; 0] [0; -1]) 4 (Some 2) 3 None = 7
      <-> vae_het.kld [1; 0] [0; -1] = 4)).
Proof.
  apply (loss_at_least_reconstruction 7 4 [1; 0] [0; -1] (Some 2) 3).
  - discriminate.
  - discriminate.
  - reflexivity.
  - lra.
Defined.

(** ** The tilt matrix *)

Lemma tilt_matrix_orthonormal (tilt_deg : R) :
  orthonormal (vae_het.tilt_matrix tilt_deg).
Proof.
  unfold orthonormal, vae_het.tilt_matrix, dot3, cx, cy, cz; simpl.
  pose proof (sin2_cos2 (tilt_deg * PI / 180)) as H. unfold Rsqr in H.
  repeat split; lra.
Qed.

(** X20.  The tilt matrix built by [main] is a rotation about the x axis:
    its rows are orthonormal for every tilt angle, at 0 degrees it is the
    identity, and its product [tilt @ rot] with a pose that has orthonormal
    rows (line 116) has orthonormal rows again. *)
Theorem tilt_matrix_is_rotation (tilt_deg : R) (rot : mat3) :
  orthonormal rot ->
  orthonormal (vae_het.tilt_matrix tilt_deg) /\
  vae_het.tilt_matrix 0 = identity3 /\
  orthonormal (matmul (vae_het.tilt_matrix tilt_deg) rot).
Proof.
  intros Hrot. split; [apply tilt_matrix_orthonormal|]. split.
  - unfold vae_het.tilt_matrix, identity3. cbv zeta.
    replace (0 * PI / 180) with 0 by (unfold Rdiv; ring).
    rewrite cos_0, sin_0, Ropp_0. reflexivity.
  - apply matmul_orthonormal; [apply tilt_matrix_orthonormal | exact Hrot].
Qed.

Lemma tilt_matrix_is_rotation_witness :
  orthonormal (vae_het.tilt_matrix 45) /\
  vae_het.tilt_matrix 0 = identity3 /\
  orthonormal (matmul (vae_het.tilt_matrix 45) identity3).
Proof.
  apply (tilt_matrix_is_rotation 45 identity3). apply identity3_orthonormal.
Defined.

(** ** The training loop *)

Lemma range2_empty (start stop : Z) : (stop <= start)%Z -> vae_het.range2 start stop = [].
Proof.
  intros H. unfold vae_het.range2.
  replace (Z.to_nat (stop - start)) with 0%nat by lia. reflexivity.
Qed.

Lemma range2_cons (start stop : Z) :
  (start < stop)%Z ->
  vae_het.range2 start stop = start :: vae_het.range2 (start + 1) stop.
Proof.
  intros H. unfold vae_het.range2.
  replace (Z.to_nat (stop - start)) with (S (Z.to_nat (stop - (start + 1)))) by lia.
  cbn [seq map]. f_equal; [lia|].
  rewrite <- seq_shift, map_map. apply map_ext. intros k. lia.
Qed.

(** X21.  When the range of epochs is empty ([num_epochs <= start_epoch],
    as with [-n 0] or with a checkpoint of the last epoch), the training part
    of [main] trains nothing and saves nothing: the closing call of
    [save_checkpoint] reads [z_accum], which only the loop assigns, and
    raises [UnboundLocalError]. *)
Theorem training_without_epochs (run : vae_het.Run) :
  (vae_het.num_epochs run <= vae_het.start_epoch run)%Z ->
  vae_het.training run = ([], vae_het.Fail (vae_het.UnboundLocalError "z_accum")).
Proof.
  intros H. unfold vae_het.training. rewrite range2_empty by exact H. reflexivity.
Qed.

Lemma training_without_epochs_witness :
  vae_het.training
    (vae_het.mkRun 3 3 1 1000 3 false (fun _ => [2; 1]%Z)
       (fun _ _ => vae_het.mkTrainResult 1 2 3 0 [5])) =
  ([], vae_het.Fail (vae_het.UnboundLocalError "z_accum")).
Proof.
  apply (training_without_epochs
           (vae_het.mkRun 3 3 1 1000 3 false (fun _ => [2; 1]%Z)
              (fun _ _ => vae_het.mkTrainResult 1 2 3 0 [5]))).
  simpl. lia.
Defined.

Lemma saved_weights_app (a b : list vae_het.event) :
  vae_het.saved_weights (a ++ b) = vae_het.saved_weights a ++ vae_het.saved_weights b.
Proof.
  induction a as [|e a IH]; simpl; [reflexivity|].
  destruct e; simpl; rewrite IH; reflexivity.
Qed.

Lemma batch_step_saved (run : vae_het.Run) (epoch : Z) (pos : nat) (B : Z)
    (tr tr' : list vae_het.event) (acc : vae_het.Acc) (o : vae_het.outcome vae_het.Acc) :
  vae_het.batch_step run epoch pos B tr acc = (tr', o) ->
  vae_het.saved_weights tr' = vae_het.saved_weights tr.
Proof.
  unfold vae_het.batch_step.
  destruct (vae_het.z_iadd _ _) as [zs|e].
  - destruct (vae_het.log_interval run =? 0)%Z.
    + intros H; inversion H; subst. rewrite saved_weights_app. simpl.
      now rewrite app_nil_r.
    + destruct (_ =? 0)%Z; intros H; inversion H; subst;
        rewrite !saved_weights_app; simpl; now rewrite ?app_nil_r.
  - intros H; inversion H; subst. rewrite saved_weights_app. simpl.
    now rewrite app_nil_r.
Qed.

Lemma run_batches_saved (run : vae_het.Run) (epoch : Z) (sizes : list Z) (pos : nat)
    (tr tr' : list vae_het.event) (acc : vae_het.Acc) (o : vae_het.outcome vae_het.Acc) :
  vae_het.run_batches run epoch pos sizes tr acc = (tr', o) ->
  vae_het.saved_weights tr' = vae_het.saved_weights tr.
Proof.
  revert pos tr acc; induction sizes as [|B rest IH]; intros pos tr acc H; simpl in H.
  - inversion H; subst. reflexivity.
  - destruct (vae_het.batch_step run epoch pos B tr acc) as [tr1 [acc1|e]] eqn:E.
    + apply IH in H. rewrite H. exact (batch_step_saved _ _ _ _ _ _ _ _ E).
    + inversion H; subst. exact (batch_step_saved _ _ _ _ _ _ _ _ E).
Qed.

Lemma epoch_step_saved (run : vae_het.Run) (epoch : Z)
    (tr tr' : list vae_het.event) (acc : vae_het.Acc) :
  vae_het.epoch_step run epoch tr = (tr', vae_het.Done acc) ->
  vae_het.saved_weights tr' =
  vae_het.saved_weights tr ++
  (if negb (vae_het.checkpoint run =? 0)%Z && (epoch mod vae_het.checkpoint run =? 0)%Z
   then [vae_het.Numbered epoch] else []).
Proof.
  unfold vae_het.epoch_step.
  destruct (vae_het.run_batches run epoch 0 (vae_het.minibatches run epoch) tr vae_het.acc0)
    as [tr1 [acc1|e]] eqn:E; [|discriminate].
  apply run_batches_saved in E.
  destruct (vae_het.Nimg run =? 0)%Z; [discriminate|].
  destruct (negb (vae_het.checkpoint run =? 0)%Z &&
            (epoch mod vae_het.checkpoint run =? 0)%Z).
  - unfold vae_het.save_checkpoint.
    destruct (vae_het.z_mean _ _) as [v|]; [|discriminate].
    intros H; inversion H; subst. rewrite !saved_weights_app, E. simpl.
    rewrite ?app_nil_r. reflexivity.
  - intros H; inversion H; subst. rewrite saved_weights_app, E. reflexivity.
Qed.

Lemma run_epochs_saved (run : vae_het.Run) (epochs : list Z)
    (tr tr' : list vae_het.event) (last last' : option (Z * vae_het.Acc)) :
  vae_het.run_epochs run epochs tr last = (tr', vae_het.Done last') ->
  vae_het.saved_weights tr' =
    vae_het.saved_weights tr ++
    map vae_het.Numbered
      (filter (fun e => negb (vae_het.checkpoint run =? 0)%Z &&
                        (e mod vae_het.checkpoint run =? 0)%Z) epochs) /\
  (epochs = [] -> last' = last) /\
  (epochs <> [] -> exists acc, last' = Some (List.last epochs 0%Z, acc)).
Proof.
  revert tr last; induction epochs as [|e rest IH]; intros tr last H; simpl in H.
  - inversion H; subst. simpl. rewrite app_nil_r. repeat split; auto.
    intros Hne; contradiction.
  - destruct (vae_het.epoch_step run e tr) as [tr1 [acc1|err]] eqn:E; [|discriminate].
    apply epoch_step_saved in E. destruct (IH _ _ H) as (Hs & Hnil & Hcons).
    split; [|split; [discriminate|]].
    + rewrite Hs, E. cbn [filter].
      destruct (negb (vae_het.checkpoint run =? 0)%Z &&
                (e mod vae_het.checkpoint run =? 0)%Z);
        cbn [map]; rewrite <- app_assoc; reflexivity.
    + intros _. destruct rest as [|e2 rest'].
      * exists acc1. rewrite (Hnil eq_refl). reflexivity.
      * destruct Hcons as (acc & ->); [discriminate|]. exists acc. reflexivity.
Qed.

Lemma range2_last (start stop : Z) :
  (start < stop)%Z -> List.last (vae_het.range2 start stop) 0%Z = (stop - 1)%Z.
Proof.
  intros H. unfold vae_het.range2.
  replace (Z.to_nat (stop - start)) with (S (Z.to_nat (stop - start - 1))) by lia.
  rewrite seq_S, map_app. cbn [map]. rewrite last_last. lia.
Qed.

(** X22.  A training run that completes has trained at least one epoch and
    has saved the weights for exactly the epochs of
    [range(start_epoch, num_epochs)] that the checkpoint interval divides
    (none when the interval is 0), in order, and then the final weights,
    which are stored with the number of the last epoch. *)
Theorem training_checkpoints (run : vae_het.Run) (tr : list vae_het.event) :
  vae_het.training run = (tr, vae_het.Done tt) ->
  (vae_het.start_epoch run < vae_het.num_epochs run)%Z /\
  vae_het.saved_weights tr =
    map vae_het.Numbered
      (filter (fun e => negb (vae_het.checkpoint run =? 0)%Z &&
                        (e mod vae_het.checkpoint run =? 0)%Z)
              (vae_het.range2 (vae_het.start_epoch run) (vae_het.num_epochs run)))
    ++ [vae_het.Final] /\
  In (vae_het.EvSaveWeights vae_het.Final (vae_het.num_epochs run - 1)) tr.
Proof.
  unfold vae_het.training.
  destruct (vae_het.run_epochs run _ [] None) as [tr1 [[[e acc]|]|err]] eqn:E;
    [| discriminate | discriminate].
  apply run_epochs_saved in E. destruct E as (Hs & Hnil & Hcons).
  assert (Hlt : (vae_het.start_epoch run < vae_het.num_epochs run)%Z).
  { destruct (Z_lt_le_dec (vae_het.start_epoch run) (vae_het.num_epochs run))
      as [Hl|Hg]; [exact Hl|].
    rewrite (range2_empty _ _ Hg) in Hnil. specialize (Hnil eq_refl). discriminate. }
  destruct Hcons as (acc' & Hlast).
  { rewrite range2_cons by exact Hlt. discriminate. }
  rewrite range2_last in Hlast by exact Hlt. inversion Hlast; subst; clear Hlast.
  unfold vae_het.save_checkpoint.
  destruct (vae_het.z_mean _ _) as [v|]; [|discriminate].
  destruct (vae_het.num_epochs run =? 0)%Z; [discriminate|].
  intros H; inversion H; subst. split; [exact Hlt|]. split.
  - rewrite saved_weights_app, Hs. reflexivity.
  - apply in_or_app. right. simpl. auto.
Qed.

Lemma demo_training :
  exists tr, vae_het.training vae_het.demo_run = (tr, vae_het.Done tt).
Proof. eexists. vm_compute. reflexivity. Qed.

Lemma training_checkpoints_witness :
  vae_het.saved_weights (fst (vae_het.training vae_het.demo_run)) =
  [vae_het.Numbered 0; vae_het.Numbered 1; vae_het.Final].
Proof.
  destruct (training_checkpoints vae_het.demo_run
              (fst (vae_het.training vae_het.demo_run))) as (_ & H & _).
  - vm_compute. reflexivity.
  - rewrite H. vm_compute. reflexivity.
Defined.

(** X23.  With [--log-interval 0] and an epoch to run, the training part of
    [main] calls [train] once, on the first minibatch, and then raises
    [ZeroDivisionError] at [batch_it % args.log_interval]: the model has taken
    one optimizer step and nothing is saved. *)
Theorem training_log_interval_zero (run : vae_het.Run) (B : Z) (rest : list Z) :
  vae_het.log_interval run = 0%Z ->
  (vae_het.start_epoch run < vae_het.num_epochs run)%Z ->
  vae_het.minibatches run (vae_het.start_epoch run) = B :: rest ->
  vae_het.training run =
  ([vae_het.EvTrain (vae_het.start_epoch run) 0
      (vae_het.Nimg run * vae_het.start_epoch run + B)],
   vae_het.Fail vae_het.ZeroDivisionError).
Proof.
  intros Hlog Hlt Hmb. unfold vae_het.training.
  rewrite range2_cons by exact Hlt. cbn [vae_het.run_epochs].
  unfold vae_het.epoch_step. rewrite Hmb. cbn [vae_het.run_batches].
  unfold vae_het.batch_step. cbn [vae_het.acc0 vae_het.z_accum vae_het.z_iadd
                                  vae_het.batch_it].
  rewrite Hlog. cbn [Z.eqb app Z.add]. reflexivity.
Qed.

Lemma training_log_interval_zero_witness :
  vae_het.training
    (vae_het.mkRun 0 2 1 0 3 false (fun _ => [2; 1]%Z)
       (fun _ _ => vae_het.mkTrainResult 1 2 3 0 [5])) =
  ([vae_het.EvTrain 0 0 2], vae_het.Fail vae_het.ZeroDivisionError).
Proof.
  apply (training_log_interval_zero
           (vae_het.mkRun 0 2 1 0 3 false (fun _ => [2; 1]%Z)
              (fun _ _ => vae_het.mkTrainResult 1 2 3 0 [5])) 2%Z [1%Z]).
  - reflexivity.
  - simpl. lia.
  - reflexivity.
Defined.

Lemma batch_step_loss (run : vae_het.Run) (epoch : Z) (pos : nat) (B : Z)
    (tr tr' : list vae_het.event) (acc acc' : vae_het.Acc) :
  vae_het.batch_step run epoch pos B tr acc = (tr', vae_het.Done acc') ->
  vae_het.batch_it acc' = (vae_het.batch_it acc + B)%Z /\
  vae_het.loss_accum acc' =
    vae_het.loss_accum acc + vae_het.r_loss (vae_het.train_step run epoch pos) * IZR B.
Proof.
  unfold vae_het.batch_step.
  destruct (vae_het.z_iadd _ _) as [zs|e]; [|discriminate].
  destruct (vae_het.log_interval run =? 0)%Z; [discriminate|].
  destruct (_ =? 0)%Z; intros H; inversion H; subst; cbn; split; reflexivity.
Qed.

Lemma run_batches_loss (run : vae_het.Run) (epoch : Z) (lo hi : R) :
  (forall pos, lo <= vae_het.r_loss (vae_het.train_step run epoch pos) <= hi) ->
  forall (sizes : list Z) (pos : nat) (tr tr' : list vae_het.event)
         (acc acc' : vae_het.Acc),
    Forall (fun B => 0 <= B)%Z sizes ->
    vae_het.run_batches run epoch pos sizes tr acc = (tr', vae_het.Done acc') ->
    vae_het.batch_it acc' = (vae_het.batch_it acc + fold_right Z.add 0%Z sizes)%Z /\
    lo * IZR (fold_right Z.add 0%Z sizes)
      <= vae_het.loss_accum acc' - vae_het.loss_accum acc
      <= hi * IZR (fold_right Z.add 0%Z sizes).
Proof.
  intros Hb sizes; induction sizes as [|B rest IH]; intros pos tr tr' acc acc' Hf H;
    simpl in H.
  - inversion H; subst. simpl. split; [lia|lra].
  - destruct (vae_het.batch_step run epoch pos B tr acc) as [tr1 [acc1|e]] eqn:E;
      [|discriminate].
    apply batch_step_loss in E. destruct E as (Eb & El).
    inversion Hf as [|? ? HB Hrest]; subst.
    destruct (IH _ _ _ _ _ Hrest H) as (Ib & Il).
    cbn [fold_right]. split; [lia|].
    rewrite plus_IZR. rewrite El in Il.
    pose proof (Hb pos) as Hp. apply IZR_le in HB.
    split; nra.
Qed.

(** X24.  The total loss that the loop logs for an epoch is the sum of the
    minibatch losses weighted by the minibatch sizes, divided by [Nimg]: when
    the sizes are not negative and add up to [Nimg] (a data loader that drops
    nothing), the logged value lies between any lower and upper bound of the
    minibatch losses, and the images counted by [batch_it] are [Nimg]. *)
Theorem epoch_average_bounds (run : vae_het.Run) (epoch : Z)
    (tr tr' : list vae_het.event) (acc : vae_het.Acc) (lo hi : R) :
  vae_het.epoch_step run epoch tr = (tr', vae_het.Done acc) ->
  Forall (fun B => 0 <= B)%Z (vae_het.minibatches run epoch) ->
  fold_right Z.add 0%Z (vae_het.minibatches run epoch) = vae_het.Nimg run ->
  (forall pos, lo <= vae_het.r_loss (vae_het.train_step run epoch pos) <= hi) ->
  vae_het.batch_it acc = vae_het.Nimg run /\
  In (vae_het.EvLogEpoch (epoch + 1)
        (vae_het.gen_loss_accum acc / IZR (vae_het.Nimg run))
        (vae_het.kld_accum acc / IZR (vae_het.Nimg run))
        (vae_het.loss_accum acc / IZR (vae_het.Nimg run))) tr' /\
  lo <= vae_het.loss_accum acc / IZR (vae_het.Nimg run) <= hi.
Proof.
  intros H Hf Hsum Hb. unfold vae_het.epoch_step in H.
  destruct (vae_het.run_batches run epoch 0 (vae_het.minibatches run epoch) tr vae_het.acc0)
    as [tr1 [acc1|e]] eqn:E; [|discriminate].
  destruct (run_batches_loss run epoch lo hi Hb _ _ _ _ _ _ Hf E) as (Ib & Il).
  rewrite Hsum in Ib, Il. cbn [vae_het.acc0 vae_het.batch_it vae_het.loss_accum] in Ib, Il.
  destruct (vae_het.Nimg run =? 0)%Z eqn:EN; [discriminate|].
  apply Z.eqb_neq in EN.
  assert (HN : (0 < vae_het.Nimg run)%Z).
  { assert (0 <= fold_right Z.add 0 (vae_het.minibatches run epoch))%Z.
    { clear -Hf. induction Hf; simpl; lia. }
    lia. }
  apply IZR_lt in HN.
  assert (Hacc : acc = acc1 /\
                 In (vae_het.EvLogEpoch (epoch + 1)
                       (vae_het.gen_loss_accum acc1 / IZR (vae_het.Nimg run))
                       (vae_het.kld_accum acc1 / IZR (vae_het.Nimg run))
                       (vae_het.loss_accum acc1 / IZR (vae_het.Nimg run))) tr').
  { destruct (negb (vae_het.checkpoint run =? 0)%Z &&
              (epoch mod vae_het.checkpoint run =? 0)%Z).
    - unfold vae_het.save_checkpoint in H.
      destruct (vae_het.z_mean _ _) as [v|]; [|discriminate].
      inversion H; subst. split; [reflexivity|].
      apply in_or_app. left. apply in_or_app. right. left. reflexivity.
    - inversion H; subst. split; [reflexivity|].
      apply in_or_app. right. left. reflexivity. }
  destruct Hacc as (-> & Hin).
  split; [lia|]. split; [exact Hin|].
  rewrite Rminus_0_r in Il. destruct Il as (Il1 & Il2).
  split.
  - apply Rmult_le_reg_r with (IZR (vae_het.Nimg run)); [exact HN|].
    unfold Rdiv. rewrite Rmult_assoc, Rinv_l by lra. lra.
  - apply Rmult_le_reg_r with (IZR (vae_het.Nimg run)); [exact HN|].
    unfold Rdiv. rewrite Rmult_assoc, Rinv_l by lra. lra.
Qed.

Lemma epoch_average_bounds_witness :
  3 <= vae_het.loss_accum
         (match snd (vae_het.epoch_step vae_het.demo_run 0 []) with
          | vae_het.Done a => a
          | vae_het.Fail _ => vae_het.acc0
          end) / IZR 3 <= 3.
Proof.
  destruct (epoch_average_bounds vae_het.demo_run 0 []
              (fst (vae_het.epoch_step vae_het.demo_run 0 []))
              (match snd (vae_het.epoch_step vae_het.demo_run 0 []) with
               | vae_het.Done a => a
               | vae_het.Fail _ => vae_het.acc0
               end) 3 3) as (_ & _ & H).
  - vm_compute. reflexivity.
  - repeat constructor; discriminate.
  - reflexivity.
  - intros pos. simpl. lra.
  - exact H.
Defined.
